(** * The UVM channel engine (nvidia-uvm/uvm_channel.c), embedded in Rocq

    The development follows uvm_channel.c function by function.  Machine
    integers are integers of [Z] with their wrap-around written out, C
    arrays are lists read and written by index, the intrusive free list of
    push infos is the list of the indices of the records on it, and the
    calls into the collaborators (HAL, pushbuffer, kernel log) are recorded
    as events.  A dereference of a null pointer or an access outside an
    array is a fault: the operations that can run into one return [None]
    there. *)

From Stdlib Require Import String ZArith Lia Bool List Permutation.
From stdpp Require Import base option list relations.
Import ListNotations.

Local Open Scope Z_scope.

(** ** Machine integers *)

Definition NvU32_modulus : Z := 2 ^ 32.
Definition NvU64_modulus : Z := 2 ^ 64.

(** A value stored into an [NvU32] / [NvU64] object. *)
Definition u32 (x : Z) : Z := x mod NvU32_modulus.
Definition u64 (x : Z) : Z := x mod NvU64_modulus.

(** Conversion of a 32-bit pattern to [int] (two's complement). *)
Definition to_int (x : Z) : Z :=
  let y := u32 x in if y <? 2 ^ 31 then y else y - NvU32_modulus.

Definition is_u32 (x : Z) : Prop := 0 <= x < NvU32_modulus.
Definition is_u64 (x : Z) : Prop := 0 <= x < NvU64_modulus.

(** [hweight32]: the number of bits set among the low 32. *)
Definition hweight32 (w : Z) : Z :=
  Z.of_nat (length (List.filter (fun i => Z.testbit w (Z.of_nat i)) (seq 0 32))).

(** [bitmap_weight(map, nbits)]: the number of bits set among the low
    [nbits]. *)
Definition bitmap_weight (map : Z) (nbits : Z) : Z :=
  Z.of_nat (length (List.filter (fun i => Z.testbit map (Z.of_nat i))
                           (seq 0 (Z.to_nat nbits)))).

(** ** Status codes used by the file *)

Inductive NV_STATUS : Type :=
| NV_OK
| NV_ERR_GENERIC
| NV_ERR_NO_MEMORY
| NV_ERR_NOT_SUPPORTED
| NV_ERR_OPERATING_SYSTEM
| NV_ERR_ECC_ERROR
| NV_ERR_RC_ERROR.

Definition NV_STATUS_eqb (a b : NV_STATUS) : bool :=
  match a, b with
  | NV_OK, NV_OK
  | NV_ERR_GENERIC, NV_ERR_GENERIC
  | NV_ERR_NO_MEMORY, NV_ERR_NO_MEMORY
  | NV_ERR_NOT_SUPPORTED, NV_ERR_NOT_SUPPORTED
  | NV_ERR_OPERATING_SYSTEM, NV_ERR_OPERATING_SYSTEM
  | NV_ERR_ECC_ERROR, NV_ERR_ECC_ERROR
  | NV_ERR_RC_ERROR, NV_ERR_RC_ERROR => true
  | _, _ => false
  end.

(** ** Module parameters and the manager's configuration *)

Definition UVM_CHANNEL_NUM_GPFIFO_ENTRIES_DEFAULT : Z := 1024.
Definition UVM_CHANNEL_NUM_GPFIFO_ENTRIES_MIN : Z := 32.
Definition UVM_CHANNEL_NUM_GPFIFO_ENTRIES_MAX : Z := 1024 * 1024.

Definition UVM_CHANNEL_GPFIFO_LOC_DEFAULT : string := "auto".
Definition UVM_CHANNEL_GPPUT_LOC_DEFAULT : string := "auto".
Definition UVM_CHANNEL_PUSHBUFFER_LOC_DEFAULT : string := "auto".

(** The four [module_param] globals. *)
Record module_params : Type := {
  uvm_channel_num_gpfifo_entries : Z;
  uvm_channel_gpfifo_loc : string;
  uvm_channel_gpput_loc : string;
  uvm_channel_pushbuffer_loc : string
}.

Inductive UVM_BUFFER_LOCATION : Type :=
| UVM_BUFFER_LOCATION_DEFAULT
| UVM_BUFFER_LOCATION_SYS
| UVM_BUFFER_LOCATION_VID.

Definition UVM_BUFFER_LOCATION_eqb (a b : UVM_BUFFER_LOCATION) : bool :=
  match a, b with
  | UVM_BUFFER_LOCATION_DEFAULT, UVM_BUFFER_LOCATION_DEFAULT
  | UVM_BUFFER_LOCATION_SYS, UVM_BUFFER_LOCATION_SYS
  | UVM_BUFFER_LOCATION_VID, UVM_BUFFER_LOCATION_VID => true
  | _, _ => false
  end.

(** [manager->conf]. *)
Record channel_manager_conf : Type := {
  conf_num_gpfifo_entries : Z;
  conf_gpfifo_loc : UVM_BUFFER_LOCATION;
  conf_gpput_loc : UVM_BUFFER_LOCATION;
  conf_pushbuffer_loc : UVM_BUFFER_LOCATION
}.

(** What [init_channel_manager_conf] reads of the GPU and of the build:
    [gpu->mem_info.size], [gpu->parent->gpfifo_in_vidmem_supported], the
    outcome of [gpu->parent->sysmem_link >= UVM_GPU_LINK_NVLINK_2] (the
    enumeration is declared in a header that is not at hand) and the
    macro [NVCPU_IS_AARCH64]. *)
Record conf_gpu_info : Type := {
  mem_info_size : Z;
  gpfifo_in_vidmem_supported : bool;
  sysmem_link_at_least_nvlink_2 : bool;
  NVCPU_IS_AARCH64 : bool
}.

(** The lines [init_channel_manager_conf] writes with [pr_info]. *)
Inductive pr_info_line : Type :=
| info_invalid_num_gpfifo_entries (given used : Z)
| info_invalid_pushbuffer_loc (given used : string)
| info_invalid_gpfifo_loc (given used : string)
| info_invalid_gpput_loc (given used : string)
| info_pushbuffer_loc_not_supported_on_aarch64 (value : string)
| info_caution_gpput_in_sysmem.

(** Modelled from the spec: [is_power_of_2] is the kernel's helper
    (linux/log2.h), absent from the sources at hand; the spec only says
    "power of two".  It is written here the way the kernel writes it,
    [n != 0 && (n & (n - 1)) == 0], and shown below to hold exactly of the
    powers of two. *)
Definition is_power_of_2 (n : Z) : bool :=
  negb (n =? 0) && (Z.land n (n - 1) =? 0).

(** [strcmp(a, b) == 0]. *)
Definition strcmp_eq0 (a b : string) : bool := String.eqb a b.

(** The body reads the global [uvm_channel_gpfifo_loc], whatever [loc]
    is. *)
Definition is_string_valid_location (params : module_params) (loc : string) : bool :=
  strcmp_eq0 (uvm_channel_gpfifo_loc params) "sys" ||
  strcmp_eq0 (uvm_channel_gpfifo_loc params) "vid" ||
  strcmp_eq0 (uvm_channel_gpfifo_loc params) "auto".

Definition string_to_buffer_location (loc : string) : UVM_BUFFER_LOCATION :=
  if strcmp_eq0 loc "sys" then UVM_BUFFER_LOCATION_SYS
  else if strcmp_eq0 loc "vid" then UVM_BUFFER_LOCATION_VID
  else UVM_BUFFER_LOCATION_DEFAULT.

Definition buffer_location_to_string (loc : UVM_BUFFER_LOCATION) : string :=
  match loc with
  | UVM_BUFFER_LOCATION_SYS => "sys"
  | UVM_BUFFER_LOCATION_VID => "vid"
  | UVM_BUFFER_LOCATION_DEFAULT => "auto"
  end.

(** Step 1 of [init_channel_manager_conf]: the number of GPFIFO entries. *)
Definition init_conf_num_gpfifo_entries (params : module_params) : Z * list pr_info_line :=
  let given := uvm_channel_num_gpfifo_entries params in
  let n := given in
  let n := if given <? UVM_CHANNEL_NUM_GPFIFO_ENTRIES_MIN
           then UVM_CHANNEL_NUM_GPFIFO_ENTRIES_MIN
           else if UVM_CHANNEL_NUM_GPFIFO_ENTRIES_MAX <? given
                then UVM_CHANNEL_NUM_GPFIFO_ENTRIES_MAX
                else n in
  let n := if negb (is_power_of_2 n)
           then UVM_CHANNEL_NUM_GPFIFO_ENTRIES_DEFAULT else n in
  (n, if negb (n =? given) then [info_invalid_num_gpfifo_entries given n] else []).

(** The value kept for one location parameter after its validity check,
    with the line logged when it is replaced. *)
Definition checked_location (params : module_params) (value default : string)
    (line : string -> string -> pr_info_line) : string * list pr_info_line :=
  if negb (is_string_valid_location params value)
  then (default, [line value default])
  else (value, []).

Definition init_channel_manager_conf (params : module_params) (gpu : conf_gpu_info)
    : channel_manager_conf * list pr_info_line :=
  let '(num, log1) := init_conf_num_gpfifo_entries params in
  if mem_info_size gpu =? 0 then
    ({| conf_num_gpfifo_entries := num;
        conf_gpfifo_loc := UVM_BUFFER_LOCATION_SYS;
        conf_gpput_loc := UVM_BUFFER_LOCATION_SYS;
        conf_pushbuffer_loc := UVM_BUFFER_LOCATION_SYS |}, log1)
  else
    let '(pushbuffer_loc_value, log2) :=
      checked_location params (uvm_channel_pushbuffer_loc params)
        UVM_CHANNEL_PUSHBUFFER_LOC_DEFAULT info_invalid_pushbuffer_loc in
    let '(pushbuffer_loc, log3) :=
      if strcmp_eq0 pushbuffer_loc_value "vid" then
        if NVCPU_IS_AARCH64 gpu
        then (UVM_BUFFER_LOCATION_SYS,
              [info_pushbuffer_loc_not_supported_on_aarch64 pushbuffer_loc_value])
        else (UVM_BUFFER_LOCATION_VID, [])
      else (UVM_BUFFER_LOCATION_SYS, []) in
    if negb (gpfifo_in_vidmem_supported gpu) then
      ({| conf_num_gpfifo_entries := num;
          conf_gpfifo_loc := UVM_BUFFER_LOCATION_DEFAULT;
          conf_gpput_loc := UVM_BUFFER_LOCATION_DEFAULT;
          conf_pushbuffer_loc := pushbuffer_loc |}, log1 ++ log2 ++ log3)
    else
      let '(gpfifo_loc_value, log4) :=
        checked_location params (uvm_channel_gpfifo_loc params)
          UVM_CHANNEL_GPFIFO_LOC_DEFAULT info_invalid_gpfifo_loc in
      let '(gpput_loc_value, log5) :=
        checked_location params (uvm_channel_gpput_loc params)
          UVM_CHANNEL_GPPUT_LOC_DEFAULT info_invalid_gpput_loc in
      let gpfifo_loc :=
        if sysmem_link_at_least_nvlink_2 gpu
        then UVM_BUFFER_LOCATION_SYS else UVM_BUFFER_LOCATION_VID in
      let gpput_loc := UVM_BUFFER_LOCATION_VID in
      let gpfifo_loc :=
        if negb (UVM_BUFFER_LOCATION_eqb (string_to_buffer_location gpfifo_loc_value)
                                         UVM_BUFFER_LOCATION_DEFAULT)
        then string_to_buffer_location gpfifo_loc_value else gpfifo_loc in
      let '(gpput_loc, log6) :=
        if negb (UVM_BUFFER_LOCATION_eqb (string_to_buffer_location gpput_loc_value)
                                         UVM_BUFFER_LOCATION_DEFAULT)
        then (string_to_buffer_location gpput_loc_value,
              if UVM_BUFFER_LOCATION_eqb (string_to_buffer_location gpput_loc_value)
                                         UVM_BUFFER_LOCATION_SYS
              then [info_caution_gpput_in_sysmem] else [])
        else (gpput_loc, []) in
      ({| conf_num_gpfifo_entries := num;
          conf_gpfifo_loc := gpfifo_loc;
          conf_gpput_loc := gpput_loc;
          conf_pushbuffer_loc := pushbuffer_loc |},
       log1 ++ log2 ++ log3 ++ log4 ++ log5 ++ log6).

(** The configuration the spec describes for [num_gpfifo_entries]: clamp
    into [[32, 2^20]], then fall back to the default unless the value is a
    power of two. *)
Definition clamp_num_gpfifo_entries (v : Z) : Z := Z.max 32 (Z.min v (2 ^ 20)).

(** ** Channel types and copy-engine capabilities *)

(** uvm_channel_type_t, in the order [uvm_channel_type_to_string] lists the
    enumerators; UVM_CHANNEL_TYPE_COUNT is 5. *)
Inductive uvm_channel_type_t : Type :=
| UVM_CHANNEL_TYPE_CPU_TO_GPU
| UVM_CHANNEL_TYPE_GPU_TO_CPU
| UVM_CHANNEL_TYPE_GPU_INTERNAL
| UVM_CHANNEL_TYPE_MEMOPS
| UVM_CHANNEL_TYPE_GPU_TO_GPU.

Definition UVM_CHANNEL_TYPE_COUNT : nat := 5.

(** The enumerator's value, the index into [preferred_ce] and
    [pool_to_use.default_for_type]. *)
Definition channel_type_index (t : uvm_channel_type_t) : nat :=
  match t with
  | UVM_CHANNEL_TYPE_CPU_TO_GPU => 0
  | UVM_CHANNEL_TYPE_GPU_TO_CPU => 1
  | UVM_CHANNEL_TYPE_GPU_INTERNAL => 2
  | UVM_CHANNEL_TYPE_MEMOPS => 3
  | UVM_CHANNEL_TYPE_GPU_TO_GPU => 4
  end%nat.

(** Modelled from the spec: UvmGpuCopyEngineCaps is declared in a header
    that is not part of the sources at hand; the record has the fields the
    spec lists for the capability table, which are the ones uvm_channel.c
    reads.  The flags are one-bit booleans, [cePceMask] is a 32-bit mask. *)
Record UvmGpuCopyEngineCaps : Type := {
  supported : bool;
  grce : bool;
  shared : bool;
  sysmemRead : bool;
  sysmemWrite : bool;
  sysmem : bool;
  nvlinkP2p : bool;
  p2p : bool;
  cePceMask : Z
}.

(** What [memset(&ces_caps, 0, sizeof(ces_caps))] leaves in an entry. *)
Definition zero_caps : UvmGpuCopyEngineCaps :=
  {| supported := false; grce := false; shared := false;
     sysmemRead := false; sysmemWrite := false; sysmem := false;
     nvlinkP2p := false; p2p := false; cePceMask := 0 |}.

Definition ce_usable_for_channel_type
    (type : uvm_channel_type_t) (cap : UvmGpuCopyEngineCaps) : bool :=
  if negb (supported cap) || grce cap then false
  else match type with
       | UVM_CHANNEL_TYPE_CPU_TO_GPU
       | UVM_CHANNEL_TYPE_GPU_TO_CPU => sysmem cap
       | UVM_CHANNEL_TYPE_GPU_INTERNAL
       | UVM_CHANNEL_TYPE_MEMOPS => true
       | UVM_CHANNEL_TYPE_GPU_TO_GPU => p2p cap
       end.

(** [ce_caps + ce_index]; the table has UVM_COPY_ENGINE_COUNT_MAX entries
    and the callers stay below that. *)
Definition caps_at (ce_caps : list UvmGpuCopyEngineCaps) (ce_index : Z)
    : UvmGpuCopyEngineCaps :=
  nth (Z.to_nat ce_index) ce_caps zero_caps.

(** The loop over [preferred_ce[0 .. UVM_CHANNEL_TYPE_COUNT)]. *)
Fixpoint ce_usage_count (ce : Z) (preferred_ce : list Z) : Z :=
  match preferred_ce with
  | [] => 0
  | p :: rest => ce_usage_count ce rest + (if ce =? p then 1 else 0)
  end.

(** Negative when the first CE is the better one.  The differences of
    one-bit flags are [int] differences; the differences of the usage
    counts and of the indices are unsigned and converted to [int] by the
    return. *)
Definition compare_ce_for_channel_type
    (ce_caps : list UvmGpuCopyEngineCaps) (type : uvm_channel_type_t)
    (ce_index0 ce_index1 : Z) (preferred_ce : list Z) : Z :=
  let cap0 := caps_at ce_caps ce_index0 in
  let cap1 := caps_at ce_caps ce_index1 in
  let default_ordering :=
    let ce0_usage := ce_usage_count ce_index0 preferred_ce in
    let ce1_usage := ce_usage_count ce_index1 preferred_ce in
    if negb (ce0_usage =? ce1_usage) then to_int (ce0_usage - ce1_usage)
    else if negb (eqb (shared cap0) (shared cap1))
         then Z.b2z (shared cap0) - Z.b2z (shared cap1)
         else to_int (ce_index0 - ce_index1) in
  let avoid_nvlink_p2p_then (rest : Z) :=
    if negb (eqb (nvlinkP2p cap0) (nvlinkP2p cap1))
    then Z.b2z (nvlinkP2p cap0) - Z.b2z (nvlinkP2p cap1)
    else rest in
  let pce_diff := hweight32 (cePceMask cap1) - hweight32 (cePceMask cap0) in
  match type with
  | UVM_CHANNEL_TYPE_CPU_TO_GPU =>
      if negb (eqb (sysmemRead cap0) (sysmemRead cap1))
      then Z.b2z (sysmemRead cap1) - Z.b2z (sysmemRead cap0)
      else avoid_nvlink_p2p_then default_ordering
  | UVM_CHANNEL_TYPE_GPU_TO_CPU =>
      if negb (eqb (sysmemWrite cap0) (sysmemWrite cap1))
      then Z.b2z (sysmemWrite cap1) - Z.b2z (sysmemWrite cap0)
      else avoid_nvlink_p2p_then default_ordering
  | UVM_CHANNEL_TYPE_GPU_TO_GPU =>
      if negb (pce_diff =? 0) then pce_diff else default_ordering
  | UVM_CHANNEL_TYPE_GPU_INTERNAL =>
      if negb (pce_diff =? 0) then pce_diff
      else avoid_nvlink_p2p_then default_ordering
  | UVM_CHANNEL_TYPE_MEMOPS => default_ordering
  end.

Section CopyEngineSelection.

(** The number of entries of the capability table, a constant of a header
    that is not at hand. *)
Variable UVM_COPY_ENGINE_COUNT_MAX : Z.

(** One turn of the loop of [pick_ce_for_channel_type], on the pair
    ([manager->ce_mask], [best_ce]). *)
Definition pick_ce_step (ce_caps : list UvmGpuCopyEngineCaps)
    (type : uvm_channel_type_t) (preferred_ce : list Z)
    (st : Z * Z) (i : Z) : Z * Z :=
  let '(ce_mask, best_ce) := st in
  if negb (ce_usable_for_channel_type type (caps_at ce_caps i)) then st
  else
    let ce_mask := Z.setbit ce_mask i in
    if best_ce =? UVM_COPY_ENGINE_COUNT_MAX then (ce_mask, i)
    else if compare_ce_for_channel_type ce_caps type i best_ce preferred_ce <? 0
         then (ce_mask, i)
         else (ce_mask, best_ce).

(** The indices [0, 1, ..., n - 1] a [for] loop runs through. *)
Definition indices_below (n : Z) : list Z := map Z.of_nat (seq 0 (Z.to_nat n)).

Definition pick_ce_for_channel_type (ce_mask : Z)
    (ce_caps : list UvmGpuCopyEngineCaps) (type : uvm_channel_type_t)
    (preferred_ce : list Z) : NV_STATUS * Z * list Z :=
  let '(ce_mask, best_ce) :=
    fold_left (pick_ce_step ce_caps type preferred_ce)
              (indices_below UVM_COPY_ENGINE_COUNT_MAX)
              (ce_mask, UVM_COPY_ENGINE_COUNT_MAX) in
  if best_ce =? UVM_COPY_ENGINE_COUNT_MAX
  then (NV_ERR_NOT_SUPPORTED, ce_mask, preferred_ce)
  else (NV_OK, ce_mask, <[channel_type_index type := best_ce]> preferred_ce).

(** The loop over [types[]], left at the first failure. *)
Fixpoint pick_ce_for_channel_types (types : list uvm_channel_type_t)
    (ce_mask : Z) (ce_caps : list UvmGpuCopyEngineCaps) (preferred_ce : list Z)
    : NV_STATUS * Z * list Z :=
  match types with
  | [] => (NV_OK, ce_mask, preferred_ce)
  | type :: rest =>
      let '(status, ce_mask, preferred_ce) :=
        pick_ce_for_channel_type ce_mask ce_caps type preferred_ce in
      if NV_STATUS_eqb status NV_OK
      then pick_ce_for_channel_types rest ce_mask ce_caps preferred_ce
      else (status, ce_mask, preferred_ce)
  end.

(** [query] is what nvUvmInterfaceQueryCopyEnginesCaps answers: a status
    and the capability table. *)
Definition channel_manager_pick_copy_engines
    (query : NV_STATUS * list UvmGpuCopyEngineCaps)
    (ce_mask : Z) (preferred_ce : list Z) : NV_STATUS * Z * list Z :=
  let '(status, ces_caps) := query in
  if negb (NV_STATUS_eqb status NV_OK) then (status, ce_mask, preferred_ce)
  else pick_ce_for_channel_types
         [UVM_CHANNEL_TYPE_CPU_TO_GPU;
          UVM_CHANNEL_TYPE_GPU_TO_CPU;
          UVM_CHANNEL_TYPE_GPU_INTERNAL;
          UVM_CHANNEL_TYPE_GPU_TO_GPU;
          UVM_CHANNEL_TYPE_MEMOPS]
         ce_mask ces_caps preferred_ce.

End CopyEngineSelection.

(** ** Channels *)

(** uvm_gpfifo_entry_t.  [push_info] is the pointer into the channel's
    [push_infos] array, kept as the index of the record it points to;
    [None] is the null pointer of a zeroed entry. *)
Record uvm_gpfifo_entry_t : Type := {
  tracking_semaphore_value : Z;
  pushbuffer_offset : Z;
  pushbuffer_size : Z;
  push_info : option nat
}.

(** An entry of the array [uvm_kvmalloc_zero] returns. *)
Definition zero_gpfifo_entry : uvm_gpfifo_entry_t :=
  {| tracking_semaphore_value := 0; pushbuffer_offset := 0;
     pushbuffer_size := 0; push_info := None |}.

(** The tracking semaphore: the two 64-bit counters and the 32-bit payload
    word the GPU writes. *)
Record uvm_gpu_tracking_semaphore_t : Type := {
  queued_value : Z;
  completed_value : Z;
  sem_payload : Z
}.

(** The part of uvm_channel_t that uvm_channel.c reads and writes.
    [gpfifo_entries] is the array of [num_gpfifo_entries] entries,
    [available_push_infos] the free list (head first),
    [errorNotifier_status] is [channel_info.errorNotifier->status]. *)
Record uvm_channel_t : Type := {
  num_gpfifo_entries : Z;
  cpu_put : Z;
  gpu_get : Z;
  current_pushes_count : Z;
  gpfifo_entries : list uvm_gpfifo_entry_t;
  available_push_infos : list nat;
  tracking_sem : uvm_gpu_tracking_semaphore_t;
  tracking_sem_gpu_va : Z;
  errorNotifier_status : Z
}.

Definition set_tracking_sem (s : uvm_gpu_tracking_semaphore_t) (ch : uvm_channel_t)
    : uvm_channel_t :=
  {| num_gpfifo_entries := num_gpfifo_entries ch;
     cpu_put := cpu_put ch;
     gpu_get := gpu_get ch;
     current_pushes_count := current_pushes_count ch;
     gpfifo_entries := gpfifo_entries ch;
     available_push_infos := available_push_infos ch;
     tracking_sem := s;
     tracking_sem_gpu_va := tracking_sem_gpu_va ch;
     errorNotifier_status := errorNotifier_status ch |}.

Definition set_current_pushes_count (c : Z) (ch : uvm_channel_t) : uvm_channel_t :=
  {| num_gpfifo_entries := num_gpfifo_entries ch;
     cpu_put := cpu_put ch;
     gpu_get := gpu_get ch;
     current_pushes_count := c;
     gpfifo_entries := gpfifo_entries ch;
     available_push_infos := available_push_infos ch;
     tracking_sem := tracking_sem ch;
     tracking_sem_gpu_va := tracking_sem_gpu_va ch;
     errorNotifier_status := errorNotifier_status ch |}.

Definition set_available_push_infos (l : list nat) (ch : uvm_channel_t) : uvm_channel_t :=
  {| num_gpfifo_entries := num_gpfifo_entries ch;
     cpu_put := cpu_put ch;
     gpu_get := gpu_get ch;
     current_pushes_count := current_pushes_count ch;
     gpfifo_entries := gpfifo_entries ch;
     available_push_infos := l;
     tracking_sem := tracking_sem ch;
     tracking_sem_gpu_va := tracking_sem_gpu_va ch;
     errorNotifier_status := errorNotifier_status ch |}.

(** The two stores that end [uvm_channel_update_progress_with_max]'s
    critical section: the free list grown by the loop and [gpu_get]. *)
Definition set_progress (g : Z) (l : list nat) (ch : uvm_channel_t) : uvm_channel_t :=
  {| num_gpfifo_entries := num_gpfifo_entries ch;
     cpu_put := cpu_put ch;
     gpu_get := g;
     current_pushes_count := current_pushes_count ch;
     gpfifo_entries := gpfifo_entries ch;
     available_push_infos := l;
     tracking_sem := tracking_sem ch;
     tracking_sem_gpu_va := tracking_sem_gpu_va ch;
     errorNotifier_status := errorNotifier_status ch |}.

(** uvm_push_t, with what the pushbuffer answers about the push
    ([uvm_push_get_size], [uvm_pushbuffer_get_offset_for_push],
    [uvm_pushbuffer_get_gpu_va_for_push]) as fields. *)
Record uvm_push_t : Type := {
  channel_tracking_value : Z;
  push_info_index : Z;
  push_size : Z;
  push_pushbuffer_offset : Z;
  push_pushbuffer_gpu_va : Z
}.

(** The calls into the collaborators and the error log, in program
    order.  GPFIFO entries are named by their index in the ring. *)
Inductive event : Type :=
| ev_semaphore_release (gpu_va payload : Z)
| ev_set_gpfifo_entry (index pushbuffer_va size : Z)
| ev_write_gpu_put (new_cpu_put : Z)
| ev_pushbuffer_end_push (index : Z)
| ev_pushbuffer_mark_completed (index : Z)
| ev_err_channel_error
| ev_err_caused_by_push (info : nat)
| ev_global_set_fatal_error (status : NV_STATUS).

Inductive uvm_channel_update_mode_t : Type :=
| UVM_CHANNEL_UPDATE_MODE_COMPLETED
| UVM_CHANNEL_UPDATE_MODE_FORCE_ALL.

(** Modelled from the spec: uvm_gpu_tracking_semaphore_update_completed_value
    lives in uvm_gpu_semaphore.c, which is not at hand.  The spec's
    [refresh]: read the 32-bit payload, combine it with the high bits of
    [queued], subtract [2^32] when the result exceeds [queued], raise the
    cached completed value to it, return the cache. *)
Definition uvm_gpu_tracking_semaphore_update_completed_value
    (s : uvm_gpu_tracking_semaphore_t) : uvm_gpu_tracking_semaphore_t * Z :=
  let payload := u32 (sem_payload s) in
  let reconstructed := (queued_value s / NvU32_modulus) * NvU32_modulus + payload in
  let reconstructed :=
    if queued_value s <? reconstructed
    then u64 (reconstructed - NvU32_modulus) else reconstructed in
  let completed := Z.max (completed_value s) reconstructed in
  ({| queued_value := queued_value s;
      completed_value := completed;
      sem_payload := sem_payload s |}, completed).

Definition uvm_channel_update_completed_value (ch : uvm_channel_t) : uvm_channel_t * Z :=
  let '(s, v) := uvm_gpu_tracking_semaphore_update_completed_value (tracking_sem ch) in
  (set_tracking_sem s ch, v).

(** The [while] loop of [uvm_channel_update_progress_with_max].  [budget]
    is [max_to_complete - completed_count], so the loop condition
    [completed_count < max_to_complete] reads [budget > 0].  The result is
    the final [gpu_get], the free list and the entries handed to
    [uvm_pushbuffer_mark_completed], in order. *)
Fixpoint progress_loop (budget : nat) (ch : uvm_channel_t)
    (mode : uvm_channel_update_mode_t) (completed : Z)
    (gpu_get : Z) (available : list nat) : option (Z * list nat * list event) :=
  match budget with
  | O => Some (gpu_get, available, [])
  | S budget' =>
      if gpu_get =? cpu_put ch then Some (gpu_get, available, [])
      else
        entry ← gpfifo_entries ch !! Z.to_nat gpu_get;
        if (match mode with
            | UVM_CHANNEL_UPDATE_MODE_COMPLETED => true
            | UVM_CHANNEL_UPDATE_MODE_FORCE_ALL => false
            end) && (completed <? tracking_semaphore_value entry)
        then Some (gpu_get, available, [])
        else
          info ← push_info entry;
          '(g, l, evs) ← progress_loop budget' ch mode completed
                            (u32 (gpu_get + 1) mod num_gpfifo_entries ch)
                            (available ++ [info]);
          Some (g, l, ev_pushbuffer_mark_completed gpu_get :: evs)
  end.

(** Returns the number of pending GPFIFO entries, the channel and the
    pushbuffer calls made. *)
Definition uvm_channel_update_progress_with_max (ch : uvm_channel_t)
    (max_to_complete : Z) (mode : uvm_channel_update_mode_t)
    : option (Z * uvm_channel_t * list event) :=
  let '(ch, completed) := uvm_channel_update_completed_value ch in
  '(g, l, evs) ← progress_loop (Z.to_nat max_to_complete) ch mode completed
                    (gpu_get ch) (available_push_infos ch);
  let ch := set_progress g l ch in
  let pending_gpfifos :=
    if g <=? cpu_put ch then cpu_put ch - g
    else u32 (num_gpfifo_entries ch - g + cpu_put ch) in
  Some (pending_gpfifos, ch, evs).

Definition uvm_channel_update_progress (ch : uvm_channel_t)
    : option (Z * uvm_channel_t * list event) :=
  uvm_channel_update_progress_with_max ch 8 UVM_CHANNEL_UPDATE_MODE_COMPLETED.

Definition channel_update_progress_all (ch : uvm_channel_t)
    (mode : uvm_channel_update_mode_t) : option (Z * uvm_channel_t * list event) :=
  uvm_channel_update_progress_with_max ch (num_gpfifo_entries ch) mode.

Definition uvm_channel_update_progress_all (ch : uvm_channel_t)
    : option (Z * uvm_channel_t * list event) :=
  channel_update_progress_all ch UVM_CHANNEL_UPDATE_MODE_COMPLETED.

Definition channel_is_available (ch : uvm_channel_t) : bool :=
  let next_put :=
    u32 (cpu_put ch + current_pushes_count ch + 1) mod num_gpfifo_entries ch in
  negb (next_put =? gpu_get ch).

Definition try_claim_channel (ch : uvm_channel_t) : bool * uvm_channel_t :=
  if channel_is_available ch
  then (true, set_current_pushes_count (u32 (current_pushes_count ch + 1)) ch)
  else (false, ch).

(** [n] calls of [try_claim_channel] in a row, with nothing in between:
    the answers in order and the channel they leave. *)
Fixpoint try_claim_channel_times (n : nat) (ch : uvm_channel_t)
    : list bool * uvm_channel_t :=
  match n with
  | O => ([], ch)
  | S n' =>
      let '(claimed, ch) := try_claim_channel ch in
      let '(rest, ch) := try_claim_channel_times n' ch in
      (claimed :: rest, ch)
  end.

(** Detaches the head of the free list; [None] when the list is empty,
    where [UVM_ASSERT(push_info != NULL)] fails and the null record is
    dereferenced. *)
Definition channel_get_available_push_info_index (ch : uvm_channel_t)
    : option (Z * uvm_channel_t) :=
  match available_push_infos ch with
  | [] => None
  | info :: rest => Some (Z.of_nat info, set_available_push_infos rest ch)
  end.

(** [pushbuffer_status] is what [uvm_pushbuffer_begin_push] answers. *)
Definition uvm_channel_begin_push (pushbuffer_status : NV_STATUS)
    (ch : uvm_channel_t) (push : uvm_push_t)
    : option (NV_STATUS * uvm_channel_t * uvm_push_t) :=
  if negb (NV_STATUS_eqb pushbuffer_status NV_OK)
  then Some (pushbuffer_status, ch, push)
  else
    '(index, ch) ← channel_get_available_push_info_index ch;
    Some (NV_OK, ch,
          {| channel_tracking_value := 0;
             push_info_index := index;
             push_size := push_size push;
             push_pushbuffer_offset := push_pushbuffer_offset push;
             push_pushbuffer_gpu_va := push_pushbuffer_gpu_va push |}).

(** [None] when [cpu_put] is outside the entries array. *)
Definition uvm_channel_end_push (ch : uvm_channel_t) (push : uvm_push_t)
    : option (uvm_channel_t * uvm_push_t * list event) :=
  let new_tracking_value := u64 (queued_value (tracking_sem ch) + 1) in
  let new_payload := u32 new_tracking_value in
  let put := cpu_put ch in
  let new_cpu_put := u32 (put + 1) mod num_gpfifo_entries ch in
  if negb (0 <=? put) || negb (put <? Z.of_nat (length (gpfifo_entries ch))) then None
  else
    let entry :=
      {| tracking_semaphore_value := new_tracking_value;
         pushbuffer_offset := push_pushbuffer_offset push;
         pushbuffer_size := push_size push;
         push_info := Some (Z.to_nat (push_info_index push)) |} in
    Some ({| num_gpfifo_entries := num_gpfifo_entries ch;
             cpu_put := new_cpu_put;
             gpu_get := gpu_get ch;
             current_pushes_count := u32 (current_pushes_count ch - 1);
             gpfifo_entries := <[Z.to_nat put := entry]> (gpfifo_entries ch);
             available_push_infos := available_push_infos ch;
             tracking_sem :=
               {| queued_value := new_tracking_value;
                  completed_value := completed_value (tracking_sem ch);
                  sem_payload := sem_payload (tracking_sem ch) |};
             tracking_sem_gpu_va := tracking_sem_gpu_va ch;
             errorNotifier_status := errorNotifier_status ch |},
          {| channel_tracking_value := new_tracking_value;
             push_info_index := u32 (-1);
             push_size := push_size push;
             push_pushbuffer_offset := push_pushbuffer_offset push;
             push_pushbuffer_gpu_va := push_pushbuffer_gpu_va push |},
          [ev_semaphore_release (tracking_sem_gpu_va ch) new_payload;
           ev_set_gpfifo_entry put (push_pushbuffer_gpu_va push) (push_size push);
           ev_write_gpu_put new_cpu_put;
           ev_pushbuffer_end_push put]).

(** ** Channel status and errors *)

(** What [uvm_channel_get_status] reads of the GPU: [gpu->ecc.enabled] and
    the word [gpu->ecc.error_notifier] points to. *)
Record uvm_gpu_ecc : Type := {
  ecc_enabled : bool;
  ecc_error_notifier : Z
}.

Definition uvm_channel_get_status (ch : uvm_channel_t) (gpu : uvm_gpu_ecc) : NV_STATUS :=
  if errorNotifier_status ch =? 0 then NV_OK
  else if ecc_enabled gpu && negb (ecc_error_notifier gpu =? 0)
       then NV_ERR_ECC_ERROR
       else NV_ERR_RC_ERROR.

(** The entry returned is named by its index in the ring; [None] is the
    null pointer. *)
Definition uvm_channel_get_first_pending_entry (ch : uvm_channel_t)
    : option (option Z * uvm_channel_t * list event) :=
  '(pending_count, ch, evs) ←
     channel_update_progress_all ch UVM_CHANNEL_UPDATE_MODE_COMPLETED;
  if pending_count =? 0 then Some (None, ch, evs)
  else Some (if negb (gpu_get ch =? cpu_put ch) then Some (gpu_get ch) else None,
             ch, evs).

Definition uvm_channel_get_fatal_entry (ch : uvm_channel_t)
    : option (option Z * uvm_channel_t * list event) :=
  uvm_channel_get_first_pending_entry ch.

(** Modelled from the spec: uvm_global_set_fatal_error belongs to
    uvm_global.c, which is not at hand.  The spec: the first observation
    of an error is recorded into the process-wide fatal flag.
    [fatal_error] is the flag, [NV_OK] while it is not raised. *)
Definition uvm_global_set_fatal_error (status : NV_STATUS) (fatal_error : NV_STATUS)
    : NV_STATUS :=
  if NV_STATUS_eqb fatal_error NV_OK then status else fatal_error.

(** Returns the status, the channel, the process-wide fatal flag and the
    events: the error lines, with the pushbuffer calls of the progress
    update in between, and the call that raises the flag. *)
Definition uvm_channel_check_errors (ch : uvm_channel_t) (gpu : uvm_gpu_ecc)
    (fatal_error : NV_STATUS)
    : option (NV_STATUS * uvm_channel_t * NV_STATUS * list event) :=
  let status := uvm_channel_get_status ch gpu in
  if NV_STATUS_eqb status NV_OK then Some (NV_OK, ch, fatal_error, [])
  else
    '(fatal_entry, ch, evs) ← uvm_channel_get_fatal_entry ch;
    report ←
      match fatal_entry with
      | Some index =>
          entry ← gpfifo_entries ch !! Z.to_nat index;
          info ← push_info entry;
          Some [ev_err_caused_by_push info]
      | None => Some []
      end;
    Some (status, ch, uvm_global_set_fatal_error status fatal_error,
          ev_err_channel_error :: evs ++ report ++ [ev_global_set_fatal_error status]).

(** ** Channel pools and the manager *)

Record uvm_channel_pool_t : Type := {
  ce_index : Z;
  is_proxy : bool;
  num_channels : Z;
  channels : list uvm_channel_t
}.

(** What the collaborators answer while one channel is created:
    the first failure among the allocations of [channel_create] (or
    [NV_OK]), the semaphore address and error notifier RM hands out, and
    the status of the bootstrap push of [init_channel]. *)
Record channel_outcome : Type := {
  create_status : NV_STATUS;
  rm_tracking_sem_gpu_va : Z;
  rm_errorNotifier_status : Z;
  init_status : NV_STATUS
}.

(** What they answer while a pool is created: whether the channel array
    could be allocated, and the outcome for each channel. *)
Record pool_outcome : Type := {
  channels_allocated : bool;
  channel_outcomes : nat -> channel_outcome
}.

Definition channel_pool_num_channels (is_proxy : bool) : Z :=
  if is_proxy then 1 else 2.

(** What [channel_destroy] does to the pool: [pool->num_channels--], the
    channel being the last one of the array.  The rest of the function
    (the forced reclaim of the channel's entries, the release of its
    arrays, semaphore and RM handle) ends the channel itself. *)
Definition channel_destroy (pool : uvm_channel_pool_t) : uvm_channel_pool_t :=
  {| ce_index := ce_index pool;
     is_proxy := is_proxy pool;
     num_channels := u32 (num_channels pool - 1);
     channels := removelast (channels pool) |}.

(** The channel [channel_create] leaves behind when nothing fails: a
    zeroed channel with its arrays allocated and zeroed and every push
    info on the free list, in index order.  The tracking semaphore comes
    from uvm_gpu_tracking_semaphore_alloc (not at hand) and starts with
    its counters at zero. *)
Definition created_channel (conf : channel_manager_conf) (out : channel_outcome)
    : uvm_channel_t :=
  let n := conf_num_gpfifo_entries conf in
  {| num_gpfifo_entries := n;
     cpu_put := 0;
     gpu_get := 0;
     current_pushes_count := 0;
     gpfifo_entries := repeat zero_gpfifo_entry (Z.to_nat n);
     available_push_infos := seq 0 (Z.to_nat n);
     tracking_sem := {| queued_value := 0; completed_value := 0; sem_payload := 0 |};
     tracking_sem_gpu_va := rm_tracking_sem_gpu_va out;
     errorNotifier_status := rm_errorNotifier_status out |}.

(** [channel_create] on the next free channel of the pool's array:
    counted first, destroyed again when one of its allocations fails. *)
Definition channel_create (conf : channel_manager_conf) (out : channel_outcome)
    (pool : uvm_channel_pool_t) : NV_STATUS * uvm_channel_pool_t :=
  let pool :=
    {| ce_index := ce_index pool;
       is_proxy := is_proxy pool;
       num_channels := u32 (num_channels pool + 1);
       channels := channels pool ++ [created_channel conf out] |} in
  if NV_STATUS_eqb (create_status out) NV_OK then (NV_OK, pool)
  else (create_status out, channel_destroy pool).

(** [while (pool->num_channels > 0) channel_destroy(...)]; [fuel] bounds
    the turns and is taken as the channel count. *)
Fixpoint channel_pool_destroy_loop (fuel : nat) (pool : uvm_channel_pool_t)
    : uvm_channel_pool_t :=
  match fuel with
  | O => pool
  | S fuel' =>
      if 0 <? num_channels pool
      then channel_pool_destroy_loop fuel' (channel_destroy pool)
      else pool
  end.

(** Returns the pool and [manager->num_channel_pools]. *)
Definition channel_pool_destroy (pool : uvm_channel_pool_t) (num_channel_pools : Z)
    : uvm_channel_pool_t * Z :=
  (channel_pool_destroy_loop (Z.to_nat (num_channels pool)) pool,
   u32 (num_channel_pools - 1)).

(** The [for] loop of [channel_pool_create] from channel [i] on, [todo]
    channels left to create; the status is that of the first failure. *)
Fixpoint channel_pool_create_loop (conf : channel_manager_conf)
    (out : nat -> channel_outcome) (i todo : nat) (pool : uvm_channel_pool_t)
    : NV_STATUS * uvm_channel_pool_t :=
  match todo with
  | O => (NV_OK, pool)
  | S todo' =>
      let '(status, pool) := channel_create conf (out i) pool in
      if negb (NV_STATUS_eqb status NV_OK) then (status, pool)
      else if negb (NV_STATUS_eqb (init_status (out i)) NV_OK)
           then (init_status (out i), pool)
           else channel_pool_create_loop conf out (S i) todo' pool
  end.

(** Returns the status, the pool and [manager->num_channel_pools]. *)
Definition channel_pool_create (conf : channel_manager_conf) (out : pool_outcome)
    (num_channel_pools : Z) (ce_index : Z) (is_proxy : bool)
    : NV_STATUS * uvm_channel_pool_t * Z :=
  let pool := {| ce_index := ce_index; is_proxy := is_proxy;
                 num_channels := 0; channels := [] |} in
  let num_channels := channel_pool_num_channels is_proxy in
  if negb (channels_allocated out) then (NV_ERR_NO_MEMORY, pool, num_channel_pools)
  else
    let num_channel_pools := u32 (num_channel_pools + 1) in
    let '(status, pool) :=
      channel_pool_create_loop conf (channel_outcomes out) 0
                               (Z.to_nat num_channels) pool in
    if NV_STATUS_eqb status NV_OK then (NV_OK, pool, num_channel_pools)
    else let '(pool, num_channel_pools) := channel_pool_destroy pool num_channel_pools in
         (status, pool, num_channel_pools).

(** The part of uvm_channel_manager_t that pool creation writes:
    [pool_to_use.default_for_type] holds, per channel type, the index of
    the pool in [channel_pools]. *)
Record uvm_channel_manager_t : Type := {
  ce_mask : Z;
  num_channel_pools : Z;
  channel_pools : list uvm_channel_pool_t;
  default_for_type : list nat
}.

Section PoolCreation.

Variable UVM_COPY_ENGINE_COUNT_MAX : Z.

(** The index of the pool of a CE: the number of usable CEs below it. *)
Definition channel_manager_ce_pool (ce_mask : Z) (ce : Z) : nat :=
  Z.to_nat (bitmap_weight ce_mask ce).

(** [for_each_set_bit(ce, manager->ce_mask, UVM_COPY_ENGINE_COUNT_MAX)]
    around [channel_pool_create], left at the first failure.  [pools] is
    the array up to [manager->num_channel_pools]: a pool whose creation
    fails has been destroyed again and is not counted. *)
Fixpoint create_ce_pools (conf : channel_manager_conf)
    (out : Z -> bool -> pool_outcome) (ces : list Z)
    (num_pools : Z) (pools : list uvm_channel_pool_t)
    : NV_STATUS * Z * list uvm_channel_pool_t :=
  match ces with
  | [] => (NV_OK, num_pools, pools)
  | ce :: rest =>
      let '(status, pool, num_pools) :=
        channel_pool_create conf (out ce false) num_pools ce false in
      if negb (NV_STATUS_eqb status NV_OK) then (status, num_pools, pools)
      else create_ce_pools conf out rest num_pools (pools ++ [pool])
  end.

(** [query] is the answer of RM on the copy engines, [uses_proxy] that of
    [uvm_gpu_uses_proxy_channel_pool], [pools_allocated] whether the pool
    array could be allocated, [out] the outcome of each pool creation.
    The manager starts zeroed. *)
Definition channel_manager_create_pools (conf : channel_manager_conf)
    (query : NV_STATUS * list UvmGpuCopyEngineCaps) (uses_proxy : bool)
    (pools_allocated : bool) (out : Z -> bool -> pool_outcome)
    : NV_STATUS * uvm_channel_manager_t :=
  let preferred_ce := repeat UVM_COPY_ENGINE_COUNT_MAX UVM_CHANNEL_TYPE_COUNT in
  let '(status, mask, preferred_ce) :=
    channel_manager_pick_copy_engines UVM_COPY_ENGINE_COUNT_MAX query 0 preferred_ce in
  let manager pools_count pools types :=
    {| ce_mask := mask; num_channel_pools := pools_count;
       channel_pools := pools; default_for_type := types |} in
  if negb (NV_STATUS_eqb status NV_OK)
  then (status, manager 0 [] (repeat O UVM_CHANNEL_TYPE_COUNT))
  else if negb pools_allocated
  then (NV_ERR_NO_MEMORY, manager 0 [] (repeat O UVM_CHANNEL_TYPE_COUNT))
  else
    let ces := List.filter (fun ce => Z.testbit mask ce)
                      (indices_below UVM_COPY_ENGINE_COUNT_MAX) in
    let '(status, num_pools, pools) := create_ce_pools conf out ces 0 [] in
    if negb (NV_STATUS_eqb status NV_OK)
    then (status, manager num_pools pools (repeat O UVM_CHANNEL_TYPE_COUNT))
    else
      let types := map (channel_manager_ce_pool mask) preferred_ce in
      if uses_proxy then
        let ce := nth (channel_type_index UVM_CHANNEL_TYPE_MEMOPS) preferred_ce 0 in
        let '(status, pool, num_pools') :=
          channel_pool_create conf (out ce true) num_pools ce true in
        if negb (NV_STATUS_eqb status NV_OK)
        then (status, manager num_pools' pools types)
        else (NV_OK,
              manager num_pools' (pools ++ [pool])
                (<[channel_type_index UVM_CHANNEL_TYPE_MEMOPS := Z.to_nat num_pools]> types))
      else (NV_OK, manager num_pools pools types).

End PoolCreation.

(** ** Outcomes of the collaborators used in the statements *)

(** The outcomes under which the creation of a pool goes through: the
    channel array is allocated and each of the channels is created and
    initialised without error. *)
Definition pool_outcome_ok (proxy : bool) (out : pool_outcome) : Prop :=
  channels_allocated out = true /\
  forall i : nat, Z.of_nat i < channel_pool_num_channels proxy ->
    create_status (channel_outcomes out i) = NV_OK /\
    init_status (channel_outcomes out i) = NV_OK.

Definition all_ok_channel : channel_outcome :=
  {| create_status := NV_OK; rm_tracking_sem_gpu_va := 4096;
     rm_errorNotifier_status := 0; init_status := NV_OK |}.

Definition all_ok_pool : pool_outcome :=
  {| channels_allocated := true; channel_outcomes := fun _ => all_ok_channel |}.

Definition default_conf : channel_manager_conf :=
  {| conf_num_gpfifo_entries := 1024;
     conf_gpfifo_loc := UVM_BUFFER_LOCATION_VID;
     conf_gpput_loc := UVM_BUFFER_LOCATION_VID;
     conf_pushbuffer_loc := UVM_BUFFER_LOCATION_SYS |}.

(** The capability table of the selection scenario of the spec, in a table
    of [count_max] entries: CE 0 reaches system memory, CE 1 reaches
    system memory and peers, over NVLink, with the PCEs of [pce_mask1],
    CE 2 reaches peers with the PCEs of [pce_mask2]; the three are
    supported, every other entry is as [memset] left it. *)
Definition scenario_ce_caps (count_max : Z) (pce_mask1 pce_mask2 : Z)
    : list UvmGpuCopyEngineCaps :=
  [ {| supported := true; grce := false; shared := false;
       sysmemRead := false; sysmemWrite := false; sysmem := true;
       nvlinkP2p := false; p2p := false; cePceMask := 0 |};
    {| supported := true; grce := false; shared := false;
       sysmemRead := false; sysmemWrite := false; sysmem := true;
       nvlinkP2p := true; p2p := true; cePceMask := pce_mask1 |};
    {| supported := true; grce := false; shared := false;
       sysmemRead := false; sysmemWrite := false; sysmem := false;
       nvlinkP2p := false; p2p := true; cePceMask := pce_mask2 |} ]
  ++ repeat zero_caps (Z.to_nat (count_max - 3)).

(** [preferred_ce[type]]. *)
Definition preferred_ce_of (preferred_ce : list Z) (type : uvm_channel_type_t) : option Z :=
  preferred_ce !! channel_type_index type.

(** ** The ring invariants of the data model *)

(** The indices stay inside the ring, whose size is within the
    configuration's bound, and fewer than [N] slots are reserved. *)
Record ring_wf (ch : uvm_channel_t) : Prop := {
  wf_num_gpfifo_entries :
    0 < num_gpfifo_entries ch <= UVM_CHANNEL_NUM_GPFIFO_ENTRIES_MAX;
  wf_cpu_put : 0 <= cpu_put ch < num_gpfifo_entries ch;
  wf_gpu_get : 0 <= gpu_get ch < num_gpfifo_entries ch;
  wf_current_pushes_count :
    0 <= current_pushes_count ch < num_gpfifo_entries ch
}.

(** The number of entries between [gpu_get] and [cpu_put], and their
    indices in ring order. *)
Definition pending_count (ch : uvm_channel_t) : Z :=
  (cpu_put ch - gpu_get ch) mod num_gpfifo_entries ch.

Definition ring_slots (start : Z) (count : nat) (n : Z) : list Z :=
  map (fun i => (start + Z.of_nat i) mod n) (seq 0 count).

Definition pending_slots (ch : uvm_channel_t) : list Z :=
  ring_slots (gpu_get ch) (Z.to_nat (pending_count ch)) (num_gpfifo_entries ch).

(** The entry at [index] has been installed by [uvm_channel_end_push]: it
    points to a push info. *)
Definition slot_has_push_info (ch : uvm_channel_t) (index : Z) : Prop :=
  exists entry info,
    gpfifo_entries ch !! Z.to_nat index = Some entry /\ push_info entry = Some info.

Record channel_wf (ch : uvm_channel_t) : Prop := {
  wf_ring : ring_wf ch;
  wf_gpfifo_entries : Z.of_nat (length (gpfifo_entries ch)) = num_gpfifo_entries ch;
  wf_queued_value : is_u64 (queued_value (tracking_sem ch));
  wf_pending_slots : Forall (slot_has_push_info ch) (pending_slots ch)
}.

(** A channel as [channel_create] leaves it, for a ring of 1024 entries. *)
Definition fresh_channel_1024 : uvm_channel_t :=
  created_channel default_conf all_ok_channel.

(** A channel with one slot reserved, and a push begun on it. *)
Definition reserved_channel_1024 : uvm_channel_t :=
  set_available_push_infos (seq 1 1023)
    (set_current_pushes_count 1 fresh_channel_1024).

Definition begun_push : uvm_push_t :=
  {| channel_tracking_value := 0; push_info_index := 0; push_size := 64;
     push_pushbuffer_offset := 0; push_pushbuffer_gpu_va := 8192 |}.

(** ** Repeated progress updates *)

(** How a run that is bounded by fuel ends. *)
Inductive run_result (A : Type) : Type :=
| Finished (a : A)
| Faulted
| OutOfFuel.

Arguments Finished {A} a.
Arguments Faulted {A}.
Arguments OutOfFuel {A}.

(** [uvm_channel_update_progress_with_max(channel, k, COMPLETED)] called
    again and again until a call reclaims no entry.  The result is the
    pending count of the last call, the final channel and the pushbuffer
    calls of all the calls in order. *)
Fixpoint update_progress_until_quiescent (fuel : nat) (ch : uvm_channel_t) (k : Z)
    : run_result (Z * uvm_channel_t * list event) :=
  match fuel with
  | O => OutOfFuel
  | S fuel' =>
      match uvm_channel_update_progress_with_max ch k
              UVM_CHANNEL_UPDATE_MODE_COMPLETED with
      | None => Faulted
      | Some (pending, ch', evs) =>
          match evs with
          | [] => Finished (pending, ch', [])
          | _ :: _ =>
              match update_progress_until_quiescent fuel' ch' k with
              | Finished (pending', ch'', evs') => Finished (pending', ch'', evs ++ evs')
              | Faulted => Faulted
              | OutOfFuel => OutOfFuel
              end
          end
      end
  end.

(** What one call is expected to give, as a run. *)
Definition run_of {A : Type} (r : option A) : run_result A :=
  match r with
  | Some a => Finished a
  | None => Faulted
  end.

(** The first pending slot of the ring: the first one, from [gpu_get]
    towards [cpu_put], whose tracking value is above the completed
    value. *)
Definition slot_is_pending (ch : uvm_channel_t) (completed : Z) (index : Z) : bool :=
  match gpfifo_entries ch !! Z.to_nat index with
  | Some entry => completed <? tracking_semaphore_value entry
  | None => false
  end.

Definition first_pending_slot (ch : uvm_channel_t) (completed : Z) : option Z :=
  find (slot_is_pending ch completed) (pending_slots ch).

(** The progress loop stops at [g] without reclaiming: the ring is empty
    there, or the update is in COMPLETED mode and the entry is not
    completed yet. *)
Definition loop_stops (ch : uvm_channel_t) (mode : uvm_channel_update_mode_t)
    (completed : Z) (g : Z) : Prop :=
  g = cpu_put ch \/
  exists entry, gpfifo_entries ch !! Z.to_nat g = Some entry /\
                mode = UVM_CHANNEL_UPDATE_MODE_COMPLETED /\
                completed < tracking_semaphore_value entry.

(** The push info the entry at [index] points to, if any. *)
Definition slot_info (ch : uvm_channel_t) (index : Z) : option nat :=
  entry ← gpfifo_entries ch !! Z.to_nat index; push_info entry.

(** The number of entries from [g] up to [cpu_put]. *)
Definition ring_distance (ch : uvm_channel_t) (g : Z) : Z :=
  (cpu_put ch - g) mod num_gpfifo_entries ch.

(** A ring of four entries with three pushes submitted, of which the GPU
    has completed two, and its error notifier raised. *)
Definition busy_channel : uvm_channel_t :=
  {| num_gpfifo_entries := 4;
     cpu_put := 3;
     gpu_get := 0;
     current_pushes_count := 0;
     gpfifo_entries :=
       [ {| tracking_semaphore_value := 1; pushbuffer_offset := 0;
            pushbuffer_size := 64; push_info := Some 0%nat |};
         {| tracking_semaphore_value := 2; pushbuffer_offset := 64;
            pushbuffer_size := 64; push_info := Some 1%nat |};
         {| tracking_semaphore_value := 3; pushbuffer_offset := 128;
            pushbuffer_size := 64; push_info := Some 2%nat |};
         zero_gpfifo_entry ];
     available_push_infos := [3%nat];
     tracking_sem := {| queued_value := 3; completed_value := 0; sem_payload := 2 |};
     tracking_sem_gpu_va := 4096;
     errorNotifier_status := 1 |}.

Definition ecc_gpu : uvm_gpu_ecc := {| ecc_enabled := true; ecc_error_notifier := 1 |}.

(** ** The push protocol on one channel *)

(** The GPU and RM write the semaphore payload and the error notifier
    behind the host's back. *)
Definition gpu_writes (payload status : Z) (ch : uvm_channel_t) : uvm_channel_t :=
  {| num_gpfifo_entries := num_gpfifo_entries ch;
     cpu_put := cpu_put ch;
     gpu_get := gpu_get ch;
     current_pushes_count := current_pushes_count ch;
     gpfifo_entries := gpfifo_entries ch;
     available_push_infos := available_push_infos ch;
     tracking_sem :=
       {| queued_value := queued_value (tracking_sem ch);
          completed_value := completed_value (tracking_sem ch);
          sem_payload := payload |};
     tracking_sem_gpu_va := tracking_sem_gpu_va ch;
     errorNotifier_status := status |}.

(** A channel together with the pushes that have begun on it and have
    not ended yet. *)
Definition client_state : Type := uvm_channel_t * list uvm_push_t.

(** The executions of the channel's clients: a slot is claimed, a push
    begins on a slot that was claimed and not used yet (the pushbuffer
    granting a region or not), a push that has begun ends, progress is
    updated with any bound in any mode, the GPU writes its words. *)
Inductive push_step : client_state -> client_state -> Prop :=
| step_claim ch ch' begun :
    try_claim_channel ch = (true, ch') ->
    push_step (ch, begun) (ch', begun)
| step_begin ch ch' begun push push' :
    Z.of_nat (length begun) < current_pushes_count ch ->
    uvm_channel_begin_push NV_OK ch push = Some (NV_OK, ch', push') ->
    push_step (ch, begun) (ch', push' :: begun)
| step_begin_refused ch ch' begun push push' status :
    Z.of_nat (length begun) < current_pushes_count ch ->
    status <> NV_OK ->
    uvm_channel_begin_push status ch push = Some (status, ch', push') ->
    push_step (ch, begun) (ch', begun)
| step_end ch ch' begun1 push begun2 push' evs :
    uvm_channel_end_push ch push = Some (ch', push', evs) ->
    push_step (ch, begun1 ++ push :: begun2) (ch', begun1 ++ begun2)
| step_progress ch ch' begun max_to_complete mode pending evs :
    uvm_channel_update_progress_with_max ch max_to_complete mode =
      Some (pending, ch', evs) ->
    push_step (ch, begun) (ch', begun)
| step_gpu ch begun payload status :
    push_step (ch, begun) (gpu_writes payload status ch, begun).

(** The push infos held by the pushes that have begun. *)
Definition begun_infos (begun : list uvm_push_t) : list nat :=
  map (fun push => Z.to_nat (push_info_index push)) begun.

(** The invariant of the protocol: the ring is well formed, reserved and
    pending slots together leave one slot free, every push that has begun
    holds a reservation, and the free list, the pushes that have begun and
    the pending entries share out the push infos, each held once. *)
Record push_inv (st : client_state) : Prop := {
  inv_ring : ring_wf (fst st);
  inv_entries :
    Z.of_nat (length (gpfifo_entries (fst st))) = num_gpfifo_entries (fst st);
  inv_capacity :
    current_pushes_count (fst st) + pending_count (fst st)
    <= num_gpfifo_entries (fst st) - 1;
  inv_begun : Z.of_nat (length (snd st)) <= current_pushes_count (fst st);
  inv_infos :
    Permutation
      (map Some (available_push_infos (fst st)) ++
       map Some (begun_infos (snd st)) ++
       map (slot_info (fst st)) (pending_slots (fst st)))
      (map Some (seq 0 (Z.to_nat (num_gpfifo_entries (fst st)))))
}.

(** The module parameters left at their defaults, on a GPU with memory. *)
Definition default_params : module_params :=
  {| uvm_channel_num_gpfifo_entries := UVM_CHANNEL_NUM_GPFIFO_ENTRIES_DEFAULT;
     uvm_channel_gpfifo_loc := UVM_CHANNEL_GPFIFO_LOC_DEFAULT;
     uvm_channel_gpput_loc := UVM_CHANNEL_GPPUT_LOC_DEFAULT;
     uvm_channel_pushbuffer_loc := UVM_CHANNEL_PUSHBUFFER_LOC_DEFAULT |}.

Definition discrete_gpu : conf_gpu_info :=
  {| mem_info_size := 8589934592; gpfifo_in_vidmem_supported := true;
     sysmem_link_at_least_nvlink_2 := false; NVCPU_IS_AARCH64 := false |}.

(** The states a channel and its clients reach from the channel
    [channel_create] makes for a manager configured from [params]. *)
Definition reachable (params : module_params) (gpu : conf_gpu_info)
    (out : channel_outcome) (st : client_state) : Prop :=
  rtc push_step
      (created_channel (fst (init_channel_manager_conf params gpu)) out, []) st.

(** The state after one claim on a fresh channel of 1024 entries. *)
Definition claimed_state : client_state :=
  (set_current_pushes_count 1 fresh_channel_1024, []).

(** * Further definitions *)

(** ** Location strings *)

(** The three strings the location parameters are documented to take. *)
Definition valid_location_string (s : string) : Prop :=
  s = "sys"%string \/ s = "vid"%string \/ s = "auto"%string.

(** ** Reclaimed entries *)

(** The completed value a progress update works with: the one the
    refresh of the tracking semaphore returns. *)
Definition refreshed_completed_value (ch : uvm_channel_t) : Z :=
  snd (uvm_gpu_tracking_semaphore_update_completed_value (tracking_sem ch)).

(** ** Tracking values along the ring *)

(** The tracking value of the entry at [index], if the index is inside
    the entries array. *)
Definition slot_tracking_value (ch : uvm_channel_t) (index : Z) : option Z :=
  entry ← gpfifo_entries ch !! Z.to_nat index;
  Some (tracking_semaphore_value entry).

(** The pending entries carry the last tracking values handed out, in
    ring order and without a gap: the newest one carries the queued
    value. *)
Definition tracking_values_consecutive (ch : uvm_channel_t) : Prop :=
  map (slot_tracking_value ch) (pending_slots ch) =
  map (fun i => Some (u64 (queued_value (tracking_sem ch) - pending_count ch + 1
                           + Z.of_nat i)))
      (seq 0 (Z.to_nat (pending_count ch))).

(** The states after a push began on the claimed slot of a fresh channel
    of 1024 entries, and after it ended. *)
Definition begun_state : client_state := (reserved_channel_1024, [begun_push]).

Definition submitted_channel_1024 : uvm_channel_t :=
  match uvm_channel_end_push reserved_channel_1024 begun_push with
  | Some (ch, _, _) => ch
  | None => reserved_channel_1024
  end.

Definition submitted_state : client_state := (submitted_channel_1024, []).

(** ** The order of the copy engines *)

(** The keys [compare_ce_for_channel_type] goes by for a channel type,
    the most important first, each one the smaller the better: the
    capability the type cares about (negated, so that having it comes
    first), the NVLINK P2P flag where the type avoids it, then the default
    ordering by usage count, shared flag and index. *)
Definition ce_rank (ce_caps : list UvmGpuCopyEngineCaps)
    (type : uvm_channel_type_t) (preferred_ce : list Z) (ce : Z) : list Z :=
  let cap := caps_at ce_caps ce in
  let default_keys := [ce_usage_count ce preferred_ce; Z.b2z (shared cap); ce] in
  match type with
  | UVM_CHANNEL_TYPE_CPU_TO_GPU =>
      - Z.b2z (sysmemRead cap) :: Z.b2z (nvlinkP2p cap) :: default_keys
  | UVM_CHANNEL_TYPE_GPU_TO_CPU =>
      - Z.b2z (sysmemWrite cap) :: Z.b2z (nvlinkP2p cap) :: default_keys
  | UVM_CHANNEL_TYPE_GPU_TO_GPU =>
      - hweight32 (cePceMask cap) :: default_keys
  | UVM_CHANNEL_TYPE_GPU_INTERNAL =>
      - hweight32 (cePceMask cap) :: Z.b2z (nvlinkP2p cap) :: default_keys
  | UVM_CHANNEL_TYPE_MEMOPS => default_keys
  end.

(** The lexicographic order on lists of keys. *)
Fixpoint lex_lt (a b : list Z) : Prop :=
  match a, b with
  | x :: a', y :: b' => x < y \/ (x = y /\ lex_lt a' b')
  | _, _ => False
  end.

(** A copy engine below [count_max] that the channel type can use. *)
Definition usable_ce (count_max : Z) (ce_caps : list UvmGpuCopyEngineCaps)
    (type : uvm_channel_type_t) (ce : Z) : Prop :=
  0 <= ce < count_max /\
  ce_usable_for_channel_type type (caps_at ce_caps ce) = true.

(** ** Reserving a slot on a channel *)

(** What the GPU and RM have written into a channel when the host reads
    it: the semaphore payload and the error notifier.  The host reads
    them in [uvm_channel_update_progress] and in
    [uvm_channel_check_errors]; a schedule lists what it finds at each of
    these reads, in order. *)
Definition gpu_schedule : Type := list (Z * Z).

Definition gpu_write (w : Z * Z) (ch : uvm_channel_t) : uvm_channel_t :=
  gpu_writes (fst w) (snd w) ch.

(** The loop of [uvm_channel_reserve]:
    [while (!try_claim_channel(channel) && status == NV_OK)], the claim
    being tried before the status is looked at.  UVM_SPIN_LOOP, of a
    header that is not at hand, is a pause and touches nothing the loop
    reads.  The loop has no bound of its own: the schedule bounds its
    turns, and a run that outlasts the schedule is [OutOfFuel].  Returns
    the status, the channel, the process-wide fatal flag and the events. *)
Fixpoint uvm_channel_reserve_loop (schedule : gpu_schedule) (gpu : uvm_gpu_ecc)
    (ch : uvm_channel_t) (status fatal_error : NV_STATUS)
    : run_result (NV_STATUS * uvm_channel_t * NV_STATUS * list event) :=
  let '(claimed, ch) := try_claim_channel ch in
  if negb (negb claimed && NV_STATUS_eqb status NV_OK)
  then Finished (status, ch, fatal_error, [])
  else
    match schedule with
    | w1 :: w2 :: schedule' =>
        match uvm_channel_check_errors (gpu_write w1 ch) gpu fatal_error with
        | None => Faulted
        | Some (status, ch, fatal_error, evs1) =>
            match uvm_channel_update_progress (gpu_write w2 ch) with
            | None => Faulted
            | Some (_, ch, evs2) =>
                match uvm_channel_reserve_loop schedule' gpu ch status fatal_error with
                | Finished (status, ch, fatal_error, evs3) =>
                    Finished (status, ch, fatal_error, evs1 ++ evs2 ++ evs3)
                | Faulted => Faulted
                | OutOfFuel => OutOfFuel
                end
            end
        end
    | _ => OutOfFuel
    end.

Definition uvm_channel_reserve (schedule : gpu_schedule) (gpu : uvm_gpu_ecc)
    (ch : uvm_channel_t) (fatal_error : NV_STATUS)
    : run_result (NV_STATUS * uvm_channel_t * NV_STATUS * list event) :=
  let '(claimed, ch) := try_claim_channel ch in
  if claimed then Finished (NV_OK, ch, fatal_error, [])
  else
    match schedule with
    | [] => OutOfFuel
    | w :: schedule' =>
        match uvm_channel_update_progress (gpu_write w ch) with
        | None => Faulted
        | Some (_, ch, evs1) =>
            match uvm_channel_reserve_loop schedule' gpu ch NV_OK fatal_error with
            | Finished (status, ch, fatal_error, evs2) =>
                Finished (status, ch, fatal_error, evs1 ++ evs2)
            | Faulted => Faulted
            | OutOfFuel => OutOfFuel
            end
        end
    end.

(** ** Reserving a slot in a pool *)

(** The first loop of [channel_reserve_in_pool], over the channels of
    the pool in array order: the first channel that can be claimed wins.
    Returns the index of the channel, if any, and the channels. *)
Fixpoint pool_try_claim (channels : list uvm_channel_t)
    : option nat * list uvm_channel_t :=
  match channels with
  | [] => (None, [])
  | ch :: rest =>
      let '(claimed, ch) := try_claim_channel ch in
      if claimed then (Some O, ch :: rest)
      else let '(found, rest) := pool_try_claim rest in
           (option_map S found, ch :: rest)
  end.

(** The second loop, [while (1)] around a pass over the channels: the
    turn for the channel at [index], then the turns that follow it.  An
    index past the last channel starts the next pass.  The schedule gives
    what the host finds in the channel at its two reads, and bounds the
    turns.  Returns the status, the index of the channel claimed, the
    channels, the fatal flag and the events. *)
Fixpoint channel_reserve_in_pool_loop (schedule : gpu_schedule) (gpu : uvm_gpu_ecc)
    (channels : list uvm_channel_t) (index : nat) (fatal_error : NV_STATUS)
    : run_result (NV_STATUS * option nat * list uvm_channel_t * NV_STATUS
                  * list event) :=
  match schedule with
  | w1 :: w2 :: schedule' =>
      let index := if (index <? length channels)%nat then index else O in
      match channels !! index with
      | None => OutOfFuel
      | Some ch =>
          match uvm_channel_update_progress (gpu_write w1 ch) with
          | None => Faulted
          | Some (_, ch, evs1) =>
              let '(claimed, ch) := try_claim_channel ch in
              if claimed
              then Finished (NV_OK, Some index, <[index := ch]> channels,
                             fatal_error, evs1)
              else
                match uvm_channel_check_errors (gpu_write w2 ch) gpu fatal_error with
                | None => Faulted
                | Some (status, ch, fatal_error, evs2) =>
                    if negb (NV_STATUS_eqb status NV_OK)
                    then Finished (status, None, <[index := ch]> channels,
                                   fatal_error, evs1 ++ evs2)
                    else
                      match channel_reserve_in_pool_loop schedule' gpu
                              (<[index := ch]> channels) (S index) fatal_error with
                      | Finished (status, found, channels, fatal_error, evs3) =>
                          Finished (status, found, channels, fatal_error,
                                    evs1 ++ evs2 ++ evs3)
                      | Faulted => Faulted
                      | OutOfFuel => OutOfFuel
                      end
                end
          end
      end
  | _ => OutOfFuel
  end.

(** [channels] are the channels of the pool, [pool->channels] up to
    [pool->num_channels]; the index returned stands for [*channel_out]. *)
Definition channel_reserve_in_pool (schedule : gpu_schedule) (gpu : uvm_gpu_ecc)
    (channels : list uvm_channel_t) (fatal_error : NV_STATUS)
    : run_result (NV_STATUS * option nat * list uvm_channel_t * NV_STATUS
                  * list event) :=
  let '(found, channels) := pool_try_claim channels in
  match found with
  | Some index => Finished (NV_OK, Some index, channels, fatal_error, [])
  | None => channel_reserve_in_pool_loop schedule gpu channels O fatal_error
  end.

(** A channel that its clients can have brought to its state. *)
Definition channel_reachable (params : module_params) (gpu_info : conf_gpu_info)
    (ch : uvm_channel_t) : Prop :=
  exists out begun, reachable params gpu_info out (ch, begun).

(** The channel went from [ch] to [ch'] by steps of the push protocol
    that took [claims] reservations and left [cpu_put] alone. *)
Definition channel_advances (claims : Z) (ch ch' : uvm_channel_t) : Prop :=
  cpu_put ch' = cpu_put ch /\
  current_pushes_count ch' = current_pushes_count ch + claims /\
  forall begun, rtc push_step (ch, begun) (ch', begun).

(** The reservations the call took on the channel at index [j]: one on
    the channel it returns, none on the others. *)
Definition claims_of (found : option nat) (j : nat) : Z :=
  match found with
  | Some index => if Nat.eqb index j then 1 else 0
  | None => 0
  end.

(** ** The channels of a manager *)

Definition set_channels (l : list uvm_channel_t) (pool : uvm_channel_pool_t)
    : uvm_channel_pool_t :=
  {| ce_index := ce_index pool; is_proxy := is_proxy pool;
     num_channels := num_channels pool; channels := l |}.

Definition set_channel_pools (l : list uvm_channel_pool_t)
    (manager : uvm_channel_manager_t) : uvm_channel_manager_t :=
  {| ce_mask := ce_mask manager; num_channel_pools := num_channel_pools manager;
     channel_pools := l; default_for_type := default_for_type manager |}.

(** The channels of the manager in the order the loops visit them: pool
    after pool, and the channels of a pool in array order. *)
Definition manager_channels (manager : uvm_channel_manager_t) : list uvm_channel_t :=
  concat (map channels (channel_pools manager)).

(** Modelled from the spec: uvm_for_each_pool and
    uvm_for_each_channel_in_pool are macros of uvm_channel.h, which is not
    at hand.  The spec: the manager owns its pools and a pool owns a
    contiguous array of channels.  The loops below run through the pools
    of the manager and through the channels of a pool in array order. *)

(** [uvm_for_each_channel_in_pool(channel, pool)
       pending_gpfifos += uvm_channel_update_progress(channel);] *)
Fixpoint channels_update_progress (l : list uvm_channel_t) (pending_gpfifos : Z)
    : option (Z * list uvm_channel_t * list event) :=
  match l with
  | [] => Some (pending_gpfifos, [], [])
  | ch :: rest =>
      '(pending, ch, evs1) ← uvm_channel_update_progress ch;
      '(total, rest, evs2) ←
         channels_update_progress rest (u32 (pending_gpfifos + pending));
      Some (total, ch :: rest, evs1 ++ evs2)
  end.

Fixpoint pools_update_progress (l : list uvm_channel_pool_t) (pending_gpfifos : Z)
    : option (Z * list uvm_channel_pool_t * list event) :=
  match l with
  | [] => Some (pending_gpfifos, [], [])
  | pool :: rest =>
      '(pending_gpfifos, chs, evs1) ←
         channels_update_progress (channels pool) pending_gpfifos;
      '(total, rest, evs2) ← pools_update_progress rest pending_gpfifos;
      Some (total, set_channels chs pool :: rest, evs1 ++ evs2)
  end.

Definition uvm_channel_manager_update_progress (manager : uvm_channel_manager_t)
    : option (Z * uvm_channel_manager_t * list event) :=
  '(pending_gpfifos, pools, evs) ← pools_update_progress (channel_pools manager) 0;
  Some (pending_gpfifos, set_channel_pools pools manager, evs).

(** The inner loop of [uvm_channel_manager_check_errors], left at the
    first channel in error. *)
Fixpoint channels_check_errors (l : list uvm_channel_t) (gpu : uvm_gpu_ecc)
    (fatal_error : NV_STATUS)
    : option (NV_STATUS * list uvm_channel_t * NV_STATUS * list event) :=
  match l with
  | [] => Some (NV_OK, [], fatal_error, [])
  | ch :: rest =>
      '(status, ch, fatal_error, evs1) ← uvm_channel_check_errors ch gpu fatal_error;
      if negb (NV_STATUS_eqb status NV_OK)
      then Some (status, ch :: rest, fatal_error, evs1)
      else
        '(status, rest, fatal_error, evs2) ←
           channels_check_errors rest gpu fatal_error;
        Some (status, ch :: rest, fatal_error, evs1 ++ evs2)
  end.

Fixpoint pools_check_errors (l : list uvm_channel_pool_t) (gpu : uvm_gpu_ecc)
    (fatal_error : NV_STATUS)
    : option (NV_STATUS * list uvm_channel_pool_t * NV_STATUS * list event) :=
  match l with
  | [] => Some (NV_OK, [], fatal_error, [])
  | pool :: rest =>
      '(status, chs, fatal_error, evs1) ←
         channels_check_errors (channels pool) gpu fatal_error;
      if negb (NV_STATUS_eqb status NV_OK)
      then Some (status, set_channels chs pool :: rest, fatal_error, evs1)
      else
        '(status, rest, fatal_error, evs2) ← pools_check_errors rest gpu fatal_error;
        Some (status, set_channels chs pool :: rest, fatal_error, evs1 ++ evs2)
  end.

(** Modelled from the spec: uvm_global_get_status belongs to
    uvm_global.c, which is not at hand.  The spec: the global fatal-error
    flag is process-wide and check_errors looks at the global error
    first.  It reads the flag, [NV_OK] while the flag is not raised. *)
Definition uvm_global_get_status (fatal_error : NV_STATUS) : NV_STATUS := fatal_error.

Definition uvm_channel_manager_check_errors (manager : uvm_channel_manager_t)
    (gpu : uvm_gpu_ecc) (fatal_error : NV_STATUS)
    : option (NV_STATUS * uvm_channel_manager_t * NV_STATUS * list event) :=
  let status := uvm_global_get_status fatal_error in
  if negb (NV_STATUS_eqb status NV_OK) then Some (status, manager, fatal_error, [])
  else
    '(status, pools, fatal_error, evs) ←
       pools_check_errors (channel_pools manager) gpu fatal_error;
    Some (status, set_channel_pools pools manager, fatal_error, evs).

(** A manager with one pool of two channels: the first has had a push
    submitted, the second has a slot claimed. *)
Definition small_manager : uvm_channel_manager_t :=
  {| ce_mask := 1; num_channel_pools := 1;
     channel_pools :=
       [ {| ce_index := 0; is_proxy := false; num_channels := 2;
            channels := [fst submitted_state; fst claimed_state] |} ];
     default_for_type := repeat O UVM_CHANNEL_TYPE_COUNT |}.

(** The pending entries of a list of channels, all together. *)
Definition total_pending (l : list uvm_channel_t) : Z :=
  fold_right Z.add 0 (map pending_count l).

(** What [uvm_channel_update_progress] makes of a channel. *)
Definition progress_updated (ch ch' : uvm_channel_t) : Prop :=
  exists pending evs,
    uvm_channel_update_progress ch = Some (pending, ch', evs) /\
    pending = pending_count ch'.

(** ** Waiting for the channels of a manager *)

(** What the GPU and RM can have done to the manager between two reads
    of the host: written the semaphore payload and the error notifier of
    its channels. *)
Definition gpu_wrote (manager manager' : uvm_channel_manager_t) : Prop :=
  manager' = set_channel_pools (channel_pools manager') manager /\
  Forall2 (fun pool pool' =>
             pool' = set_channels (channels pool') pool /\
             Forall2 (fun ch ch' => exists w, ch' = gpu_write w ch)
                     (channels pool) (channels pool'))
          (channel_pools manager) (channel_pools manager').

(** The loop of [uvm_channel_manager_wait]:
    [while (uvm_channel_manager_update_progress(manager) > 0 && status == NV_OK)].
    A turn of the schedule stands for what happened to the manager before
    each of the two reads of the host; the schedule bounds the turns of
    the loop. *)
Fixpoint uvm_channel_manager_wait_loop
    (schedule : list (uvm_channel_manager_t -> uvm_channel_manager_t))
    (gpu : uvm_gpu_ecc) (manager : uvm_channel_manager_t)
    (status fatal_error : NV_STATUS)
    : run_result (NV_STATUS * uvm_channel_manager_t * NV_STATUS * list event) :=
  match schedule with
  | turn1 :: turn2 :: schedule' =>
      match uvm_channel_manager_update_progress (turn1 manager) with
      | None => Faulted
      | Some (pending_gpfifos, manager, evs1) =>
          if negb ((0 <? pending_gpfifos) && NV_STATUS_eqb status NV_OK)
          then Finished (status, manager, fatal_error, evs1)
          else
            match uvm_channel_manager_check_errors (turn2 manager) gpu fatal_error with
            | None => Faulted
            | Some (status, manager, fatal_error, evs2) =>
                match uvm_channel_manager_wait_loop schedule' gpu manager status
                        fatal_error with
                | Finished (status, manager, fatal_error, evs3) =>
                    Finished (status, manager, fatal_error, evs1 ++ evs2 ++ evs3)
                | Faulted => Faulted
                | OutOfFuel => OutOfFuel
                end
            end
      end
  | _ => OutOfFuel
  end.

Definition uvm_channel_manager_wait
    (schedule : list (uvm_channel_manager_t -> uvm_channel_manager_t))
    (gpu : uvm_gpu_ecc) (manager : uvm_channel_manager_t) (fatal_error : NV_STATUS)
    : run_result (NV_STATUS * uvm_channel_manager_t * NV_STATUS * list event) :=
  match schedule with
  | turn1 :: turn2 :: schedule' =>
      match uvm_channel_manager_update_progress (turn1 manager) with
      | None => Faulted
      | Some (pending_gpfifos, manager, evs1) =>
          if pending_gpfifos =? 0
          then
            match uvm_channel_manager_check_errors (turn2 manager) gpu fatal_error with
            | None => Faulted
            | Some (status, manager, fatal_error, evs2) =>
                Finished (status, manager, fatal_error, evs1 ++ evs2)
            end
          else
            match uvm_channel_manager_wait_loop (turn2 :: schedule') gpu manager
                    NV_OK fatal_error with
            | Finished (status, manager, fatal_error, evs2) =>
                Finished (status, manager, fatal_error, evs1 ++ evs2)
            | Faulted => Faulted
            | OutOfFuel => OutOfFuel
            end
      end
  | _ => OutOfFuel
  end.

(** The state of a manager that [uvm_channel_manager_wait] relies on and
    keeps: well-formed channels, fewer than 4096 of them. *)
Definition manager_wf (manager : uvm_channel_manager_t) : Prop :=
  Forall channel_wf (manager_channels manager) /\
  (length (manager_channels manager) < 4096)%nat.

(** The GPU completes the push that is pending on the first channel of
    [small_manager]. *)
Definition gpu_completes_push (manager : uvm_channel_manager_t)
    : uvm_channel_manager_t :=
  set_channel_pools
    (map (fun pool => set_channels (map (gpu_write (1, 0)) (channels pool)) pool)
         (channel_pools manager))
    manager.

(** ** Reserving by channel type and by peer *)

(** [channel_reserve_in_pool] on the pool a pointer of [pool_to_use]
    leads to.  The pointers into [channel_pools] are kept as indices; an
    index outside the pools is a pointer the code would follow all the
    same, a fault.  The channel returned is named by the index of its
    pool and its index in the pool. *)
Definition reserve_in_pool_at
    (schedule : gpu_schedule) (gpu : uvm_gpu_ecc) (manager : uvm_channel_manager_t)
    (pool_index : nat) (fatal_error : NV_STATUS)
    : run_result (NV_STATUS * option (nat * nat) * uvm_channel_manager_t
                  * NV_STATUS * list event) :=
  match channel_pools manager !! pool_index with
  | None => Faulted
  | Some pool =>
      match channel_reserve_in_pool schedule gpu (channels pool) fatal_error with
      | Finished (status, found, chs, fatal_error, evs) =>
          Finished (status, option_map (pair pool_index) found,
                    set_channel_pools
                      (<[pool_index := set_channels chs pool]> (channel_pools manager))
                      manager,
                    fatal_error, evs)
      | Faulted => Faulted
      | OutOfFuel => OutOfFuel
      end
  end.

Definition uvm_channel_reserve_type
    (schedule : gpu_schedule) (gpu : uvm_gpu_ecc) (manager : uvm_channel_manager_t)
    (type : uvm_channel_type_t) (fatal_error : NV_STATUS)
    : run_result (NV_STATUS * option (nat * nat) * uvm_channel_manager_t
                  * NV_STATUS * list event) :=
  match default_for_type manager !! channel_type_index type with
  | None => Faulted
  | Some pool_index => reserve_in_pool_at schedule gpu manager pool_index fatal_error
  end.

(** [manager->pool_to_use.gpu_to_gpu], indexed by the peer GPU: the pool
    recommended for the peer, [None] for the null pointer. *)
Definition uvm_channel_manager_set_p2p_ce (manager : uvm_channel_manager_t)
    (gpu_to_gpu : list (option nat)) (peer_gpu_index : nat) (optimal_ce : Z)
    : list (option nat) :=
  <[peer_gpu_index := Some (channel_manager_ce_pool (ce_mask manager) optimal_ce)]>
    gpu_to_gpu.

Definition uvm_channel_reserve_gpu_to_gpu
    (schedule : gpu_schedule) (gpu : uvm_gpu_ecc) (manager : uvm_channel_manager_t)
    (gpu_to_gpu : list (option nat)) (dst_gpu_index : nat) (fatal_error : NV_STATUS)
    : run_result (NV_STATUS * option (nat * nat) * uvm_channel_manager_t
                  * NV_STATUS * list event) :=
  match gpu_to_gpu !! dst_gpu_index with
  | None => Faulted
  | Some (Some pool_index) =>
      reserve_in_pool_at schedule gpu manager pool_index fatal_error
  | Some None =>
      uvm_channel_reserve_type schedule gpu manager UVM_CHANNEL_TYPE_GPU_TO_GPU
        fatal_error
  end.


(** * Properties *)

(** ** Machine integers *)

Lemma u32_id x : is_u32 x -> u32 x = x.
Proof. intros H. apply Z.mod_small. exact H. Qed.

Lemma u64_id x : is_u64 x -> u64 x = x.
Proof. intros H. apply Z.mod_small. exact H. Qed.

Lemma u32_range x : is_u32 (u32 x).
Proof. apply Z.mod_pos_bound. reflexivity. Qed.

Lemma u64_range x : is_u64 (u64 x).
Proof. apply Z.mod_pos_bound. reflexivity. Qed.

(** The cast [(NvU32)v] of a 64-bit value keeps the low 32 bits of the
    integer it was computed from. *)
Lemma u32_of_u64 x : u32 (u64 x) = u32 x.
Proof.
  unfold u32, u64, NvU32_modulus, NvU64_modulus.
  apply Z.mod_mod_divide. exists (2 ^ 32). reflexivity.
Qed.

Lemma NV_STATUS_eqb_eq a b : NV_STATUS_eqb a b = true <-> a = b.
Proof. destruct a, b; simpl; split; congruence. Qed.

Lemma NV_STATUS_eqb_refl a : NV_STATUS_eqb a a = true.
Proof. destruct a; reflexivity. Qed.

(** ** Copy-engine usability *)

(** C5.  A CE is usable for a channel type exactly when its record has
    [supported] set and [grce] clear and, on top of that, [sysmem] set for
    CPU_TO_GPU and GPU_TO_CPU, [p2p] set for GPU_TO_GPU, and nothing more
    for GPU_INTERNAL and MEMOPS. *)
Theorem ce_usable_for_channel_type_iff (type : uvm_channel_type_t)
    (cap : UvmGpuCopyEngineCaps) :
  ce_usable_for_channel_type type cap = true <->
  supported cap = true /\ grce cap = false /\
  (type = UVM_CHANNEL_TYPE_CPU_TO_GPU \/ type = UVM_CHANNEL_TYPE_GPU_TO_CPU ->
   sysmem cap = true) /\
  (type = UVM_CHANNEL_TYPE_GPU_TO_GPU -> p2p cap = true).
Proof.
  unfold ce_usable_for_channel_type.
  destruct type, (supported cap), (grce cap), (sysmem cap), (p2p cap); cbn;
    intuition congruence.
Qed.

(** ** Configuration: the number of GPFIFO entries *)

Lemma is_power_of_2_pow2 k : 0 <= k -> is_power_of_2 (2 ^ k) = true.
Proof.
  intros Hk. unfold is_power_of_2.
  assert (0 < 2 ^ k) by (apply Z.pow_pos_nonneg; lia).
  apply andb_true_intro. split.
  - apply negb_true_iff, Z.eqb_neq. lia.
  - apply Z.eqb_eq.
    replace (2 ^ k - 1) with (Z.ones k) by (rewrite Z.ones_equiv; lia).
    rewrite Z.land_ones by exact Hk. apply Z.mod_same. lia.
Qed.

Lemma is_power_of_2_inv n :
  is_power_of_2 n = true -> exists k, 0 <= k /\ n = 2 ^ k.
Proof.
  unfold is_power_of_2. intros H. apply andb_prop in H. destruct H as [Hn Hl].
  apply negb_true_iff, Z.eqb_neq in Hn. apply Z.eqb_eq in Hl.
  destruct (Z.lt_ge_cases n 0) as [Hneg | Hnn].
  - exfalso. assert (Z.land n (n - 1) < 0) by (apply Z.land_neg; lia). lia.
  - assert (Hpos : 0 < n) by lia.
    exists (Z.log2 n). split; [apply Z.log2_nonneg |].
    destruct (Z.log2_spec n Hpos) as [Hlo Hhi].
    destruct (Z.eq_dec n (2 ^ Z.log2 n)) as [-> | Hne].
    + rewrite Z.log2_pow2 by apply Z.log2_nonneg. reflexivity.
    + exfalso.
      assert (0 < 2 ^ Z.log2 n) by (apply Z.pow_pos_nonneg; [lia | apply Z.log2_nonneg]).
      assert (Hlog : Z.log2 (n - 1) = Z.log2 n).
      { apply Z.log2_unique; [apply Z.log2_nonneg | lia]. }
      assert (Hb : Z.testbit (Z.land n (n - 1)) (Z.log2 n) = true).
      { rewrite Z.land_spec, Z.bit_log2 by exact Hpos.
        rewrite <- Hlog, Z.bit_log2 by lia. reflexivity. }
      rewrite Hl, Z.bits_0 in Hb. discriminate.
Qed.

Lemma is_power_of_2_spec n :
  is_power_of_2 n = true <-> exists k, 0 <= k /\ n = 2 ^ k.
Proof.
  split; [apply is_power_of_2_inv |].
  intros (k & Hk & ->). apply is_power_of_2_pow2, Hk.
Qed.

Lemma init_conf_num_gpfifo_entries_clamp params :
  fst (init_conf_num_gpfifo_entries params) =
  let c := clamp_num_gpfifo_entries (uvm_channel_num_gpfifo_entries params) in
  if is_power_of_2 c then c else 1024.
Proof.
  unfold init_conf_num_gpfifo_entries, clamp_num_gpfifo_entries,
    UVM_CHANNEL_NUM_GPFIFO_ENTRIES_MIN, UVM_CHANNEL_NUM_GPFIFO_ENTRIES_MAX,
    UVM_CHANNEL_NUM_GPFIFO_ENTRIES_DEFAULT.
  cbn [fst]. cbv zeta.
  set (v := uvm_channel_num_gpfifo_entries params).
  replace (1024 * 1024) with (2 ^ 20) by reflexivity.
  assert (Hc : (if v <? 32 then 32 else if 2 ^ 20 <? v then 2 ^ 20 else v)
               = Z.max 32 (Z.min v (2 ^ 20))).
  { destruct (Z.ltb_spec v 32); [lia |]. destruct (Z.ltb_spec (2 ^ 20) v); lia. }
  rewrite Hc. destruct (is_power_of_2 _); reflexivity.
Qed.

Lemma init_channel_manager_conf_num params gpu :
  conf_num_gpfifo_entries (fst (init_channel_manager_conf params gpu)) =
  fst (init_conf_num_gpfifo_entries params).
Proof.
  unfold init_channel_manager_conf.
  destruct (init_conf_num_gpfifo_entries params) as [num log1]. cbn [fst].
  destruct (mem_info_size gpu =? 0); [reflexivity |].
  destruct (checked_location _ _ _ _) as [pv l2].
  destruct (if strcmp_eq0 pv "vid" then _ else _) as [pl l3].
  destruct (negb (gpfifo_in_vidmem_supported gpu)); [reflexivity |].
  destruct (checked_location _ _ _ _) as [gv l4].
  destruct (checked_location _ _ _ _) as [tv l5].
  destruct (if negb (UVM_BUFFER_LOCATION_eqb (string_to_buffer_location tv) _)
            then _ else _) as [tl l6].
  reflexivity.
Qed.

(** C7.  The effective [num_gpfifo_entries] is the configured value
    clamped into [[32, 2^20]], replaced by the default 1024 unless the
    clamped value is a power of two; 20 gives 32 and 1500 gives 1024. *)
Theorem init_channel_manager_conf_num_gpfifo_entries
    (params : module_params) (gpu : conf_gpu_info) :
  let v := uvm_channel_num_gpfifo_entries params in
  let c := clamp_num_gpfifo_entries v in
  let effective := conf_num_gpfifo_entries (fst (init_channel_manager_conf params gpu)) in
  32 <= c <= 2 ^ 20 /\
  ((exists k, 0 <= k /\ c = 2 ^ k) -> effective = c) /\
  (~ (exists k, 0 <= k /\ c = 2 ^ k) -> effective = 1024) /\
  (v = 20 -> effective = 32) /\
  (v = 1500 -> effective = 1024).
Proof.
  intros v c effective.
  assert (He : effective = if is_power_of_2 c then c else 1024).
  { unfold effective. rewrite init_channel_manager_conf_num.
    apply init_conf_num_gpfifo_entries_clamp. }
  split; [unfold c, clamp_num_gpfifo_entries; lia |].
  split; [| split; [| split]].
  - intros Hp. apply is_power_of_2_spec in Hp. rewrite He, Hp. reflexivity.
  - intros Hn. rewrite He. destruct (is_power_of_2 c) eqn:E; [| reflexivity].
    exfalso. apply Hn, is_power_of_2_spec, E.
  - intros Hv. rewrite He. unfold c. rewrite Hv. reflexivity.
  - intros Hv. rewrite He. unfold c. rewrite Hv. reflexivity.
Qed.

(** ** Configuration: the location parameters *)

Lemma is_string_valid_location_gpfifo params loc :
  is_string_valid_location params loc =
  is_string_valid_location params (uvm_channel_gpfifo_loc params).
Proof. reflexivity. Qed.

(** C8.  The validity check of a location string never looks at the
    string it is given: it tests the global [uvm_channel_gpfifo_loc].  So
    with a valid [gpfifo_loc], an invalid [pushbuffer_loc] or [gpput_loc]
    is neither detected nor logged, and with an invalid [gpfifo_loc] the
    valid values "vid" of [pushbuffer_loc] and "sys" of [gpput_loc] are
    logged as invalid and replaced by "auto". *)
Theorem is_string_valid_location_ignores_its_argument :
  let gpu := {| mem_info_size := 1; gpfifo_in_vidmem_supported := true;
                sysmem_link_at_least_nvlink_2 := false;
                NVCPU_IS_AARCH64 := false |} in
  (forall params loc loc',
     is_string_valid_location params loc = is_string_valid_location params loc') /\
  init_channel_manager_conf
    {| uvm_channel_num_gpfifo_entries := 1024;
       uvm_channel_gpfifo_loc := "auto";
       uvm_channel_gpput_loc := "bogus";
       uvm_channel_pushbuffer_loc := "bogus" |} gpu =
  ({| conf_num_gpfifo_entries := 1024;
      conf_gpfifo_loc := UVM_BUFFER_LOCATION_VID;
      conf_gpput_loc := UVM_BUFFER_LOCATION_VID;
      conf_pushbuffer_loc := UVM_BUFFER_LOCATION_SYS |}, []) /\
  init_channel_manager_conf
    {| uvm_channel_num_gpfifo_entries := 1024;
       uvm_channel_gpfifo_loc := "bogus";
       uvm_channel_gpput_loc := "sys";
       uvm_channel_pushbuffer_loc := "vid" |} gpu =
  ({| conf_num_gpfifo_entries := 1024;
      conf_gpfifo_loc := UVM_BUFFER_LOCATION_VID;
      conf_gpput_loc := UVM_BUFFER_LOCATION_VID;
      conf_pushbuffer_loc := UVM_BUFFER_LOCATION_SYS |},
   [info_invalid_pushbuffer_loc "vid" "auto";
    info_invalid_gpfifo_loc "bogus" "auto";
    info_invalid_gpput_loc "sys" "auto"]).
Proof.
  intros gpu. split; [reflexivity |]. split; vm_compute; reflexivity.
Qed.

(** ** Channel pools *)

Lemma channel_create_ok conf out pool :
  create_status out = NV_OK ->
  channel_create conf out pool =
  (NV_OK, {| ce_index := ce_index pool; is_proxy := is_proxy pool;
             num_channels := u32 (num_channels pool + 1);
             channels := channels pool ++ [created_channel conf out] |}).
Proof. intros H. unfold channel_create. rewrite H. reflexivity. Qed.

Lemma channel_create_error conf out pool :
  create_status out <> NV_OK -> is_u32 (num_channels pool) ->
  channel_create conf out pool = (create_status out, pool).
Proof.
  intros H Hn. unfold channel_create.
  destruct (NV_STATUS_eqb (create_status out) NV_OK) eqn:E.
  - apply NV_STATUS_eqb_eq in E. contradiction.
  - unfold channel_destroy. cbn [num_channels channels ce_index is_proxy].
    rewrite removelast_last. f_equal. destruct pool as [ce px n cs]. cbn in *.
    f_equal. unfold is_u32, NvU32_modulus in Hn.
    destruct (Z.eq_dec n (2 ^ 32 - 1)) as [-> | Hne]; [reflexivity |].
    rewrite (u32_id (n + 1)) by (unfold is_u32, NvU32_modulus; lia).
    replace (n + 1 - 1) with n by lia. apply u32_id. exact Hn.
Qed.

Lemma channel_pool_create_ok conf out n ce proxy :
  pool_outcome_ok proxy out ->
  channel_pool_create conf out n ce proxy =
  (NV_OK,
   {| ce_index := ce; is_proxy := proxy;
      num_channels := channel_pool_num_channels proxy;
      channels := map (fun i => created_channel conf (channel_outcomes out i))
                      (seq 0 (Z.to_nat (channel_pool_num_channels proxy))) |},
   u32 (n + 1)).
Proof.
  intros [Ha Hc]. unfold channel_pool_create. rewrite Ha. cbn [negb].
  destruct proxy; cbn [channel_pool_num_channels] in *.
  - destruct (Hc 0%nat ltac:(lia)) as [H0 H0'].
    change (Z.to_nat 1) with 1%nat. cbn [channel_pool_create_loop].
    rewrite channel_create_ok by assumption. cbn [NV_STATUS_eqb negb].
    rewrite H0'. reflexivity.
  - destruct (Hc 0%nat ltac:(lia)) as [H0 H0'].
    destruct (Hc 1%nat ltac:(lia)) as [H1 H1'].
    change (Z.to_nat 2) with 2%nat. cbn [channel_pool_create_loop].
    rewrite channel_create_ok by assumption. cbn [NV_STATUS_eqb negb].
    rewrite H0'. cbn [NV_STATUS_eqb negb].
    rewrite channel_create_ok by assumption. cbn [NV_STATUS_eqb negb].
    rewrite H1'. reflexivity.
Qed.

Lemma channel_pool_create_loop_channels conf out todo : forall i pool status pool',
  Z.of_nat (length (channels pool)) = num_channels pool ->
  num_channels pool + Z.of_nat todo < NvU32_modulus ->
  channel_pool_create_loop conf out i todo pool = (status, pool') ->
  Z.of_nat (length (channels pool')) = num_channels pool' /\
  is_proxy pool' = is_proxy pool /\ ce_index pool' = ce_index pool /\
  (status = NV_OK -> num_channels pool' = num_channels pool + Z.of_nat todo).
Proof.
  induction todo as [| todo IH]; intros i pool status pool' Hlen Hb Hrun.
  - cbn in Hrun. inversion Hrun; subst. repeat split; auto. intros _. lia.
  - cbn [channel_pool_create_loop] in Hrun.
    assert (Hu : is_u32 (num_channels pool))
      by (unfold is_u32; split; [rewrite <- Hlen |]; lia).
    destruct (NV_STATUS_eqb (create_status (out i)) NV_OK) eqn:E.
    + apply NV_STATUS_eqb_eq in E. rewrite channel_create_ok in Hrun by exact E.
      cbn [NV_STATUS_eqb negb] in Hrun.
      assert (Hn1 : u32 (num_channels pool + 1) = num_channels pool + 1)
        by (apply u32_id; unfold is_u32 in *; lia).
      destruct (negb (NV_STATUS_eqb (init_status (out i)) NV_OK)) eqn:E'.
      * inversion Hrun; subst. cbn. rewrite Hn1, length_app. cbn.
        repeat split; try lia.
        intros Hs. rewrite Hs in E'. discriminate.
      * apply IH in Hrun; cbn [num_channels channels is_proxy ce_index] in *.
        -- destruct Hrun as (? & ? & ? & Hk). repeat split; auto.
           intros Hs. rewrite (Hk Hs), Hn1. lia.
        -- rewrite Hn1, length_app. cbn. lia.
        -- rewrite Hn1. lia.
    + assert (Hne : create_status (out i) <> NV_OK).
      { intros Hs. rewrite Hs in E. discriminate. }
      rewrite channel_create_error in Hrun by assumption.
      rewrite E in Hrun. cbn [negb] in Hrun. inversion Hrun; subst.
      repeat split; auto. intros Hs. contradiction.
Qed.

(** C10.  A pool that is not the proxy pool is created with exactly two
    channels, the proxy pool with exactly one: whenever
    [channel_pool_create] succeeds the pool holds that many channels, and
    it succeeds whenever the allocations and the channel set-up do. *)
Theorem channel_pool_create_num_channels
    (conf : channel_manager_conf) (out : pool_outcome) (n ce : Z) (proxy : bool) :
  let '(status, pool, n') := channel_pool_create conf out n ce proxy in
  channel_pool_num_channels proxy = (if proxy then 1 else 2) /\
  (status = NV_OK ->
     num_channels pool = (if proxy then 1 else 2) /\
     length (channels pool) = (if proxy then 1 else 2)%nat /\
     is_proxy pool = proxy /\ ce_index pool = ce) /\
  (pool_outcome_ok proxy out -> status = NV_OK).
Proof.
  destruct (channel_pool_create conf out n ce proxy) as [[status pool] n'] eqn:Hrun.
  split; [reflexivity |]. split.
  - intros ->. unfold channel_pool_create in Hrun.
    destruct (negb (channels_allocated out)); [discriminate |].
    destruct (channel_pool_create_loop _ _ _ _ _) as [st pl] eqn:Hloop.
    destruct (NV_STATUS_eqb st NV_OK) eqn:E.
    + inversion Hrun; subst. apply NV_STATUS_eqb_eq in E.
      apply channel_pool_create_loop_channels in Hloop;
        cbn [num_channels channels is_proxy ce_index length] in *.
      * destruct Hloop as (Hl & Hp & Hc & Hk). specialize (Hk E).
        rewrite Hk in Hl. destruct proxy; cbn in *; repeat split; auto; lia.
      * reflexivity.
      * destruct proxy; cbn; unfold NvU32_modulus; lia.
    + destruct (channel_pool_destroy pl _). inversion Hrun as [[Hst Hp Hn']].
      rewrite Hst in E. discriminate.
  - intros Hok. rewrite channel_pool_create_ok in Hrun by exact Hok.
    inversion Hrun. reflexivity.
Qed.

(** ** Copy-engine selection on the scenario table *)

Section SelectionScenario.

Variable n : Z.
Variables m1 m2 : Z.
Hypothesis n_ge_3 : 3 <= n.
Hypothesis m1_pces : hweight32 m1 = 8.
Hypothesis m2_pces : hweight32 m2 = 16.

Let table := scenario_ce_caps n m1 m2.

Lemma indices_below_split :
  indices_below n = [0; 1; 2] ++ map Z.of_nat (seq 3 (Z.to_nat n - 3)).
Proof.
  unfold indices_below.
  replace (Z.to_nat n) with (3 + (Z.to_nat n - 3))%nat at 1 by lia.
  rewrite seq_app, map_app. reflexivity.
Qed.

Lemma scenario_caps_beyond i : 3 <= i -> caps_at table i = zero_caps.
Proof.
  intros Hi. unfold caps_at, table, scenario_ce_caps.
  rewrite app_nth2 by (cbn; lia).
  destruct (Nat.lt_ge_cases (Z.to_nat i - 3) (Z.to_nat (n - 3))) as [Hlt | Hge].
  - apply nth_repeat_lt. exact Hlt.
  - apply nth_overflow. rewrite repeat_length. exact Hge.
Qed.

Lemma pick_ce_step_beyond type pref st i :
  3 <= i -> pick_ce_step n table type pref st i = st.
Proof.
  intros Hi. unfold pick_ce_step. destruct st as [mask best].
  rewrite scenario_caps_beyond by exact Hi. destruct type; reflexivity.
Qed.

Lemma pick_ce_fold_beyond type pref l : forall st,
  Forall (fun i => 3 <= i) l ->
  fold_left (pick_ce_step n table type pref) l st = st.
Proof.
  induction l as [| i l IH]; intros st Hl; [reflexivity |].
  inversion Hl; subst. cbn [fold_left].
  rewrite pick_ce_step_beyond by assumption. apply IH. assumption.
Qed.

Lemma pick_ce_fold_scenario type pref st :
  fold_left (pick_ce_step n table type pref) (indices_below n) st =
  fold_left (pick_ce_step n table type pref) [0; 1; 2] st.
Proof.
  rewrite indices_below_split, fold_left_app. apply pick_ce_fold_beyond.
  apply List.Forall_forall. intros i Hi. apply in_map_iff in Hi.
  destruct Hi as (k & <- & Hk). apply in_seq in Hk. lia.
Qed.

Lemma caps_at_0 :
  caps_at table 0 =
  {| supported := true; grce := false; shared := false;
     sysmemRead := false; sysmemWrite := false; sysmem := true;
     nvlinkP2p := false; p2p := false; cePceMask := 0 |}.
Proof. reflexivity. Qed.

Lemma caps_at_1 :
  caps_at table 1 =
  {| supported := true; grce := false; shared := false;
     sysmemRead := false; sysmemWrite := false; sysmem := true;
     nvlinkP2p := true; p2p := true; cePceMask := m1 |}.
Proof. reflexivity. Qed.

Lemma caps_at_2 :
  caps_at table 2 =
  {| supported := true; grce := false; shared := false;
     sysmemRead := false; sysmemWrite := false; sysmem := false;
     nvlinkP2p := false; p2p := true; cePceMask := m2 |}.
Proof. reflexivity. Qed.

(** Comparisons with the symbolic table size. *)
Ltac n_eqb :=
  repeat match goal with
  | |- context [Z.eqb n n] => rewrite (Z.eqb_refl n)
  | |- context [Z.eqb ?a n] =>
      replace (Z.eqb a n) with false by (symmetry; apply Z.eqb_neq; lia)
  end.

(** One turn of the selection loop on explicit arguments. *)
Ltac step_tac :=
  unfold pick_ce_step, compare_ce_for_channel_type;
  rewrite ?caps_at_0, ?caps_at_1, ?caps_at_2;
  cbn [ce_usable_for_channel_type supported grce sysmem p2p negb orb
       sysmemRead sysmemWrite nvlinkP2p shared cePceMask eqb Z.b2z ce_usage_count];
  rewrite ?m1_pces, ?m2_pces; n_eqb; lazy; reflexivity.

Ltac eval_step :=
  match goal with
  | |- context [pick_ce_step n table ?t ?p (?m, ?b) ?i] =>
      let H := fresh in
      eassert (H : pick_ce_step n table t p (m, b) i = _) by step_tac;
      rewrite H; clear H
  end.

Ltac pick_tac :=
  unfold pick_ce_for_channel_type; rewrite pick_ce_fold_scenario;
  cbn [fold_left]; do 3 eval_step; n_eqb; reflexivity.

Lemma pick_cpu_to_gpu :
  pick_ce_for_channel_type n 0 table UVM_CHANNEL_TYPE_CPU_TO_GPU [n; n; n; n; n]
  = (NV_OK, 3, [0; n; n; n; n]).
Proof. pick_tac. Qed.

Lemma pick_gpu_to_cpu :
  pick_ce_for_channel_type n 3 table UVM_CHANNEL_TYPE_GPU_TO_CPU [0; n; n; n; n]
  = (NV_OK, 3, [0; 0; n; n; n]).
Proof. pick_tac. Qed.

Lemma pick_gpu_internal :
  pick_ce_for_channel_type n 3 table UVM_CHANNEL_TYPE_GPU_INTERNAL [0; 0; n; n; n]
  = (NV_OK, 7, [0; 0; 2; n; n]).
Proof. pick_tac. Qed.

Lemma pick_gpu_to_gpu :
  pick_ce_for_channel_type n 7 table UVM_CHANNEL_TYPE_GPU_TO_GPU [0; 0; 2; n; n]
  = (NV_OK, 7, [0; 0; 2; n; 2]).
Proof. pick_tac. Qed.

Lemma pick_memops :
  pick_ce_for_channel_type n 7 table UVM_CHANNEL_TYPE_MEMOPS [0; 0; 2; n; 2]
  = (NV_OK, 7, [0; 0; 2; 1; 2]).
Proof. pick_tac. Qed.

Lemma pick_copy_engines_scenario :
  channel_manager_pick_copy_engines n (NV_OK, table) 0
    (repeat n UVM_CHANNEL_TYPE_COUNT)
  = (NV_OK, 7, [0; 0; 2; 1; 2]).
Proof.
  unfold channel_manager_pick_copy_engines, UVM_CHANNEL_TYPE_COUNT.
  cbn [NV_STATUS_eqb negb repeat pick_ce_for_channel_types].
  rewrite pick_cpu_to_gpu. cbn [NV_STATUS_eqb].
  rewrite pick_gpu_to_cpu. cbn [NV_STATUS_eqb].
  rewrite pick_gpu_internal. cbn [NV_STATUS_eqb].
  rewrite pick_gpu_to_gpu. cbn [NV_STATUS_eqb].
  rewrite pick_memops. reflexivity.
Qed.

Lemma testbit_7_beyond i : 3 <= i -> Z.testbit 7 i = false.
Proof. intros Hi. change 7 with (Z.ones 3). apply Z.ones_spec_high. lia. Qed.

Lemma filter_testbit_7_beyond (A : Type) (f : A -> Z) (l : list A) :
  Forall (fun x => 3 <= f x) l -> List.filter (fun x => Z.testbit 7 (f x)) l = [].
Proof.
  induction 1 as [| x l Hx Hl IH]; [reflexivity |].
  cbn [List.filter]. rewrite testbit_7_beyond by exact Hx. exact IH.
Qed.

Lemma usable_ces_scenario :
  List.filter (fun ce => Z.testbit 7 ce) (indices_below n) = [0; 1; 2].
Proof.
  rewrite indices_below_split, List.filter_app.
  rewrite (filter_testbit_7_beyond _ (fun x => x) (map Z.of_nat (seq 3 (Z.to_nat n - 3))));
    [reflexivity |].
  apply List.Forall_forall. intros i Hi. apply in_map_iff in Hi.
  destruct Hi as (k & <- & Hk). apply in_seq in Hk. lia.
Qed.

Lemma bitmap_weight_scenario : bitmap_weight 7 n = 3.
Proof.
  unfold bitmap_weight.
  replace (Z.to_nat n) with (3 + (Z.to_nat n - 3))%nat by lia.
  rewrite seq_app, List.filter_app.
  rewrite (filter_testbit_7_beyond _ Z.of_nat (seq (0 + 3) (Z.to_nat n - 3)));
    [reflexivity |].
  apply List.Forall_forall. intros i Hi. apply in_seq in Hi. lia.
Qed.

Lemma create_pools_scenario conf out :
  (forall ce, pool_outcome_ok false (out ce false)) ->
  exists pool0 pool1 pool2,
    channel_manager_create_pools n conf (NV_OK, table) false true out =
    (NV_OK, {| ce_mask := 7; num_channel_pools := 3;
               channel_pools := [pool0; pool1; pool2];
               default_for_type := [0; 0; 2; 1; 2]%nat |}) /\
    ce_index pool0 = 0 /\ ce_index pool1 = 1 /\ ce_index pool2 = 2.
Proof.
  intros Hok. unfold channel_manager_create_pools.
  rewrite pick_copy_engines_scenario. cbn [NV_STATUS_eqb negb].
  rewrite usable_ces_scenario. cbn [create_ce_pools].
  rewrite (channel_pool_create_ok conf (out 0 false) 0 0 false (Hok 0)).
  cbn [NV_STATUS_eqb negb app].
  rewrite (channel_pool_create_ok conf (out 1 false) _ 1 false (Hok 1)).
  cbn [NV_STATUS_eqb negb app].
  rewrite (channel_pool_create_ok conf (out 2 false) _ 2 false (Hok 2)).
  cbn [NV_STATUS_eqb negb app].
  do 3 eexists. split; [reflexivity |]. repeat split.
Qed.

End SelectionScenario.

(** C3.  On the table {CE 0: sysmem; CE 1: sysmem, p2p, nvlinkP2p, 8 PCEs;
    CE 2: p2p, 16 PCEs}, with the three CEs supported and every other
    entry of the table zeroed, the selection run in the order CPU_TO_GPU,
    GPU_TO_CPU, GPU_INTERNAL, GPU_TO_GPU, MEMOPS picks CE 0, CE 0, CE 2,
    CE 2 and CE 1, and pool creation (no proxy pool, no failing
    allocation) makes one pool per usable CE, three in all. *)
Theorem ce_selection_scenario (n m1 m2 : Z) (conf : channel_manager_conf)
    (out : Z -> bool -> pool_outcome) :
  3 <= n -> hweight32 m1 = 8 -> hweight32 m2 = 16 ->
  (forall ce, pool_outcome_ok false (out ce false)) ->
  exists mask preferred_ce manager,
    channel_manager_pick_copy_engines n (NV_OK, scenario_ce_caps n m1 m2) 0
      (repeat n UVM_CHANNEL_TYPE_COUNT) = (NV_OK, mask, preferred_ce) /\
    preferred_ce_of preferred_ce UVM_CHANNEL_TYPE_CPU_TO_GPU = Some 0 /\
    preferred_ce_of preferred_ce UVM_CHANNEL_TYPE_GPU_TO_CPU = Some 0 /\
    preferred_ce_of preferred_ce UVM_CHANNEL_TYPE_GPU_INTERNAL = Some 2 /\
    preferred_ce_of preferred_ce UVM_CHANNEL_TYPE_GPU_TO_GPU = Some 2 /\
    preferred_ce_of preferred_ce UVM_CHANNEL_TYPE_MEMOPS = Some 1 /\
    channel_manager_create_pools n conf (NV_OK, scenario_ce_caps n m1 m2)
      false true out = (NV_OK, manager) /\
    ce_mask manager = mask /\
    num_channel_pools manager = 3 /\
    length (channel_pools manager) = 3%nat /\
    map ce_index (channel_pools manager) = [0; 1; 2] /\
    bitmap_weight mask n = 3.
Proof.
  intros Hn H1 H2 Hok.
  destruct (create_pools_scenario n m1 m2 Hn H1 H2 conf out Hok)
    as (p0 & p1 & p2 & Hrun & Hc0 & Hc1 & Hc2).
  exists 7, [0; 0; 2; 1; 2]. eexists.
  split; [apply pick_copy_engines_scenario; assumption |].
  do 5 (split; [reflexivity |]).
  split; [exact Hrun |]. cbn [ce_mask num_channel_pools channel_pools map length].
  rewrite Hc0, Hc1, Hc2.
  repeat split. apply bitmap_weight_scenario. exact Hn.
Qed.

Lemma ce_selection_scenario_witness :
  3 <= 64 /\ hweight32 255 = 8 /\ hweight32 65535 = 16 /\
  exists mask preferred_ce manager,
    channel_manager_pick_copy_engines 64 (NV_OK, scenario_ce_caps 64 255 65535) 0
      (repeat 64 UVM_CHANNEL_TYPE_COUNT) = (NV_OK, mask, preferred_ce) /\
    preferred_ce_of preferred_ce UVM_CHANNEL_TYPE_CPU_TO_GPU = Some 0 /\
    preferred_ce_of preferred_ce UVM_CHANNEL_TYPE_GPU_TO_CPU = Some 0 /\
    preferred_ce_of preferred_ce UVM_CHANNEL_TYPE_GPU_INTERNAL = Some 2 /\
    preferred_ce_of preferred_ce UVM_CHANNEL_TYPE_GPU_TO_GPU = Some 2 /\
    preferred_ce_of preferred_ce UVM_CHANNEL_TYPE_MEMOPS = Some 1 /\
    channel_manager_create_pools 64 default_conf (NV_OK, scenario_ce_caps 64 255 65535)
      false true (fun _ _ => all_ok_pool) = (NV_OK, manager) /\
    ce_mask manager = mask /\
    num_channel_pools manager = 3 /\
    length (channel_pools manager) = 3%nat /\
    map ce_index (channel_pools manager) = [0; 1; 2] /\
    bitmap_weight mask 64 = 3.
Proof.
  split; [lia |]. split; [reflexivity |]. split; [reflexivity |].
  apply (ce_selection_scenario 64 255 65535 default_conf (fun _ _ => all_ok_pool)).
  - lia.
  - reflexivity.
  - reflexivity.
  - intros ce. split; [reflexivity |]. intros i _. split; reflexivity.
Defined.

(** ** Ring arithmetic *)

Lemma mod_once x n : 0 < n -> n <= x < 2 * n -> x mod n = x - n.
Proof. intros Hn Hx. symmetry. apply Z.mod_unique with (q := 1); lia. Qed.

Lemma u32_small x : 0 <= x < 4194304 -> u32 x = x.
Proof.
  intros H. apply u32_id. unfold is_u32, NvU32_modulus.
  change (2 ^ 32) with 4294967296. lia.
Qed.

Lemma ring_wf_bound ch : ring_wf ch -> num_gpfifo_entries ch <= 1048576.
Proof. intros [H _ _ _]. exact (proj2 H). Qed.

(** ** The progress loop *)

Lemma update_completed_value_idempotent s :
  uvm_gpu_tracking_semaphore_update_completed_value
    (fst (uvm_gpu_tracking_semaphore_update_completed_value s)) =
  uvm_gpu_tracking_semaphore_update_completed_value s.
Proof.
  unfold uvm_gpu_tracking_semaphore_update_completed_value.
  cbn [fst queued_value completed_value sem_payload].
  set (r := if _ <? _ then _ else _).
  replace (Z.max (Z.max (completed_value s) r) r)
    with (Z.max (completed_value s) r) by lia.
  reflexivity.
Qed.

Section ProgressLoop.

Variable ch : uvm_channel_t.
Variable mode : uvm_channel_update_mode_t.
Variable completed : Z.

Lemma progress_loop_stops b g a :
  loop_stops ch mode completed g -> progress_loop b ch mode completed g a = Some (g, a, []).
Proof.
  intros Hs. destruct b as [| b]; [reflexivity |]. cbn [progress_loop].
  destruct (Z.eqb_spec g (cpu_put ch)) as [| Hne]; [reflexivity |].
  destruct Hs as [| (entry & He & Hm & Hc)]; [contradiction |].
  rewrite He, Hm. cbn.
  destruct (Z.ltb_spec completed (tracking_semaphore_value entry)); [reflexivity | lia].
Qed.

Lemma progress_loop_no_event b g a g' a' :
  progress_loop (S b) ch mode completed g a = Some (g', a', []) ->
  g' = g /\ a' = a /\ loop_stops ch mode completed g.
Proof.
  cbn [progress_loop].
  destruct (Z.eqb_spec g (cpu_put ch)) as [Heq | Hne].
  - intros H. inversion H; subst. repeat split. left. reflexivity.
  - destruct (gpfifo_entries ch !! Z.to_nat g) as [entry |] eqn:He; [| discriminate].
    cbn.
    destruct (_ && _) eqn:Hc.
    + intros H. inversion H; subst. repeat split. right. exists entry.
      apply andb_prop in Hc. destruct Hc as [Hm Hc]. apply Z.ltb_lt in Hc.
      destruct mode; [auto | discriminate].
    + destruct (push_info entry); [| discriminate]. cbn.
      destruct (progress_loop b ch mode completed _ _) as [[[g1 a1] e1] |];
        cbn; intros H; inversion H.
Qed.

Lemma progress_loop_app b1 : forall b2 g a,
  progress_loop (b1 + b2) ch mode completed g a =
  '(g1, a1, e1) ← progress_loop b1 ch mode completed g a;
  '(g2, a2, e2) ← progress_loop b2 ch mode completed g1 a1;
  Some (g2, a2, e1 ++ e2).
Proof.
  induction b1 as [| b1 IH]; intros b2 g a.
  - cbn. destruct (progress_loop b2 ch mode completed g a) as [[[g2 a2] e2] |];
      reflexivity.
  - cbn [Nat.add progress_loop].
    destruct (Z.eqb_spec g (cpu_put ch)) as [Heq | Hne].
    { cbn. rewrite progress_loop_stops by (left; exact Heq). reflexivity. }
    destruct (gpfifo_entries ch !! Z.to_nat g) as [entry |] eqn:He; [| reflexivity].
    cbn. destruct (_ && _) eqn:Hc.
    { cbn. rewrite progress_loop_stops; [reflexivity |].
      right. exists entry. apply andb_prop in Hc. destruct Hc as [Hm Hc].
      apply Z.ltb_lt in Hc. destruct mode; [auto | discriminate]. }
    destruct (push_info entry) as [info |]; [| reflexivity]. cbn.
    rewrite IH.
    destruct (progress_loop b1 ch mode completed _ _) as [[[g1 a1] e1] |];
      [| reflexivity].
    cbn. destruct (progress_loop b2 ch mode completed g1 a1) as [[[g2 a2] e2] |];
      reflexivity.
Qed.

Hypothesis ring_size : 0 < num_gpfifo_entries ch <= 1048576.
Hypothesis cpu_put_in_ring : 0 <= cpu_put ch < num_gpfifo_entries ch.

Lemma ring_distance_value g :
  0 <= g < num_gpfifo_entries ch ->
  ring_distance ch g =
  if g <=? cpu_put ch then cpu_put ch - g
  else cpu_put ch - g + num_gpfifo_entries ch.
Proof.
  intros Hg. unfold ring_distance. destruct (Z.leb_spec g (cpu_put ch)).
  - apply Z.mod_small. lia.
  - symmetry. apply Z.mod_unique with (q := -1); lia.
Qed.

Lemma next_slot_value g :
  0 <= g < num_gpfifo_entries ch ->
  u32 (g + 1) mod num_gpfifo_entries ch =
  if g + 1 <? num_gpfifo_entries ch then g + 1 else 0.
Proof.
  intros Hg. rewrite u32_small by lia. destruct (Z.ltb_spec (g + 1) (num_gpfifo_entries ch)).
  - apply Z.mod_small. lia.
  - replace (g + 1) with (num_gpfifo_entries ch) by lia. apply Z.mod_same. lia.
Qed.

Lemma next_slot_in_ring g :
  0 <= g < num_gpfifo_entries ch ->
  0 <= u32 (g + 1) mod num_gpfifo_entries ch < num_gpfifo_entries ch.
Proof. intros Hg. rewrite u32_small by lia. apply Z.mod_pos_bound. lia. Qed.

Lemma ring_distance_next g :
  0 <= g < num_gpfifo_entries ch -> g <> cpu_put ch ->
  ring_distance ch (u32 (g + 1) mod num_gpfifo_entries ch) = ring_distance ch g - 1.
Proof.
  intros Hg Hne. pose proof (next_slot_in_ring g Hg) as Hnext.
  rewrite !ring_distance_value by assumption. rewrite next_slot_value in * by exact Hg.
  destruct (Z.ltb_spec (g + 1) (num_gpfifo_entries ch));
    destruct (Z.leb_spec g (cpu_put ch));
    match goal with |- context [?a <=? ?b] => destruct (Z.leb_spec a b) end; lia.
Qed.

Lemma ring_distance_zero g :
  0 <= g < num_gpfifo_entries ch -> ring_distance ch g = 0 -> g = cpu_put ch.
Proof.
  intros Hg. rewrite ring_distance_value by exact Hg.
  destruct (Z.leb_spec g (cpu_put ch)); lia.
Qed.

Lemma ring_distance_bound g :
  0 <= ring_distance ch g < num_gpfifo_entries ch.
Proof. apply Z.mod_pos_bound. lia. Qed.

Lemma ring_slots_S g s :
  0 <= g < num_gpfifo_entries ch ->
  ring_slots g (S s) (num_gpfifo_entries ch) =
  g :: ring_slots (u32 (g + 1) mod num_gpfifo_entries ch) s (num_gpfifo_entries ch).
Proof.
  intros Hg. unfold ring_slots. cbn [seq map].
  rewrite Z.add_0_r, Z.mod_small by lia. f_equal.
  rewrite <- seq_shift, map_map. apply map_ext. intros i.
  rewrite u32_small by lia. rewrite Z.add_mod_idemp_l by lia. f_equal. lia.
Qed.

(** What a run of the loop has done when it returns: it reclaimed the
    first [s] slots from [g], in ring order, none of them beyond
    [cpu_put], each with a push info that went to the tail of the free
    list, and it stopped early only where the loop stops. *)
Lemma progress_loop_run b : forall g a g' a' es,
  0 <= g < num_gpfifo_entries ch ->
  progress_loop b ch mode completed g a = Some (g', a', es) ->
  exists (s : nat) (infos : list nat),
    (s <= b)%nat /\ Z.of_nat s <= ring_distance ch g /\
    0 <= g' < num_gpfifo_entries ch /\
    ring_distance ch g' = ring_distance ch g - Z.of_nat s /\
    es = map ev_pushbuffer_mark_completed (ring_slots g s (num_gpfifo_entries ch)) /\
    a' = a ++ infos /\
    map Some infos = map (slot_info ch) (ring_slots g s (num_gpfifo_entries ch)) /\
    Forall (fun index => mode = UVM_CHANNEL_UPDATE_MODE_COMPLETED ->
                         slot_is_pending ch completed index = false)
           (ring_slots g s (num_gpfifo_entries ch)) /\
    ((s < b)%nat -> loop_stops ch mode completed g') /\
    (forall t, ring_slots g (s + t) (num_gpfifo_entries ch) =
               ring_slots g s (num_gpfifo_entries ch) ++
               ring_slots g' t (num_gpfifo_entries ch)).
Proof.
  induction b as [| b IH]; intros g a g' a' es Hg Hrun.
  - cbn in Hrun. inversion Hrun; subst. exists 0%nat, [].
    pose proof (ring_distance_bound g').
    repeat split; try (cbn; lia); try reflexivity.
    + cbn. rewrite app_nil_r. reflexivity.
    + constructor.
  - cbn [progress_loop] in Hrun.
    destruct (Z.eqb_spec g (cpu_put ch)) as [Heq | Hne].
    { inversion Hrun; subst. exists 0%nat, [].
      pose proof (ring_distance_bound (cpu_put ch)).
      repeat split; try (cbn; lia); try reflexivity.
      - cbn. rewrite app_nil_r. reflexivity.
      - constructor.
      - intros _. left. reflexivity. }
    destruct (gpfifo_entries ch !! Z.to_nat g) as [entry |] eqn:He; [| discriminate].
    cbn in Hrun. destruct (_ && _) eqn:Hc.
    { inversion Hrun; subst. exists 0%nat, [].
      pose proof (ring_distance_bound g').
      repeat split; try (cbn; lia); try reflexivity.
      - cbn. rewrite app_nil_r. reflexivity.
      - constructor.
      - intros _. right. exists entry. apply andb_prop in Hc.
        destruct Hc as [Hm Hc]. apply Z.ltb_lt in Hc.
        destruct mode; [auto | discriminate]. }
    destruct (push_info entry) as [info |] eqn:Hi; [| discriminate]. cbn in Hrun.
    destruct (progress_loop b ch mode completed _ _) as [[[g1 a1] e1] |] eqn:Hrec;
      [| discriminate].
    cbn in Hrun. inversion Hrun; subst. clear Hrun.
    apply IH in Hrec; [| apply next_slot_in_ring; exact Hg].
    destruct Hrec
      as (s & infos & Hsb & Hsd & Hg' & Hd & He1 & Ha & Hinfos & Hdone & Hstop & Hsplit).
    rewrite ring_distance_next in Hsd, Hd by assumption.
    exists (S s), (info :: infos).
    rewrite ring_slots_S by exact Hg.
    repeat split; try lia.
    + cbn [map]. rewrite He1. reflexivity.
    + rewrite Ha, <- app_assoc. reflexivity.
    + cbn [map]. rewrite Hinfos. f_equal. unfold slot_info. rewrite He. cbn.
      symmetry. exact Hi.
    + constructor; [| exact Hdone]. intros Hm. unfold slot_is_pending. rewrite He.
      rewrite Hm in Hc. cbn in Hc. exact Hc.
    + intros Hlt. apply Hstop. lia.
    + intros t. cbn [Nat.add]. rewrite ring_slots_S by exact Hg.
      rewrite Hsplit. reflexivity.
Qed.

Lemma progress_loop_saturates b j g a :
  0 <= g < num_gpfifo_entries ch ->
  ring_distance ch g <= Z.of_nat b ->
  progress_loop (b + j) ch mode completed g a =
  progress_loop b ch mode completed g a.
Proof.
  intros Hg Hd. rewrite progress_loop_app.
  destruct (progress_loop b ch mode completed g a) as [[[g1 a1] e1] |] eqn:Hrun;
    [| reflexivity].
  cbn. destruct (progress_loop_run b g a g1 a1 e1 Hg Hrun)
    as (s & infos & Hsb & Hsd & Hg1 & Hd1 & _ & _ & _ & _ & Hstop & _).
  rewrite progress_loop_stops.
  - cbn. rewrite app_nil_r. reflexivity.
  - destruct (Nat.eq_dec s b) as [-> | Hne].
    + left. apply ring_distance_zero; [exact Hg1 | lia].
    + apply Hstop. lia.
Qed.

End ProgressLoop.

Lemma progress_loop_ext b ch ch' mode completed : forall g a,
  cpu_put ch = cpu_put ch' ->
  gpfifo_entries ch = gpfifo_entries ch' ->
  num_gpfifo_entries ch = num_gpfifo_entries ch' ->
  progress_loop b ch mode completed g a = progress_loop b ch' mode completed g a.
Proof.
  induction b as [| b IH]; intros g a Hp He Hn; [reflexivity |].
  cbn [progress_loop]. rewrite Hp, He, Hn.
  destruct (g =? cpu_put ch'); [reflexivity |].
  destruct (gpfifo_entries ch' !! Z.to_nat g) as [entry |]; [| reflexivity].
  cbn. destruct (_ && _); [reflexivity |].
  destruct (push_info entry); [| reflexivity]. cbn.
  rewrite (IH _ _ Hp He Hn). reflexivity.
Qed.

(** ** One progress update, in terms of the loop *)

(** The update is one refresh of the completed value, one run of the loop
    and the two stores; the loop does not look at the semaphore. *)
Lemma update_progress_unfold ch k mode :
  uvm_channel_update_progress_with_max ch k mode =
  let s := fst (uvm_gpu_tracking_semaphore_update_completed_value (tracking_sem ch)) in
  let v := snd (uvm_gpu_tracking_semaphore_update_completed_value (tracking_sem ch)) in
  '(g, l, evs) ← progress_loop (Z.to_nat k) ch mode v (gpu_get ch)
                    (available_push_infos ch);
  Some (if g <=? cpu_put ch then cpu_put ch - g
        else u32 (num_gpfifo_entries ch - g + cpu_put ch),
        set_progress g l (set_tracking_sem s ch), evs).
Proof.
  unfold uvm_channel_update_progress_with_max, uvm_channel_update_completed_value.
  destruct (uvm_gpu_tracking_semaphore_update_completed_value (tracking_sem ch))
    as [s v].
  cbn [fst snd]. cbv zeta.
  rewrite (progress_loop_ext _ (set_tracking_sem s ch) ch) by reflexivity.
  reflexivity.
Qed.

Lemma update_progress_app ch k1 k2 mode :
  0 <= k1 -> 0 <= k2 ->
  uvm_channel_update_progress_with_max ch (k1 + k2) mode =
  '(p1, ch1, e1) ← uvm_channel_update_progress_with_max ch k1 mode;
  '(p2, ch2, e2) ← uvm_channel_update_progress_with_max ch1 k2 mode;
  Some (p2, ch2, e1 ++ e2).
Proof.
  intros H1 H2. rewrite (update_progress_unfold ch (k1 + k2)),
    (update_progress_unfold ch k1).
  cbv zeta. rewrite Z2Nat.inj_add by assumption. rewrite progress_loop_app.
  destruct (progress_loop (Z.to_nat k1) ch mode _ _ _) as [[[g1 a1] e1] |];
    [| reflexivity].
  cbn [mbind option_bind]. rewrite update_progress_unfold. cbv zeta.
  cbn [tracking_sem set_progress set_tracking_sem gpu_get available_push_infos
       cpu_put num_gpfifo_entries].
  rewrite update_completed_value_idempotent.
  rewrite (progress_loop_ext _ (set_progress g1 a1 _) ch) by reflexivity.
  destruct (progress_loop (Z.to_nat k2) ch mode _ g1 a1) as [[[g2 a2] e2] |];
    reflexivity.
Qed.

Lemma update_progress_saturates ch k j mode :
  ring_wf ch -> pending_count ch <= k -> 0 <= j ->
  uvm_channel_update_progress_with_max ch (k + j) mode =
  uvm_channel_update_progress_with_max ch k mode.
Proof.
  intros Hwf Hk Hj. pose proof (ring_wf_bound ch Hwf). destruct Hwf as [Hn Hp Hg Hc].
  assert (0 <= pending_count ch) by (apply Z.mod_pos_bound; lia).
  rewrite !update_progress_unfold. cbv zeta.
  rewrite Z2Nat.inj_add by lia.
  rewrite progress_loop_saturates; try assumption; try lia; try reflexivity.
  change (ring_distance ch (gpu_get ch)) with (pending_count ch). lia.
Qed.

Lemma update_progress_run ch k mode p1 ch1 e1 :
  ring_wf ch ->
  uvm_channel_update_progress_with_max ch k mode = Some (p1, ch1, e1) ->
  ring_wf ch1 /\
  pending_count ch1 = pending_count ch - Z.of_nat (length e1) /\
  p1 = pending_count ch1 /\
  exists infos,
    ch1 = set_progress (gpu_get ch1) (available_push_infos ch ++ infos)
            (set_tracking_sem (tracking_sem ch1) ch) /\
    e1 = map ev_pushbuffer_mark_completed
             (ring_slots (gpu_get ch) (length e1) (num_gpfifo_entries ch)) /\
    map Some infos =
      map (slot_info ch) (ring_slots (gpu_get ch) (length e1) (num_gpfifo_entries ch)) /\
    (forall t, ring_slots (gpu_get ch) (length e1 + t) (num_gpfifo_entries ch) =
               ring_slots (gpu_get ch) (length e1) (num_gpfifo_entries ch) ++
               ring_slots (gpu_get ch1) t (num_gpfifo_entries ch)).
Proof.
  intros Hwf Hrun. pose proof (ring_wf_bound ch Hwf) as Hb.
  destruct Hwf as [Hn Hp Hg Hc].
  rewrite update_progress_unfold in Hrun. cbv zeta in Hrun.
  destruct (progress_loop _ _ _ _ _ _) as [[[g a] es] |] eqn:Hloop; [| discriminate].
  cbn in Hrun. inversion Hrun; subst. clear Hrun.
  apply progress_loop_run in Hloop; try assumption; try lia.
  destruct Hloop
    as (s & infos & Hsb & Hsd & Hg' & Hd & Hes & Ha & Hinfos & _ & _ & Hsplit).
  assert (Hlen : length e1 = s).
  { rewrite Hes, length_map. unfold ring_slots. rewrite length_map, length_seq.
    reflexivity. }
  split; [split; cbn; assumption |].
  split; [unfold pending_count; cbn; fold (ring_distance ch g);
          fold (ring_distance ch (gpu_get ch)); lia |].
  split.
  - unfold pending_count. cbn. fold (ring_distance ch g).
    rewrite (ring_distance_value ch) by lia.
    destruct (g <=? cpu_put ch); [reflexivity |]. rewrite u32_small by lia. lia.
  - exists infos. rewrite Hlen. cbn. split; [| split; [| split]]; try assumption.
    rewrite Ha. reflexivity.
Qed.

Lemma update_progress_quiescent ch k m mode p1 ch1 :
  1 <= k ->
  uvm_channel_update_progress_with_max ch k mode = Some (p1, ch1, []) ->
  uvm_channel_update_progress_with_max ch m mode = Some (p1, ch1, []).
Proof.
  intros Hk. rewrite !update_progress_unfold. cbv zeta.
  replace (Z.to_nat k) with (S (Z.to_nat (k - 1))) by lia.
  destruct (progress_loop (S _) _ _ _ _ _) as [[[g a] es] |] eqn:Hloop;
    [| discriminate].
  cbn. intros Hrun. inversion Hrun; subst.
  apply progress_loop_no_event in Hloop. destruct Hloop as (-> & -> & Hstop).
  rewrite progress_loop_stops by exact Hstop. reflexivity.
Qed.

Lemma progress_loop_no_fault ch mode completed b : forall g a,
  0 < num_gpfifo_entries ch <= 1048576 ->
  0 <= cpu_put ch < num_gpfifo_entries ch ->
  0 <= g < num_gpfifo_entries ch ->
  Forall (slot_has_push_info ch)
         (ring_slots g (Z.to_nat (ring_distance ch g)) (num_gpfifo_entries ch)) ->
  exists r, progress_loop b ch mode completed g a = Some r.
Proof.
  induction b as [| b IH]; intros g a Hn Hp Hg Hall; [eexists; reflexivity |].
  cbn [progress_loop].
  destruct (Z.eqb_spec g (cpu_put ch)) as [Heq | Hne]; [eexists; reflexivity |].
  pose proof (ring_distance_next ch Hn Hp g Hg Hne) as Hd.
  pose proof (ring_distance_bound ch Hn (u32 (g + 1) mod num_gpfifo_entries ch)).
  replace (Z.to_nat (ring_distance ch g))
    with (S (Z.to_nat (ring_distance ch (u32 (g + 1) mod num_gpfifo_entries ch))))
    in Hall by lia.
  rewrite ring_slots_S in Hall by assumption.
  inversion Hall as [| ? ? (entry & info & He & Hi) Hrest]; subst.
  rewrite He. cbn. destruct (_ && _); [eexists; reflexivity |].
  rewrite Hi. cbn.
  destruct (IH (u32 (g + 1) mod num_gpfifo_entries ch) (a ++ [info])) as [[[g1 a1] e1] Hr];
    try assumption.
  - apply next_slot_in_ring; assumption.
  - rewrite Hr. eexists. reflexivity.
Qed.

Lemma update_progress_no_fault ch k mode :
  channel_wf ch -> exists r, uvm_channel_update_progress_with_max ch k mode = Some r.
Proof.
  intros [Hring Hlen Hq Hslots]. pose proof (ring_wf_bound ch Hring).
  destruct Hring as [Hn Hp Hg Hc].
  rewrite update_progress_unfold. cbv zeta.
  edestruct (progress_loop_no_fault ch mode) as [[[g a] es] Hr]; cycle 4.
  - rewrite Hr. eexists. reflexivity.
  - lia.
  - exact Hp.
  - exact Hg.
  - exact Hslots.
Qed.

(** ** Repeated bounded updates against one unbounded update *)

Lemma update_progress_until_quiescent_spec k m : forall fuel ch,
  ring_wf ch -> 1 <= k -> pending_count ch <= m ->
  pending_count ch < Z.of_nat fuel ->
  update_progress_until_quiescent fuel ch k =
  run_of (uvm_channel_update_progress_with_max ch m UVM_CHANNEL_UPDATE_MODE_COMPLETED).
Proof.
  induction fuel as [| fuel IH]; intros ch Hwf Hk Hm Hfuel.
  - exfalso. destruct Hwf as [Hn _ _ _].
    assert (0 <= pending_count ch) by (apply Z.mod_pos_bound; lia). lia.
  - assert (Hpos : 0 <= pending_count ch)
      by (destruct Hwf as [Hn _ _ _]; apply Z.mod_pos_bound; lia).
    assert (Hsplit : uvm_channel_update_progress_with_max ch m
                       UVM_CHANNEL_UPDATE_MODE_COMPLETED =
                     '(p1, ch1, e1) ← uvm_channel_update_progress_with_max ch k
                                        UVM_CHANNEL_UPDATE_MODE_COMPLETED;
                     '(p2, ch2, e2) ← uvm_channel_update_progress_with_max ch1 m
                                        UVM_CHANNEL_UPDATE_MODE_COMPLETED;
                     Some (p2, ch2, e1 ++ e2)).
    { rewrite <- update_progress_app by lia.
      rewrite Z.add_comm. symmetry. apply update_progress_saturates; [assumption | | ]; lia. }
    cbn [update_progress_until_quiescent].
    destruct (uvm_channel_update_progress_with_max ch k _) as [[[p1 ch1] e1] |] eqn:Hcall.
    + destruct e1 as [| ev e1].
      * rewrite (update_progress_quiescent ch k m _ p1 ch1 Hk Hcall). reflexivity.
      * destruct (update_progress_run ch k _ p1 ch1 (ev :: e1) Hwf Hcall)
          as (Hwf1 & Hp1 & _ & _).
        cbn [length] in Hp1.
        rewrite (IH ch1 Hwf1 Hk) by lia.
        rewrite Hsplit. cbn [mbind option_bind].
        destruct (uvm_channel_update_progress_with_max ch1 m _) as [[[p2 ch2] e2] |];
          reflexivity.
    + rewrite Hsplit. reflexivity.
Qed.

(** C4.  In COMPLETED mode and with the GPU's words left as they are,
    calling the progress update with bound [k >= 1] until a call reclaims
    nothing ends (more calls than pending entries are never needed) and
    gives what one call with a bound no smaller than the number of pending
    entries gives, in particular the call of
    [uvm_channel_update_progress_all], whose bound is the ring size: the
    same channel ([gpu_get], free list, pending entries), the same pending
    count, the same pushbuffer calls.  On a well-formed channel neither
    run faults. *)
Theorem update_progress_repeated_equals_unbounded
    (ch : uvm_channel_t) (k : Z) (fuel : nat) :
  ring_wf ch -> 1 <= k -> pending_count ch < Z.of_nat fuel ->
  update_progress_until_quiescent fuel ch k =
    run_of (uvm_channel_update_progress_all ch) /\
  (forall m, pending_count ch <= m ->
     update_progress_until_quiescent fuel ch k =
     run_of (uvm_channel_update_progress_with_max ch m
               UVM_CHANNEL_UPDATE_MODE_COMPLETED)) /\
  (channel_wf ch ->
   exists r, update_progress_until_quiescent fuel ch k = Finished r).
Proof.
  intros Hwf Hk Hfuel.
  assert (Hall : pending_count ch <= num_gpfifo_entries ch).
  { destruct Hwf as [Hn _ _ _].
    assert (pending_count ch < num_gpfifo_entries ch)
      by (apply Z.mod_pos_bound; lia). lia. }
  split; [| split].
  - apply update_progress_until_quiescent_spec; assumption.
  - intros m Hm. apply update_progress_until_quiescent_spec; assumption.
  - intros Hcwf.
    rewrite (update_progress_until_quiescent_spec k (num_gpfifo_entries ch))
      by assumption.
    destruct (update_progress_no_fault ch (num_gpfifo_entries ch)
                UVM_CHANNEL_UPDATE_MODE_COMPLETED Hcwf) as [r Hr].
    rewrite Hr. exists r. reflexivity.
Qed.

Lemma busy_channel_wf : channel_wf busy_channel.
Proof.
  split.
  - split; cbn; unfold UVM_CHANNEL_NUM_GPFIFO_ENTRIES_MAX; lia.
  - reflexivity.
  - cbn. unfold is_u64, NvU64_modulus. lia.
  - repeat constructor; eexists; eexists; split; reflexivity.
Qed.

Lemma update_progress_repeated_equals_unbounded_witness :
  ring_wf busy_channel /\ 1 <= 1 /\ pending_count busy_channel < Z.of_nat 4 /\
  update_progress_until_quiescent 4 busy_channel 1 =
    run_of (uvm_channel_update_progress_all busy_channel) /\
  exists r, update_progress_until_quiescent 4 busy_channel 1 = Finished r.
Proof.
  assert (Hp : pending_count busy_channel < Z.of_nat 4) by (vm_compute; reflexivity).
  split; [exact (wf_ring _ busy_channel_wf) |]. split; [lia |]. split; [exact Hp |].
  destruct (update_progress_repeated_equals_unbounded busy_channel 1 4
              (wf_ring _ busy_channel_wf) ltac:(lia) Hp) as (H1 & _ & H3).
  split; [exact H1 | exact (H3 busy_channel_wf)].
Defined.

(** ** Status and errors *)

Lemma progress_loop_first_pending ch completed b : forall g a g' a' es,
  0 < num_gpfifo_entries ch <= 1048576 ->
  0 <= cpu_put ch < num_gpfifo_entries ch ->
  0 <= g < num_gpfifo_entries ch ->
  ring_distance ch g < Z.of_nat b ->
  progress_loop b ch UVM_CHANNEL_UPDATE_MODE_COMPLETED completed g a =
    Some (g', a', es) ->
  find (slot_is_pending ch completed)
       (ring_slots g (Z.to_nat (ring_distance ch g)) (num_gpfifo_entries ch)) =
  if g' =? cpu_put ch then None else Some g'.
Proof.
  induction b as [| b IH]; intros g a g' a' es Hn Hp Hg Hd Hrun.
  - pose proof (ring_distance_bound ch Hn g). lia.
  - cbn [progress_loop] in Hrun.
    destruct (Z.eqb_spec g (cpu_put ch)) as [Heq | Hne].
    { inversion Hrun; subst. rewrite Z.eqb_refl.
      unfold ring_distance. rewrite Z.sub_diag, Z.mod_0_l by lia. reflexivity. }
    pose proof (ring_distance_next ch Hn Hp g Hg Hne) as Hnext.
    pose proof (ring_distance_bound ch Hn (u32 (g + 1) mod num_gpfifo_entries ch)).
    replace (Z.to_nat (ring_distance ch g))
      with (S (Z.to_nat (ring_distance ch (u32 (g + 1) mod num_gpfifo_entries ch))))
      by lia.
    rewrite ring_slots_S by assumption. cbn [find].
    destruct (gpfifo_entries ch !! Z.to_nat g) as [entry |] eqn:He; [| discriminate].
    unfold slot_is_pending at 1. rewrite He.
    cbn in Hrun.
    destruct (completed <? tracking_semaphore_value entry).
    { inversion Hrun; subst. destruct (Z.eqb_spec g' (cpu_put ch)); [contradiction |].
      reflexivity. }
    destruct (push_info entry) as [info |]; [| discriminate]. cbn in Hrun.
    destruct (progress_loop b _ _ _ _ _) as [[[g1 a1] e1] |] eqn:Hrec; [| discriminate].
    cbn in Hrun. inversion Hrun; subst.
    eapply IH; try eassumption.
    + apply next_slot_in_ring; assumption.
    + lia.
Qed.

Lemma first_pending_entry_spec ch :
  channel_wf ch ->
  exists ch' evs,
    uvm_channel_get_first_pending_entry ch =
      Some (first_pending_slot ch
              (snd (uvm_gpu_tracking_semaphore_update_completed_value (tracking_sem ch))),
            ch', evs) /\
    gpfifo_entries ch' = gpfifo_entries ch /\ cpu_put ch' = cpu_put ch /\
    match first_pending_slot ch
            (snd (uvm_gpu_tracking_semaphore_update_completed_value (tracking_sem ch)))
    with
    | Some index => index = gpu_get ch' /\ index <> cpu_put ch'
    | None => gpu_get ch' = cpu_put ch'
    end.
Proof.
  intros Hcwf. pose proof Hcwf as [Hring Hlen Hq Hslots].
  pose proof (ring_wf_bound ch Hring) as Hb. pose proof Hring as [Hn Hp Hg Hc].
  unfold uvm_channel_get_first_pending_entry, channel_update_progress_all.
  destruct (update_progress_no_fault ch (num_gpfifo_entries ch)
              UVM_CHANNEL_UPDATE_MODE_COMPLETED Hcwf) as [[[p1 ch1] e1] Hrun].
  rewrite Hrun. cbn [mbind option_bind].
  destruct (update_progress_run ch _ _ p1 ch1 e1 Hring Hrun)
    as (Hwf1 & Hp1 & Hpend & infos & Hch1 & _ & _ & _).
  rewrite update_progress_unfold in Hrun. cbv zeta in Hrun.
  destruct (progress_loop _ _ _ _ _ _) as [[[g a] es] |] eqn:Hloop; [| discriminate].
  cbn in Hrun. inversion Hrun; subst p1 ch1 e1. clear Hrun.
  apply progress_loop_first_pending in Hloop; try assumption; try lia.
  2: { assert (ring_distance ch (gpu_get ch) < num_gpfifo_entries ch)
         by (apply Z.mod_pos_bound; lia). lia. }
  unfold first_pending_slot, pending_slots.
  change (pending_count ch) with (ring_distance ch (gpu_get ch)).
  rewrite Hloop. cbn [gpu_get cpu_put set_progress set_tracking_sem gpfifo_entries].
  destruct Hwf1 as [_ _ Hg1 _]. cbn in Hg1.
  destruct (Z.eqb_spec g (cpu_put ch)) as [Heq | Hne].
  - subst g. rewrite Z.leb_refl, Z.sub_diag. cbn. do 2 eexists.
    split; [reflexivity |]. repeat split.
  - assert (Hnz : ((if g <=? cpu_put ch then cpu_put ch - g
                    else u32 (num_gpfifo_entries ch - g + cpu_put ch)) =? 0) = false).
    { apply Z.eqb_neq. destruct (Z.leb_spec g (cpu_put ch)); [lia |].
      rewrite u32_small by lia. lia. }
    rewrite Hnz. cbn. do 2 eexists. split; [reflexivity |]. repeat split.
    exact Hne.
Qed.

Lemma uvm_channel_get_status_ok ch gpu :
  uvm_channel_get_status ch gpu = NV_OK <-> errorNotifier_status ch = 0.
Proof.
  unfold uvm_channel_get_status.
  destruct (Z.eqb_spec (errorNotifier_status ch) 0) as [He | Hne].
  - split; auto.
  - destruct (_ && _); split; intros H; [discriminate | contradiction
                                         | discriminate | contradiction].
Qed.

(** C6.  [uvm_channel_get_status] answers [NV_OK] exactly when the error
    notifier word is zero; otherwise it answers the ECC error exactly when
    ECC is enabled and the ECC notifier is set, and the RC error if not.
    On an error, [uvm_channel_check_errors] returns that status, raises
    the process-wide fatal flag with it, and takes as fatal entry the
    first pending GPFIFO slot, which is then the slot at [gpu_get] and
    whose push is the one it reports; with no pending slot it reports
    none. *)
Theorem uvm_channel_check_errors_spec
    (ch : uvm_channel_t) (gpu : uvm_gpu_ecc) (fatal_error : NV_STATUS) :
  let status := uvm_channel_get_status ch gpu in
  let completed :=
    snd (uvm_gpu_tracking_semaphore_update_completed_value (tracking_sem ch)) in
  (status = NV_OK <-> errorNotifier_status ch = 0) /\
  (errorNotifier_status ch <> 0 ->
   (status = NV_ERR_ECC_ERROR <->
    ecc_enabled gpu = true /\ ecc_error_notifier gpu <> 0) /\
   (status = NV_ERR_RC_ERROR <->
    ~ (ecc_enabled gpu = true /\ ecc_error_notifier gpu <> 0))) /\
  (errorNotifier_status ch = 0 ->
   uvm_channel_check_errors ch gpu fatal_error = Some (NV_OK, ch, fatal_error, [])) /\
  (channel_wf ch -> errorNotifier_status ch <> 0 ->
   exists ch' fatal_error' progress_evs report,
     uvm_channel_get_fatal_entry ch =
       Some (first_pending_slot ch completed, ch', progress_evs) /\
     uvm_channel_check_errors ch gpu fatal_error =
       Some (status, ch', fatal_error',
             ev_err_channel_error :: progress_evs ++ report ++
             [ev_global_set_fatal_error status]) /\
     fatal_error' <> NV_OK /\
     (fatal_error = NV_OK -> fatal_error' = status) /\
     match first_pending_slot ch completed with
     | Some index =>
         index = gpu_get ch' /\ index <> cpu_put ch' /\
         exists info, slot_info ch' index = Some info /\
                      report = [ev_err_caused_by_push info]
     | None => gpu_get ch' = cpu_put ch' /\ report = []
     end).
Proof.
  intros status completed.
  pose proof (uvm_channel_get_status_ok ch gpu) as Hok. fold status in Hok.
  split; [exact Hok |]. split; [| split].
  - intros Hne. unfold status, uvm_channel_get_status.
    destruct (Z.eqb_spec (errorNotifier_status ch) 0) as [| _]; [contradiction |].
    destruct (ecc_enabled gpu), (Z.eqb_spec (ecc_error_notifier gpu) 0); cbn;
      intuition (discriminate || congruence).
  - intros Hz. unfold uvm_channel_check_errors. fold status.
    rewrite (proj2 Hok Hz). reflexivity.
  - intros Hcwf Hne.
    assert (Hst : status <> NV_OK) by (intros H; apply Hne, Hok, H).
    destruct (first_pending_entry_spec ch Hcwf)
      as (ch' & evs & Hrun & Hentries & Hput & Hslot).
    fold completed in Hrun, Hslot.
    unfold uvm_channel_check_errors. fold status.
    assert (Heqb : NV_STATUS_eqb status NV_OK = false).
    { destruct (NV_STATUS_eqb status NV_OK) eqn:E; [| reflexivity].
      apply NV_STATUS_eqb_eq in E. contradiction. }
    rewrite Heqb. unfold uvm_channel_get_fatal_entry. rewrite Hrun.
    cbn [mbind option_bind].
    assert (Hflag : uvm_global_set_fatal_error status fatal_error <> NV_OK /\
                    (fatal_error = NV_OK ->
                     uvm_global_set_fatal_error status fatal_error = status)).
    { unfold uvm_global_set_fatal_error.
      destruct (NV_STATUS_eqb fatal_error NV_OK) eqn:E.
      - split; [exact Hst | reflexivity].
      - split; [| intros ->; discriminate].
        intros H. rewrite H in E. discriminate. }
    destruct (first_pending_slot ch completed) as [index |] eqn:Hfirst.
    + assert (Hin : In index (pending_slots ch)).
      { unfold first_pending_slot in Hfirst. apply find_some in Hfirst. tauto. }
      pose proof (wf_pending_slots ch Hcwf) as Hall.
      rewrite List.Forall_forall in Hall.
      destruct (Hall index Hin) as (entry & info & He & Hi).
      rewrite Hentries, He. cbn. rewrite Hi. cbn.
      exists ch', (uvm_global_set_fatal_error status fatal_error), evs,
        [ev_err_caused_by_push info].
      split; [reflexivity |]. split; [reflexivity |].
      split; [apply Hflag |]. split; [apply Hflag |].
      split; [apply Hslot |]. split; [apply Hslot |].
      exists info. split; [| reflexivity].
      unfold slot_info. rewrite Hentries, He. exact Hi.
    + cbn. exists ch', (uvm_global_set_fatal_error status fatal_error), evs, [].
      split; [reflexivity |]. split; [reflexivity |].
      split; [apply Hflag |]. split; [apply Hflag |].
      split; [exact Hslot | reflexivity].
Qed.

Lemma uvm_channel_check_errors_spec_witness :
  channel_wf busy_channel /\
  errorNotifier_status busy_channel <> 0 /\
  uvm_channel_get_status busy_channel ecc_gpu = NV_ERR_ECC_ERROR /\
  exists ch' evs,
    uvm_channel_check_errors busy_channel ecc_gpu NV_OK =
      Some (NV_ERR_ECC_ERROR, ch', NV_ERR_ECC_ERROR, evs) /\
    gpu_get ch' = 2.
Proof.
  split; [exact busy_channel_wf |].
  destruct (uvm_channel_check_errors_spec busy_channel ecc_gpu NV_OK)
    as (_ & Hkind & _ & Herr).
  assert (Hne : errorNotifier_status busy_channel <> 0) by (vm_compute; lia).
  split; [exact Hne |]. split.
  - apply (Hkind Hne). split; [reflexivity | vm_compute; lia].
  - destruct (Herr busy_channel_wf Hne)
      as (ch' & f' & pevs & report & Hfatal & Hrun & _ & Hflag & Hslot).
    exists ch'. eexists. split.
    + rewrite Hrun, (Hflag eq_refl). reflexivity.
    + change (first_pending_slot busy_channel _) with (Some 2) in Hslot.
      symmetry. apply Hslot.
Defined.

(** ** Admission *)

Lemma channel_is_available_spec ch :
  ring_wf ch ->
  channel_is_available ch = true <->
  (cpu_put ch + current_pushes_count ch + 1) mod num_gpfifo_entries ch <> gpu_get ch.
Proof.
  intros Hwf. pose proof (ring_wf_bound ch Hwf). destruct Hwf as [Hn Hp Hg Hc].
  unfold channel_is_available. rewrite u32_small by lia.
  rewrite negb_true_iff, Z.eqb_neq. reflexivity.
Qed.

Lemma set_current_pushes_count_wf c ch :
  ring_wf ch -> 0 <= c < num_gpfifo_entries ch ->
  ring_wf (set_current_pushes_count c ch).
Proof. intros [Hn Hp Hg Hc] H. split; cbn; assumption. Qed.

Lemma try_claim_channel_granted ch :
  ring_wf ch -> channel_is_available ch = true ->
  try_claim_channel ch =
  (true, set_current_pushes_count (current_pushes_count ch + 1) ch).
Proof.
  intros Hwf Ha. pose proof (ring_wf_bound ch Hwf). destruct Hwf as [Hn Hp Hg Hc].
  unfold try_claim_channel. rewrite Ha, u32_small by lia. reflexivity.
Qed.

(** From an empty ring with [c] slots reserved, the next [k] claims are
    granted when [c + k = N - 1], and the one after them is not. *)
Lemma try_claim_channel_times_fill k : forall ch,
  ring_wf ch -> cpu_put ch = gpu_get ch ->
  current_pushes_count ch + Z.of_nat k = num_gpfifo_entries ch - 1 ->
  fst (try_claim_channel_times (S k) ch) = repeat true k ++ [false].
Proof.
  induction k as [| k IH]; intros ch Hwf Hidle Hk.
  - pose proof Hwf as [Hn Hp Hg Hc].
    assert (Ha : channel_is_available ch = false).
    { apply not_true_is_false. rewrite channel_is_available_spec by exact Hwf.
      intros Hne. apply Hne. rewrite mod_once by lia. lia. }
    cbn. unfold try_claim_channel. rewrite Ha. reflexivity.
  - pose proof Hwf as [Hn Hp Hg Hc].
    assert (Ha : channel_is_available ch = true).
    { apply channel_is_available_spec; [exact Hwf |].
      destruct (Z.lt_ge_cases (cpu_put ch + current_pushes_count ch + 1)
                              (num_gpfifo_entries ch)).
      - rewrite Z.mod_small by lia. lia.
      - rewrite mod_once by lia. lia. }
    change (try_claim_channel_times (S (S k)) ch)
      with (let '(claimed, ch0) := try_claim_channel ch in
            let '(rest, ch1) := try_claim_channel_times (S k) ch0 in
            (claimed :: rest, ch1)).
    rewrite try_claim_channel_granted by assumption.
    specialize (IH (set_current_pushes_count (current_pushes_count ch + 1) ch)).
    destruct (try_claim_channel_times (S k) _) as [rest ch1]. cbn [fst] in *.
    rewrite IH; [reflexivity | | assumption | cbn; lia].
    apply set_current_pushes_count_wf; [exact Hwf | lia].
Qed.

Lemma available_leaves_a_slot ch :
  ring_wf ch ->
  current_pushes_count ch + pending_count ch <= num_gpfifo_entries ch - 1 ->
  channel_is_available ch = true ->
  current_pushes_count ch + 1 + pending_count ch <= num_gpfifo_entries ch - 1.
Proof.
  intros Hwf Hcap Ha. pose proof (ring_wf_bound ch Hwf) as Hb.
  apply (channel_is_available_spec ch Hwf) in Ha.
  destruct Hwf as [Hn Hp Hg Hc].
  destruct (Z.eq_dec (current_pushes_count ch + pending_count ch)
                     (num_gpfifo_entries ch - 1)) as [Heq | Hne]; [| lia].
  exfalso. apply Ha. revert Heq.
  change (pending_count ch) with (ring_distance ch (gpu_get ch)).
  rewrite ring_distance_value by (assumption || lia).
  destruct (Z.leb_spec (gpu_get ch) (cpu_put ch)); intros Heq.
  - rewrite mod_once by lia. lia.
  - rewrite Z.mod_small by lia. lia.
Qed.

Lemma capacity_left_is_available ch :
  ring_wf ch ->
  current_pushes_count ch + 1 + pending_count ch <= num_gpfifo_entries ch - 1 ->
  channel_is_available ch = true.
Proof.
  intros Hwf Hcap. pose proof (ring_wf_bound ch Hwf) as Hb.
  apply (channel_is_available_spec ch Hwf).
  destruct Hwf as [Hn Hp Hg Hc]. revert Hcap.
  change (pending_count ch) with (ring_distance ch (gpu_get ch)).
  rewrite ring_distance_value by (assumption || lia).
  destruct (Z.leb_spec (gpu_get ch) (cpu_put ch)); intros Hcap.
  - destruct (Z.lt_ge_cases (cpu_put ch + current_pushes_count ch + 1)
                            (num_gpfifo_entries ch)).
    + rewrite Z.mod_small by lia. lia.
    + rewrite mod_once by lia. lia.
  - rewrite Z.mod_small by lia. lia.
Qed.

(** C1.  A claim is granted exactly when
    [(cpu_put + current_pushes_count + 1) mod N] differs from [gpu_get],
    a granted claim adds one to [current_pushes_count] and changes nothing
    else, a refused one changes nothing.  With [c] slots reserved and [d]
    entries pending, [c + d <= N - 1], the claim is granted exactly when
    [c + d < N - 1]; so on an empty ring of [N] slots on which nothing
    completes, [N] claims in a row are answered by [N - 1] grants
    followed by a refusal. *)
Theorem try_claim_channel_admission (ch : uvm_channel_t) :
  ring_wf ch ->
  let n := num_gpfifo_entries ch in
  (fst (try_claim_channel ch) = true <->
   (cpu_put ch + current_pushes_count ch + 1) mod n <> gpu_get ch) /\
  (fst (try_claim_channel ch) = true ->
   snd (try_claim_channel ch) =
   set_current_pushes_count (current_pushes_count ch + 1) ch) /\
  (fst (try_claim_channel ch) = false -> snd (try_claim_channel ch) = ch) /\
  (current_pushes_count ch + pending_count ch <= n - 1 ->
   (fst (try_claim_channel ch) = true <->
    current_pushes_count ch + pending_count ch < n - 1)) /\
  (cpu_put ch = gpu_get ch -> current_pushes_count ch = 0 ->
   fst (try_claim_channel_times (Z.to_nat n) ch) =
   repeat true (Z.to_nat (n - 1)) ++ [false]).
Proof.
  intros Hwf n. pose proof (channel_is_available_spec ch Hwf) as Hspec.
  fold n in Hspec.
  assert (Hfst : fst (try_claim_channel ch) = channel_is_available ch).
  { unfold try_claim_channel. destruct (channel_is_available ch); reflexivity. }
  rewrite Hfst. split; [exact Hspec |]. split; [| split; [| split]].
  - intros Ha. rewrite try_claim_channel_granted by assumption. reflexivity.
  - intros Ha. unfold try_claim_channel. rewrite Ha. reflexivity.
  - intros Hcap. split.
    + intros Ha. pose proof (available_leaves_a_slot ch Hwf Hcap Ha). lia.
    + intros Hlt. apply capacity_left_is_available; [exact Hwf | fold n; lia].
  - intros Hidle Hc. pose proof Hwf as [Hn _ _ _]. fold n in Hn.
    replace (Z.to_nat n) with (S (Z.to_nat (n - 1))) by lia.
    apply try_claim_channel_times_fill; [exact Hwf | exact Hidle |].
    fold n. lia.
Qed.

Lemma fresh_channel_1024_ring_wf : ring_wf fresh_channel_1024.
Proof. split; cbn; unfold UVM_CHANNEL_NUM_GPFIFO_ENTRIES_MAX; lia. Qed.

Lemma try_claim_channel_admission_witness :
  ring_wf fresh_channel_1024 /\
  fst (try_claim_channel fresh_channel_1024) = true /\
  fst (try_claim_channel_times 1024 fresh_channel_1024) =
  repeat true 1023 ++ [false].
Proof.
  split; [exact fresh_channel_1024_ring_wf |].
  pose proof (try_claim_channel_admission fresh_channel_1024
                fresh_channel_1024_ring_wf) as (H1 & _ & _ & _ & H4).
  split.
  - apply H1. vm_compute. lia.
  - apply (H4 eq_refl eq_refl).
Defined.

(** ** End of a push *)

(** C2.  With queued value [q], [cpu_put = p] and [c > 0] slots reserved,
    [uvm_channel_end_push] sets the queued value to [q + 1] (the 64-bit
    successor, which is the integer [q + 1] unless [q] is the last value
    of the type), releases the semaphore with the payload
    [(q + 1) mod 2^32], stores that tracking value into the GPFIFO entry at
    index [p], leaves [c - 1] slots reserved and publishes
    [cpu_put = (p + 1) mod N], also to the GPU. *)
Theorem uvm_channel_end_push_spec (ch : uvm_channel_t) (push : uvm_push_t) :
  ring_wf ch ->
  Z.of_nat (length (gpfifo_entries ch)) = num_gpfifo_entries ch ->
  is_u64 (queued_value (tracking_sem ch)) ->
  0 < current_pushes_count ch ->
  let q := queued_value (tracking_sem ch) in
  let p := cpu_put ch in
  let c := current_pushes_count ch in
  let n := num_gpfifo_entries ch in
  exists ch' push' entry,
    uvm_channel_end_push ch push =
      Some (ch', push',
            [ev_semaphore_release (tracking_sem_gpu_va ch) ((q + 1) mod 2 ^ 32);
             ev_set_gpfifo_entry p (push_pushbuffer_gpu_va push) (push_size push);
             ev_write_gpu_put ((p + 1) mod n);
             ev_pushbuffer_end_push p]) /\
    queued_value (tracking_sem ch') = u64 (q + 1) /\
    (q + 1 < 2 ^ 64 -> queued_value (tracking_sem ch') = q + 1) /\
    gpfifo_entries ch' !! Z.to_nat p = Some entry /\
    tracking_semaphore_value entry = queued_value (tracking_sem ch') /\
    (forall i, i <> Z.to_nat p -> gpfifo_entries ch' !! i = gpfifo_entries ch !! i) /\
    current_pushes_count ch' = c - 1 /\
    cpu_put ch' = (p + 1) mod n /\
    gpu_get ch' = gpu_get ch /\
    channel_tracking_value push' = queued_value (tracking_sem ch').
Proof.
  intros Hring Hlen Hq Hc q p c n. subst q p c n.
  pose proof (ring_wf_bound ch Hring) as Hb. destruct Hring as [Hn Hp Hg Hcc].
  unfold uvm_channel_end_push. cbv zeta.
  assert (Hin : negb (0 <=? cpu_put ch)
                || negb (cpu_put ch <? Z.of_nat (length (gpfifo_entries ch))) = false).
  { rewrite Hlen. apply orb_false_intro; apply negb_false_iff.
    - apply Z.leb_le. lia.
    - apply Z.ltb_lt. lia. }
  rewrite Hin, u32_of_u64.
  rewrite (u32_small (cpu_put ch + 1)) by lia.
  rewrite (u32_small (current_pushes_count ch - 1)) by lia.
  do 3 eexists. split.
  - reflexivity.
  - cbn [queued_value tracking_sem gpfifo_entries current_pushes_count cpu_put
         gpu_get channel_tracking_value].
    split; [reflexivity |]. split.
    { intros Hlt. apply u64_id. unfold is_u64, NvU64_modulus in *. lia. }
    split.
    { apply list_lookup_insert_eq. lia. }
    split; [reflexivity |]. split.
    { intros i Hi. apply list_lookup_insert_ne. congruence. }
    repeat split.
Qed.

Lemma reserved_channel_1024_wf : channel_wf reserved_channel_1024.
Proof.
  split.
  - split; cbn; unfold UVM_CHANNEL_NUM_GPFIFO_ENTRIES_MAX; lia.
  - reflexivity.
  - cbn. unfold is_u64, NvU64_modulus. lia.
  - apply Forall_nil_2.
Qed.

Lemma uvm_channel_end_push_spec_witness :
  ring_wf reserved_channel_1024 /\
  Z.of_nat (length (gpfifo_entries reserved_channel_1024)) =
    num_gpfifo_entries reserved_channel_1024 /\
  is_u64 (queued_value (tracking_sem reserved_channel_1024)) /\
  0 < current_pushes_count reserved_channel_1024 /\
  exists ch' push' evs,
    uvm_channel_end_push reserved_channel_1024 begun_push = Some (ch', push', evs) /\
    queued_value (tracking_sem ch') = 1 /\
    current_pushes_count ch' = 0 /\
    cpu_put ch' = 1.
Proof.
  pose proof reserved_channel_1024_wf as [Hring Hlen Hqueued _].
  split; [exact Hring |]. split; [exact Hlen |]. split; [exact Hqueued |].
  split; [reflexivity |].
  destruct (uvm_channel_end_push_spec reserved_channel_1024 begun_push
              Hring Hlen Hqueued eq_refl)
    as (ch' & push' & entry & Hrun & _ & Hq & _ & _ & _ & Hc & Hp & _).
  exists ch', push'. eexists. split; [exact Hrun |].
  split; [apply Hq; reflexivity |]. split; [exact Hc | exact Hp].
Defined.

(** ** The push-info free list *)

Lemma seq_offset s t : seq s t = map (Nat.add s) (seq 0 t).
Proof.
  revert s. induction t as [| t IH]; intros s; [reflexivity |].
  cbn [seq map]. rewrite Nat.add_0_r. f_equal.
  rewrite (IH (S s)), <- seq_shift, map_map. apply map_ext. intros i. lia.
Qed.

Lemma ring_slots_app g s t n :
  0 < n ->
  ring_slots g (s + t) n = ring_slots g s n ++ ring_slots ((g + Z.of_nat s) mod n) t n.
Proof.
  intros Hn. unfold ring_slots. rewrite seq_app, map_app. f_equal.
  rewrite (seq_offset (0 + s)), map_map. apply map_ext. intros i.
  rewrite Z.add_mod_idemp_l by lia. f_equal. lia.
Qed.

Lemma ring_slots_length g s n : length (ring_slots g s n) = s.
Proof. unfold ring_slots. rewrite length_map, length_seq. reflexivity. Qed.

Lemma ring_slots_not_in g d n :
  0 < n -> Z.of_nat d < n -> ~ In ((g + Z.of_nat d) mod n) (ring_slots g d n).
Proof.
  intros Hn Hd Hin. unfold ring_slots in Hin. apply in_map_iff in Hin.
  destruct Hin as (i & Heq & Hi). apply in_seq in Hi.
  pose proof (Z.div_mod (g + Z.of_nat i) n ltac:(lia)) as H1.
  pose proof (Z.div_mod (g + Z.of_nat d) n ltac:(lia)) as H2.
  rewrite Heq in H1.
  assert (Hq : Z.of_nat d - Z.of_nat i =
               n * ((g + Z.of_nat d) / n - (g + Z.of_nat i) / n)) by lia.
  assert (0 < (g + Z.of_nat d) / n - (g + Z.of_nat i) / n) by nia.
  nia.
Qed.

Lemma push_inv_free_list_length st :
  push_inv st ->
  Z.of_nat (length (available_push_infos (fst st))) + Z.of_nat (length (snd st)) +
  pending_count (fst st) = num_gpfifo_entries (fst st).
Proof.
  intros [Hring _ _ _ Hperm]. destruct Hring as [Hn _ _ _].
  apply Permutation_length in Hperm.
  rewrite !length_app, !length_map, length_seq in Hperm.
  unfold begun_infos, pending_slots in Hperm.
  rewrite length_map, ring_slots_length in Hperm.
  assert (0 <= pending_count (fst st)) by (apply Z.mod_pos_bound; lia).
  lia.
Qed.

Lemma push_inv_free_list_nonempty st :
  push_inv st -> available_push_infos (fst st) <> [].
Proof.
  intros Hinv Hnil. pose proof (push_inv_free_list_length st Hinv) as Hlen.
  destruct Hinv as [_ _ Hcap Hbegun _]. rewrite Hnil in Hlen. cbn in Hlen. lia.
Qed.

Lemma created_channel_inv conf out :
  0 < conf_num_gpfifo_entries conf <= UVM_CHANNEL_NUM_GPFIFO_ENTRIES_MAX ->
  push_inv (created_channel conf out, []).
Proof.
  intros Hn. split; cbn [fst snd].
  - split; cbn; lia.
  - cbn. rewrite repeat_length. lia.
  - unfold pending_count. cbn. rewrite Z.mod_0_l by lia. lia.
  - cbn. lia.
  - unfold pending_slots, pending_count. cbn.
    rewrite Z.mod_0_l by lia. cbn. rewrite app_nil_r. apply Permutation_refl.
Qed.

Lemma push_inv_claim ch ch' begun :
  try_claim_channel ch = (true, ch') ->
  push_inv (ch, begun) -> push_inv (ch', begun).
Proof.
  intros Hclaim [Hring Hlen Hcap Hbegun Hperm]. cbn [fst snd] in *.
  assert (Ha : channel_is_available ch = true).
  { unfold try_claim_channel in Hclaim.
    destruct (channel_is_available ch); [reflexivity | discriminate]. }
  rewrite try_claim_channel_granted in Hclaim by assumption.
  inversion Hclaim; subst ch'. clear Hclaim.
  pose proof (available_leaves_a_slot ch Hring Hcap Ha) as Hcap'.
  assert (0 <= pending_count ch)
    by (destruct Hring as [Hn _ _ _]; apply Z.mod_pos_bound; lia).
  split; cbn [fst snd].
  - apply set_current_pushes_count_wf; [exact Hring |].
    destruct Hring as [_ _ _ Hc]. lia.
  - exact Hlen.
  - exact Hcap'.
  - cbn. lia.
  - exact Hperm.
Qed.

Lemma push_inv_begin ch ch' begun push push' :
  Z.of_nat (length begun) < current_pushes_count ch ->
  uvm_channel_begin_push NV_OK ch push = Some (NV_OK, ch', push') ->
  push_inv (ch, begun) -> push_inv (ch', push' :: begun).
Proof.
  intros Hres Hrun [Hring Hlen Hcap Hbegun Hperm]. cbn [fst snd] in *.
  unfold uvm_channel_begin_push, channel_get_available_push_info_index in Hrun.
  cbn [NV_STATUS_eqb negb] in Hrun.
  destruct (available_push_infos ch) as [| info rest] eqn:Hav; [discriminate |].
  cbn in Hrun. inversion Hrun; subst ch' push'. clear Hrun.
  split; cbn [fst snd].
  - destruct Hring as [Hn Hp Hg Hc]. split; cbn; assumption.
  - exact Hlen.
  - exact Hcap.
  - cbn [length current_pushes_count set_available_push_infos]. lia.
  - cbn [begun_infos map push_info_index available_push_infos
         set_available_push_infos num_gpfifo_entries].
    rewrite Nat2Z.id. fold (begun_infos begun).
    etransitivity; [| exact Hperm].
    cbn [map app]. symmetry. apply Permutation_middle.
Qed.

Lemma push_inv_begin_refused ch ch' begun push push' status :
  status <> NV_OK ->
  uvm_channel_begin_push status ch push = Some (status, ch', push') ->
  push_inv (ch, begun) -> push_inv (ch', begun).
Proof.
  intros Hst Hrun Hinv. unfold uvm_channel_begin_push in Hrun.
  destruct (NV_STATUS_eqb status NV_OK) eqn:E.
  - apply NV_STATUS_eqb_eq in E. contradiction.
  - cbn in Hrun. inversion Hrun; subst. exact Hinv.
Qed.

Lemma push_inv_gpu ch begun payload status :
  push_inv (ch, begun) -> push_inv (gpu_writes payload status ch, begun).
Proof.
  intros [Hring Hlen Hcap Hbegun Hperm]. cbn [fst snd] in *.
  split; cbn [fst snd]; try assumption.
  destruct Hring as [Hn Hp Hg Hc]. split; cbn; assumption.
Qed.

Lemma push_inv_progress ch ch' begun k mode pending evs :
  uvm_channel_update_progress_with_max ch k mode = Some (pending, ch', evs) ->
  push_inv (ch, begun) -> push_inv (ch', begun).
Proof.
  intros Hrun [Hring Hlen Hcap Hbegun Hperm]. cbn [fst snd] in *.
  destruct (update_progress_run ch k mode pending ch' evs Hring Hrun)
    as (Hring' & Hpend & _ & infos & Hch' & _ & Hinfos & Hsplit).
  assert (Hpos' : 0 <= pending_count ch')
    by (destruct Hring' as [Hn _ _ _]; apply Z.mod_pos_bound; lia).
  assert (Hfields : num_gpfifo_entries ch' = num_gpfifo_entries ch /\
                    gpfifo_entries ch' = gpfifo_entries ch /\
                    current_pushes_count ch' = current_pushes_count ch /\
                    available_push_infos ch' = available_push_infos ch ++ infos).
  { rewrite Hch'. repeat split. }
  destruct Hfields as (HN & He & Hc & Ha).
  split; cbn [fst snd].
  - exact Hring'.
  - rewrite He, HN. exact Hlen.
  - rewrite Hc, HN. lia.
  - rewrite Hc. exact Hbegun.
  - rewrite HN, Ha. etransitivity; [| exact Hperm].
    unfold pending_slots.
    replace (Z.to_nat (pending_count ch))
      with (length evs + Z.to_nat (pending_count ch'))%nat by lia.
    rewrite Hsplit, HN, !map_app, <- Hinfos.
    assert (Hslot : map (slot_info ch') (ring_slots (gpu_get ch')
                      (Z.to_nat (pending_count ch')) (num_gpfifo_entries ch)) =
                    map (slot_info ch) (ring_slots (gpu_get ch')
                      (Z.to_nat (pending_count ch')) (num_gpfifo_entries ch))).
    { apply map_ext. intros index. unfold slot_info. rewrite He. reflexivity. }
    rewrite Hslot. rewrite <- !app_assoc. apply Permutation_app_head.
    rewrite !app_assoc. apply Permutation_app_tail. apply Permutation_app_comm.
Qed.

Lemma pending_count_after_end ch :
  ring_wf ch -> pending_count ch + 1 < num_gpfifo_entries ch ->
  (u32 (cpu_put ch + 1) mod num_gpfifo_entries ch - gpu_get ch)
    mod num_gpfifo_entries ch = pending_count ch + 1.
Proof.
  intros Hwf Hd. pose proof (ring_wf_bound ch Hwf) as Hb.
  destruct Hwf as [Hn Hp Hg Hc].
  assert (Hsize : 0 < num_gpfifo_entries ch <= 1048576) by lia.
  revert Hd. change (pending_count ch) with (ring_distance ch (gpu_get ch)).
  rewrite ring_distance_value by (assumption || lia).
  rewrite next_slot_value by (assumption || lia).
  destruct (Z.ltb_spec (cpu_put ch + 1) (num_gpfifo_entries ch));
    destruct (Z.leb_spec (gpu_get ch) (cpu_put ch)); intros Hd.
  - rewrite Z.mod_small by lia. lia.
  - destruct (Z.eq_dec (gpu_get ch) (cpu_put ch + 1)); [lia |].
    symmetry. apply Z.mod_unique with (q := -1); lia.
  - destruct (Z.eq_dec (gpu_get ch) 0); [lia |].
    symmetry. apply Z.mod_unique with (q := -1); lia.
  - lia.
Qed.

Lemma pending_slot_at_cpu_put ch :
  ring_wf ch ->
  (gpu_get ch + Z.of_nat (Z.to_nat (pending_count ch))) mod num_gpfifo_entries ch =
  cpu_put ch.
Proof.
  intros [Hn Hp Hg Hc].
  assert (0 <= pending_count ch) by (apply Z.mod_pos_bound; lia).
  rewrite Z2Nat.id by lia. unfold pending_count.
  rewrite Z.add_mod_idemp_r by lia.
  replace (gpu_get ch + (cpu_put ch - gpu_get ch)) with (cpu_put ch) by lia.
  apply Z.mod_small. lia.
Qed.

Lemma push_inv_end ch ch' begun1 push begun2 push' evs :
  uvm_channel_end_push ch push = Some (ch', push', evs) ->
  push_inv (ch, begun1 ++ push :: begun2) -> push_inv (ch', begun1 ++ begun2).
Proof.
  intros Hrun [Hring Hlen Hcap Hbegun Hperm]. cbn [fst snd] in *.
  pose proof (ring_wf_bound ch Hring) as Hb. pose proof Hring as [Hn Hp Hg Hc].
  assert (Hpos : 0 <= pending_count ch) by (apply Z.mod_pos_bound; lia).
  rewrite length_app in Hbegun. cbn [length] in Hbegun.
  assert (Hd : pending_count ch + 1 < num_gpfifo_entries ch) by lia.
  unfold uvm_channel_end_push in Hrun. cbv zeta in Hrun.
  destruct (negb (0 <=? cpu_put ch) || _); [discriminate |].
  inversion Hrun; subst ch' push' evs. clear Hrun.
  rewrite (u32_small (current_pushes_count ch - 1)) by lia.
  set (entry := {| tracking_semaphore_value := _ |}).
  set (ch' := {| num_gpfifo_entries := _ |}).
  assert (Hpend : pending_count ch' = pending_count ch + 1).
  { unfold pending_count, ch'. cbn [cpu_put gpu_get num_gpfifo_entries].
    apply pending_count_after_end; assumption. }
  assert (Hslots : pending_slots ch' = pending_slots ch ++ [cpu_put ch]).
  { unfold pending_slots. rewrite Hpend. unfold ch'.
    cbn [gpu_get num_gpfifo_entries].
    replace (Z.to_nat (pending_count ch + 1))
      with (Z.to_nat (pending_count ch) + 1)%nat by lia.
    rewrite ring_slots_app by lia. rewrite pending_slot_at_cpu_put by exact Hring.
    unfold ring_slots at 2. cbn [seq map].
    rewrite Z.add_0_r, Z.mod_small by lia. reflexivity. }
  assert (Hold : map (slot_info ch') (pending_slots ch) =
                 map (slot_info ch) (pending_slots ch)).
  { apply map_ext_in. intros index Hin. unfold slot_info, ch'.
    cbn [gpfifo_entries]. rewrite list_lookup_insert_ne; [reflexivity |].
    intros Heq.
    assert (Hidx : 0 <= index).
    { unfold pending_slots, ring_slots in Hin. apply in_map_iff in Hin.
      destruct Hin as (i & <- & _). apply Z.mod_pos_bound. lia. }
    assert (index = cpu_put ch) by lia. subst index.
    revert Hin. rewrite <- (pending_slot_at_cpu_put ch Hring) at 1.
    apply ring_slots_not_in; lia. }
  assert (Hnew : slot_info ch' (cpu_put ch) = Some (Z.to_nat (push_info_index push))).
  { unfold slot_info, ch'. cbn [gpfifo_entries].
    rewrite list_lookup_insert_eq by lia. reflexivity. }
  split; cbn [fst snd].
  - split; unfold ch'; cbn; try assumption; try lia.
    apply next_slot_in_ring; (assumption || lia).
  - unfold ch'. cbn [gpfifo_entries num_gpfifo_entries].
    rewrite length_insert. exact Hlen.
  - rewrite Hpend. unfold ch'. cbn [current_pushes_count num_gpfifo_entries]. lia.
  - rewrite length_app. unfold ch'. cbn [current_pushes_count]. lia.
  - rewrite Hslots, map_app, Hold. cbn [map]. rewrite Hnew.
    change (num_gpfifo_entries ch') with (num_gpfifo_entries ch).
    change (available_push_infos ch') with (available_push_infos ch).
    etransitivity; [| exact Hperm].
    apply Permutation_app_head.
    unfold begun_infos. rewrite !map_app. cbn [map].
    set (x := Some (Z.to_nat (push_info_index push))).
    set (B1 := map Some (map _ begun1)). set (B2 := map Some (map _ begun2)).
    set (S := map (slot_info ch) (pending_slots ch)).
    transitivity (x :: (B1 ++ B2) ++ S).
    + rewrite app_assoc. symmetry. apply Permutation_cons_append.
    + rewrite <- !app_assoc. cbn [app]. apply Permutation_middle.
Qed.

Lemma push_inv_step st st' : push_step st st' -> push_inv st -> push_inv st'.
Proof.
  intros Hstep. destruct Hstep.
  - eapply push_inv_claim; eassumption.
  - eapply push_inv_begin; eassumption.
  - eapply push_inv_begin_refused; eassumption.
  - eapply push_inv_end; eassumption.
  - eapply push_inv_progress; eassumption.
  - apply push_inv_gpu.
Qed.

Lemma configured_ring_size params gpu :
  0 < conf_num_gpfifo_entries (fst (init_channel_manager_conf params gpu))
    <= UVM_CHANNEL_NUM_GPFIFO_ENTRIES_MAX.
Proof.
  rewrite init_channel_manager_conf_num, init_conf_num_gpfifo_entries_clamp.
  cbv zeta. unfold clamp_num_gpfifo_entries, UVM_CHANNEL_NUM_GPFIFO_ENTRIES_MAX.
  change (2 ^ 20) with 1048576. change (1024 * 1024) with 1048576.
  destruct (is_power_of_2 _); lia.
Qed.

Lemma reachable_inv params gpu out st : reachable params gpu out st -> push_inv st.
Proof.
  unfold reachable. revert st. apply rtc_ind_r.
  - apply created_channel_inv, configured_ring_size.
  - intros st st' _ Hstep Hinv. eapply push_inv_step; eassumption.
Qed.

(** C9.  A channel is created with as many push infos on its free list as
    its ring has entries.  In every state its clients can reach from
    there by claiming slots, beginning pushes on claimed slots, ending
    them and updating progress, a push that begins on a slot that was
    claimed finds the free list non-empty: detaching the head succeeds,
    the assertion on it cannot fail. *)
Theorem push_info_free_list_never_empty
    (params : module_params) (gpu : conf_gpu_info) (out : channel_outcome)
    (st : client_state) :
  reachable params gpu out st ->
  Z.of_nat (length (snd st)) < current_pushes_count (fst st) ->
  length (available_push_infos
            (created_channel (fst (init_channel_manager_conf params gpu)) out)) =
    Z.to_nat (num_gpfifo_entries
                (created_channel (fst (init_channel_manager_conf params gpu)) out)) /\
  (2 <= length (available_push_infos (fst st)))%nat /\
  exists index ch',
    channel_get_available_push_info_index (fst st) = Some (index, ch') /\
    available_push_infos ch' <> [] /\
    forall push, exists push',
      uvm_channel_begin_push NV_OK (fst st) push = Some (NV_OK, ch', push').
Proof.
  intros Hreach Hreserved. split; [apply length_seq |].
  pose proof (reachable_inv _ _ _ _ Hreach) as Hinv.
  pose proof (push_inv_free_list_length st Hinv) as Hlen.
  assert (Htwo : (2 <= length (available_push_infos (fst st)))%nat).
  { destruct Hinv as [_ _ Hcap _ _]. lia. }
  split; [exact Htwo |].
  unfold uvm_channel_begin_push, channel_get_available_push_info_index.
  destruct (available_push_infos (fst st)) as [| info [| info' rest]];
    [cbn in Htwo; lia | cbn in Htwo; lia |].
  do 2 eexists. split; [reflexivity |]. split; [discriminate |].
  intros push. eexists. reflexivity.
Qed.

Lemma push_info_free_list_never_empty_witness :
  reachable default_params discrete_gpu all_ok_channel claimed_state /\
  Z.of_nat (length (snd claimed_state)) < current_pushes_count (fst claimed_state) /\
  exists index ch',
    channel_get_available_push_info_index (fst claimed_state) = Some (index, ch').
Proof.
  assert (Hreach : reachable default_params discrete_gpu all_ok_channel claimed_state).
  { apply rtc_once. apply step_claim. vm_compute. reflexivity. }
  assert (Hres : Z.of_nat (length (snd claimed_state))
                 < current_pushes_count (fst claimed_state)) by reflexivity.
  split; [exact Hreach |]. split; [exact Hres |].
  destruct (push_info_free_list_never_empty default_params discrete_gpu
              all_ok_channel claimed_state Hreach Hres)
    as (_ & _ & index & ch' & Hget & _).
  exists index, ch'. exact Hget.
Defined.

(** * Further properties *)

(** ** Location strings and the configuration *)

(** X1.  Converting a buffer location to its string and back gives the
    location again; converting a string to a location and back gives the
    string itself when it is "sys", "vid" or "auto", and "auto" for any
    other string. *)
Theorem buffer_location_string_round_trip :
  (forall loc, string_to_buffer_location (buffer_location_to_string loc) = loc) /\
  (forall s, valid_location_string s ->
     buffer_location_to_string (string_to_buffer_location s) = s) /\
  (forall s, ~ valid_location_string s ->
     buffer_location_to_string (string_to_buffer_location s) = "auto"%string).
Proof.
  split; [intros []; reflexivity |]. split.
  - intros s [-> | [-> | ->]]; reflexivity.
  - intros s Hs. unfold string_to_buffer_location, strcmp_eq0.
    destruct (String.eqb_spec s "sys") as [-> | _].
    { exfalso. apply Hs. left. reflexivity. }
    destruct (String.eqb_spec s "vid") as [-> | _].
    { exfalso. apply Hs. right. left. reflexivity. }
    reflexivity.
Qed.

Lemma power_of_two_in_range c :
  32 <= c <= 2 ^ 20 -> is_power_of_2 c = true ->
  exists k, 5 <= k <= 20 /\ c = 2 ^ k.
Proof.
  intros Hc Hp. apply is_power_of_2_inv in Hp. destruct Hp as (k & Hk & ->).
  exists k. split; [| reflexivity].
  split.
  - destruct (Z.lt_ge_cases k 5) as [Hlt | Hge]; [| exact Hge].
    assert (2 ^ k < 2 ^ 5) by (apply Z.pow_lt_mono_r; lia).
    change (2 ^ 5) with 32 in *. lia.
  - destruct (Z.le_gt_cases k 20) as [Hle | Hgt]; [exact Hle |].
    assert (2 ^ 20 < 2 ^ k) by (apply Z.pow_lt_mono_r; lia). lia.
Qed.

(** X2.  The number of GPFIFO entries the manager is configured with is
    always a power of two between [2^5] and [2^20]; it is the configured
    module parameter exactly when that already is one, and exactly then
    no line about it is logged. *)
Theorem init_conf_num_gpfifo_entries_valid (params : module_params) :
  let v := uvm_channel_num_gpfifo_entries params in
  let n := fst (init_conf_num_gpfifo_entries params) in
  (exists k, 5 <= k <= 20 /\ n = 2 ^ k) /\
  (n = v <-> exists k, 5 <= k <= 20 /\ v = 2 ^ k) /\
  (snd (init_conf_num_gpfifo_entries params) = [] <-> n = v) /\
  (forall gpu,
     conf_num_gpfifo_entries (fst (init_channel_manager_conf params gpu)) = n).
Proof.
  intros v n.
  assert (Hn : n = if is_power_of_2 (clamp_num_gpfifo_entries v)
                   then clamp_num_gpfifo_entries v else 1024)
    by apply init_conf_num_gpfifo_entries_clamp.
  assert (Hrange : 32 <= clamp_num_gpfifo_entries v <= 2 ^ 20)
    by (unfold clamp_num_gpfifo_entries; lia).
  assert (Hvalid : exists k, 5 <= k <= 20 /\ n = 2 ^ k).
  { rewrite Hn. destruct (is_power_of_2 (clamp_num_gpfifo_entries v)) eqn:E.
    - apply power_of_two_in_range; assumption.
    - exists 10. split; [lia | reflexivity]. }
  split; [exact Hvalid |]. split; [| split].
  - split.
    + intros <-. exact Hvalid.
    + intros (k & Hk & Hv). rewrite Hn.
      assert (Hv32 : 32 <= v <= 2 ^ 20).
      { rewrite Hv. change 32 with (2 ^ 5). split; apply Z.pow_le_mono_r; lia. }
      assert (Hc : clamp_num_gpfifo_entries v = v)
        by (unfold clamp_num_gpfifo_entries; lia).
      rewrite Hc, Hv, is_power_of_2_pow2 by lia. reflexivity.
  - unfold n, init_conf_num_gpfifo_entries. cbn [fst snd]. cbv zeta. fold v.
    match goal with
    | |- context [?a =? v] => destruct (Z.eqb_spec a v) as [He | Hne]
    end; cbn [negb]; split; intros H; try assumption; try reflexivity;
      try discriminate; contradiction.
  - intros gpu. apply init_channel_manager_conf_num.
Qed.

(** Case analysis of [init_channel_manager_conf] on the parameters it
    compares. *)
Ltac string_case s t :=
  let E := fresh "E" in
  destruct (String.eqb s t) eqn:E; [apply String.eqb_eq in E; try subst s |].

Ltac rewrite_eqb :=
  repeat match goal with
         | H : String.eqb _ _ = false |- _ => rewrite H
         end.

Ltac eqb_to_neq :=
  repeat match goal with
         | H : String.eqb _ _ = false |- _ => apply String.eqb_neq in H
         end.

Ltac conf_cases params gpu :=
  destruct params as [given gpfifo_s gpput_s pushbuffer_s];
  destruct gpu as [mem vidmem nvlink2 aarch64];
  unfold init_channel_manager_conf, checked_location, is_string_valid_location,
    string_to_buffer_location, strcmp_eq0, valid_location_string,
    UVM_CHANNEL_PUSHBUFFER_LOC_DEFAULT, UVM_CHANNEL_GPFIFO_LOC_DEFAULT,
    UVM_CHANNEL_GPPUT_LOC_DEFAULT;
  cbn [uvm_channel_gpfifo_loc uvm_channel_gpput_loc uvm_channel_pushbuffer_loc
       mem_info_size gpfifo_in_vidmem_supported sysmem_link_at_least_nvlink_2
       NVCPU_IS_AARCH64];
  destruct (init_conf_num_gpfifo_entries _) as [num log1];
  destruct (Z.eqb_spec mem 0);
  [| string_case gpfifo_s "sys"%string;
     [| string_case gpfifo_s "vid"%string;
        [| string_case gpfifo_s "auto"%string]];
     (string_case pushbuffer_s "vid"%string);
     (string_case gpput_s "sys"%string;
      [| string_case gpput_s "vid"%string]);
     destruct aarch64, vidmem, nvlink2];
  repeat (cbn; rewrite_eqb); eqb_to_neq.

(** X3.  The pushbuffer is never left at the default location: it is
    placed in system memory unless the GPU has memory, the build is not
    AArch64 and [uvm_channel_pushbuffer_loc] is "vid"; with a valid
    [uvm_channel_gpfifo_loc] that is also enough to place it in video
    memory. *)
Theorem init_conf_pushbuffer_loc (params : module_params) (gpu : conf_gpu_info) :
  let conf := fst (init_channel_manager_conf params gpu) in
  conf_pushbuffer_loc conf <> UVM_BUFFER_LOCATION_DEFAULT /\
  (conf_pushbuffer_loc conf = UVM_BUFFER_LOCATION_VID ->
   mem_info_size gpu <> 0 /\ NVCPU_IS_AARCH64 gpu = false /\
   uvm_channel_pushbuffer_loc params = "vid"%string) /\
  (valid_location_string (uvm_channel_gpfifo_loc params) ->
   mem_info_size gpu <> 0 -> NVCPU_IS_AARCH64 gpu = false ->
   uvm_channel_pushbuffer_loc params = "vid"%string ->
   conf_pushbuffer_loc conf = UVM_BUFFER_LOCATION_VID).
Proof.
  cbv zeta. conf_cases params gpu; intuition (discriminate || congruence).
Qed.

Lemma num_log_no_caution params :
  ~ In info_caution_gpput_in_sysmem (snd (init_conf_num_gpfifo_entries params)).
Proof.
  unfold init_conf_num_gpfifo_entries. cbn [snd]. cbv zeta.
  destruct (negb (_ =? _)); cbn; intuition discriminate.
Qed.

(** X4.  On a GPU without memory the three locations are system memory
    and the location strings are not even looked at.  Otherwise, without
    support for GPFIFO in video memory, GPFIFO and GPPUT stay at the
    default location; with it, neither is left at the default, the
    caution about GPPUT in system memory is logged exactly when GPPUT is
    placed there, and with a valid [uvm_channel_gpfifo_loc] the GPFIFO
    follows that string ("auto" meaning system memory behind a fast
    link and video memory if not) and GPPUT is in system memory exactly
    when [uvm_channel_gpput_loc] is "sys". *)
Theorem init_conf_gpfifo_gpput_loc (params : module_params) (gpu : conf_gpu_info) :
  let conf := fst (init_channel_manager_conf params gpu) in
  let log := snd (init_channel_manager_conf params gpu) in
  (mem_info_size gpu = 0 ->
   conf_gpfifo_loc conf = UVM_BUFFER_LOCATION_SYS /\
   conf_gpput_loc conf = UVM_BUFFER_LOCATION_SYS /\
   conf_pushbuffer_loc conf = UVM_BUFFER_LOCATION_SYS /\
   log = snd (init_conf_num_gpfifo_entries params)) /\
  (mem_info_size gpu <> 0 -> gpfifo_in_vidmem_supported gpu = false ->
   conf_gpfifo_loc conf = UVM_BUFFER_LOCATION_DEFAULT /\
   conf_gpput_loc conf = UVM_BUFFER_LOCATION_DEFAULT) /\
  (mem_info_size gpu <> 0 -> gpfifo_in_vidmem_supported gpu = true ->
   conf_gpfifo_loc conf <> UVM_BUFFER_LOCATION_DEFAULT /\
   conf_gpput_loc conf <> UVM_BUFFER_LOCATION_DEFAULT /\
   (In info_caution_gpput_in_sysmem log <->
    conf_gpput_loc conf = UVM_BUFFER_LOCATION_SYS) /\
   (valid_location_string (uvm_channel_gpfifo_loc params) ->
    conf_gpfifo_loc conf =
      (if String.eqb (uvm_channel_gpfifo_loc params) "auto"
       then if sysmem_link_at_least_nvlink_2 gpu
            then UVM_BUFFER_LOCATION_SYS else UVM_BUFFER_LOCATION_VID
       else string_to_buffer_location (uvm_channel_gpfifo_loc params)) /\
    (conf_gpput_loc conf = UVM_BUFFER_LOCATION_SYS <->
     uvm_channel_gpput_loc params = "sys"%string))).
Proof.
  cbv zeta. generalize (num_log_no_caution params). conf_cases params gpu.
  all: repeat rewrite in_app_iff; cbn [In].
  all: intuition (discriminate || congruence).
Qed.

(** ** What a progress update reclaims *)

Lemma ring_slots_take g s t n :
  0 < n -> take s (ring_slots g (s + t) n) = ring_slots g s n.
Proof.
  intros Hn. rewrite ring_slots_app by exact Hn.
  rewrite take_app_length'; [reflexivity | symmetry; apply ring_slots_length].
Qed.

Lemma update_progress_reclaims ch k mode pending ch' evs :
  ring_wf ch ->
  uvm_channel_update_progress_with_max ch k mode = Some (pending, ch', evs) ->
  let s := length evs in
  Z.of_nat s <= Z.max 0 k /\
  Z.of_nat s <= pending_count ch /\
  pending = pending_count ch - Z.of_nat s /\
  pending_count ch' = pending /\
  evs = map ev_pushbuffer_mark_completed (take s (pending_slots ch)) /\
  pending_slots ch' = drop s (pending_slots ch) /\
  (exists infos,
     available_push_infos ch' = available_push_infos ch ++ infos /\
     map Some infos = map (slot_info ch) (take s (pending_slots ch))) /\
  (mode = UVM_CHANNEL_UPDATE_MODE_COMPLETED ->
   Forall (fun index => slot_is_pending ch (refreshed_completed_value ch) index = false)
          (take s (pending_slots ch))) /\
  (Z.of_nat s < k ->
   loop_stops ch mode (refreshed_completed_value ch) (gpu_get ch')) /\
  num_gpfifo_entries ch' = num_gpfifo_entries ch /\
  cpu_put ch' = cpu_put ch /\
  current_pushes_count ch' = current_pushes_count ch /\
  gpfifo_entries ch' = gpfifo_entries ch /\
  queued_value (tracking_sem ch') = queued_value (tracking_sem ch) /\
  ring_wf ch'.
Proof.
  intros Hwf Hrun s. pose proof (ring_wf_bound ch Hwf) as Hb.
  pose proof Hwf as [Hn Hp Hg Hc].
  rewrite update_progress_unfold in Hrun. cbv zeta in Hrun.
  fold (refreshed_completed_value ch) in Hrun.
  destruct (progress_loop _ _ _ _ _ _) as [[[g a] es] |] eqn:Hloop; [| discriminate].
  cbn in Hrun. inversion Hrun; subst pending ch' evs. clear Hrun.
  apply progress_loop_run in Hloop; try assumption; try lia.
  destruct Hloop
    as (s' & infos & Hsb & Hsd & Hg' & Hd & Hes & Ha & Hinfos & Hdone & Hstop & Hsplit).
  assert (Hlen : s = s').
  { unfold s. rewrite Hes, length_map. apply ring_slots_length. }
  rewrite <- Hlen in *. clear Hlen s'.
  change (ring_distance ch (gpu_get ch)) with (pending_count ch) in *.
  assert (Hpos : 0 <= ring_distance ch g) by (apply Z.mod_pos_bound; lia).
  assert (Hslots : pending_slots ch =
                   ring_slots (gpu_get ch) s (num_gpfifo_entries ch) ++
                   ring_slots g (Z.to_nat (ring_distance ch g)) (num_gpfifo_entries ch)).
  { unfold pending_slots. rewrite <- Hsplit. f_equal. lia. }
  assert (Htake : take s (pending_slots ch) =
                  ring_slots (gpu_get ch) s (num_gpfifo_entries ch)).
  { rewrite Hslots. apply take_app_length'. symmetry. apply ring_slots_length. }
  assert (Hpend : (if g <=? cpu_put ch then cpu_put ch - g
                   else u32 (num_gpfifo_entries ch - g + cpu_put ch))
                  = ring_distance ch g).
  { rewrite (ring_distance_value ch) by (assumption || lia).
    destruct (g <=? cpu_put ch); [reflexivity |]. rewrite u32_small by lia. lia. }
  rewrite Hpend, Htake.
  cbn [num_gpfifo_entries cpu_put current_pushes_count gpfifo_entries gpu_get
       available_push_infos tracking_sem set_progress set_tracking_sem
       queued_value fst].
  repeat split; try assumption; try lia; try (cbn; lia).
  - rewrite Hslots. rewrite drop_app_length'; [reflexivity | symmetry; apply ring_slots_length].
  - exists infos. split; assumption.
  - intros Hm. eapply List.Forall_impl; [| exact Hdone]. intros index Hi. exact (Hi Hm).
  - intros Hk. apply Hstop. lia.
Qed.

Lemma update_progress_keeps_wf ch k mode pending ch' evs :
  channel_wf ch ->
  uvm_channel_update_progress_with_max ch k mode = Some (pending, ch', evs) ->
  channel_wf ch'.
Proof.
  intros [Hring Hlen Hq Hslots] Hrun.
  destruct (update_progress_reclaims ch k mode pending ch' evs Hring Hrun)
    as (_ & _ & _ & _ & _ & Hdrop & _ & _ & _ & HN & _ & _ & He & Hqv & Hring').
  split.
  - exact Hring'.
  - rewrite He, HN. exact Hlen.
  - rewrite Hqv. exact Hq.
  - rewrite Hdrop. apply Forall_drop.
    eapply List.Forall_impl; [| exact Hslots].
    intros index Hi. unfold slot_has_push_info in *. rewrite He. exact Hi.
Qed.

(** X5.  A progress update on a well-formed channel does not fault.  It
    reclaims the first [s] pending entries in ring order, [s] being at most
    [max_to_complete] and at most the number of pending entries: each is
    handed to the pushbuffer once, its push info goes to the tail of the
    free list, [gpu_get] moves past it and the value returned is the
    number of entries still pending.  In COMPLETED mode no reclaimed entry
    has a tracking value above the completed value.  The ring size,
    [cpu_put], the reservations and the entries are left alone, and the
    channel stays well formed. *)
Theorem update_progress_with_max_accounting
    (ch : uvm_channel_t) (k : Z) (mode : uvm_channel_update_mode_t) :
  channel_wf ch ->
  exists pending ch' evs,
    uvm_channel_update_progress_with_max ch k mode = Some (pending, ch', evs) /\
    Z.of_nat (length evs) <= Z.max 0 k /\
    pending = pending_count ch - Z.of_nat (length evs) /\
    pending_count ch' = pending /\
    evs = map ev_pushbuffer_mark_completed (take (length evs) (pending_slots ch)) /\
    pending_slots ch' = drop (length evs) (pending_slots ch) /\
    (exists infos,
       available_push_infos ch' = available_push_infos ch ++ infos /\
       map Some infos =
         map (slot_info ch) (take (length evs) (pending_slots ch))) /\
    (mode = UVM_CHANNEL_UPDATE_MODE_COMPLETED ->
     Forall (fun index =>
               slot_is_pending ch (refreshed_completed_value ch) index = false)
            (take (length evs) (pending_slots ch))) /\
    num_gpfifo_entries ch' = num_gpfifo_entries ch /\
    cpu_put ch' = cpu_put ch /\
    current_pushes_count ch' = current_pushes_count ch /\
    gpfifo_entries ch' = gpfifo_entries ch /\
    channel_wf ch'.
Proof.
  intros Hwf. destruct (update_progress_no_fault ch k mode Hwf) as [[[p ch'] evs] Hrun].
  exists p, ch', evs. split; [exact Hrun |].
  destruct (update_progress_reclaims ch k mode p ch' evs (wf_ring ch Hwf) Hrun)
    as (H1 & _ & H3 & H4 & H5 & H6 & H7 & H8 & _ & H10 & H11 & H12 & H13 & _ & _).
  repeat (split; [assumption |]).
  eapply update_progress_keeps_wf; eassumption.
Qed.

Lemma update_progress_with_max_accounting_witness :
  channel_wf busy_channel /\
  exists pending ch' evs,
    uvm_channel_update_progress_with_max busy_channel 1
      UVM_CHANNEL_UPDATE_MODE_COMPLETED = Some (pending, ch', evs) /\
    pending = pending_count busy_channel - Z.of_nat (length evs) /\
    channel_wf ch'.
Proof.
  split; [exact busy_channel_wf |].
  destruct (update_progress_with_max_accounting busy_channel 1
              UVM_CHANNEL_UPDATE_MODE_COMPLETED busy_channel_wf)
    as (p & ch' & evs & Hrun & _ & Hp & _ & _ & _ & _ & _ & _ & _ & _ & _ & Hwf).
  exists p, ch', evs. split; [exact Hrun | split; [exact Hp | exact Hwf]].
Defined.

(** X6.  A forced update of all entries, as [channel_destroy] runs it,
    empties the ring of a well-formed channel: every pending entry is
    handed to the pushbuffer, once and in ring order, whatever its
    tracking value, the call returns 0 and [gpu_get] meets [cpu_put]. *)
Theorem channel_update_progress_all_force (ch : uvm_channel_t) :
  channel_wf ch ->
  exists ch',
    channel_update_progress_all ch UVM_CHANNEL_UPDATE_MODE_FORCE_ALL =
      Some (0, ch', map ev_pushbuffer_mark_completed (pending_slots ch)) /\
    gpu_get ch' = cpu_put ch /\
    pending_slots ch' = [] /\
    Z.of_nat (length (available_push_infos ch')) =
      Z.of_nat (length (available_push_infos ch)) + pending_count ch.
Proof.
  intros Hwf. pose proof (wf_ring ch Hwf) as Hring.
  pose proof Hring as [Hn Hp Hg Hc].
  unfold channel_update_progress_all.
  destruct (update_progress_no_fault ch (num_gpfifo_entries ch)
              UVM_CHANNEL_UPDATE_MODE_FORCE_ALL Hwf) as [[[p ch'] evs] Hrun].
  destruct (update_progress_reclaims ch _ _ p ch' evs Hring Hrun)
    as (_ & Hsd & Hpend & Hpend' & Hevs & Hdrop & (infos & Ha & Hinfos) & _ & Hstop
        & HN & Hput & _ & _ & _ & Hring').
  assert (Hd : pending_count ch < num_gpfifo_entries ch)
    by (apply Z.mod_pos_bound; lia).
  destruct (Hstop ltac:(lia)) as [Hg' | (entry & _ & Hm & _)]; [| discriminate].
  assert (Hzero : pending_count ch' = 0).
  { unfold pending_count. rewrite Hg', Hput, Z.sub_diag. apply Z.mod_0_l. lia. }
  assert (Hs : length evs = Z.to_nat (pending_count ch)) by lia.
  assert (Hall : take (length evs) (pending_slots ch) = pending_slots ch).
  { apply take_ge. unfold pending_slots. rewrite ring_slots_length. lia. }
  rewrite Hall in Hevs, Hinfos.
  exists ch'. rewrite Hrun, Hevs. replace p with 0 by lia.
  split; [reflexivity |]. split; [exact Hg' |]. split.
  - unfold pending_slots. rewrite Hzero. reflexivity.
  - rewrite Ha, length_app.
    assert (length infos = length (pending_slots ch)).
    { rewrite <- (length_map Some infos), Hinfos, length_map. reflexivity. }
    unfold pending_slots in *. rewrite ring_slots_length in *. lia.
Qed.

Lemma channel_update_progress_all_force_witness :
  channel_wf busy_channel /\
  exists ch',
    channel_update_progress_all busy_channel UVM_CHANNEL_UPDATE_MODE_FORCE_ALL =
      Some (0, ch', map ev_pushbuffer_mark_completed [0; 1; 2]) /\
    gpu_get ch' = 3.
Proof.
  split; [exact busy_channel_wf |].
  destruct (channel_update_progress_all_force busy_channel busy_channel_wf)
    as (ch' & Hrun & Hg & _).
  exists ch'. split; [exact Hrun | exact Hg].
Defined.

(** X7.  An update of all entries in COMPLETED mode returns 0 exactly
    when no pending entry has a tracking value above the completed value;
    when it returns more, the entry it stopped at, the one at [gpu_get], is
    such an entry, and none of the entries it reclaimed was. *)
Theorem uvm_channel_update_progress_all_stops_at_pending (ch : uvm_channel_t) :
  channel_wf ch ->
  exists pending ch' evs,
    uvm_channel_update_progress_all ch = Some (pending, ch', evs) /\
    (pending = 0 <->
     Forall (fun index =>
               slot_is_pending ch (refreshed_completed_value ch) index = false)
            (pending_slots ch)) /\
    (0 < pending ->
     slot_is_pending ch (refreshed_completed_value ch) (gpu_get ch') = true /\
     In (gpu_get ch') (pending_slots ch)) /\
    Forall (fun index =>
              slot_is_pending ch (refreshed_completed_value ch) index = false)
           (take (length evs) (pending_slots ch)).
Proof.
  intros Hwf. pose proof (wf_ring ch Hwf) as Hring.
  pose proof (ring_wf_bound ch Hring) as Hb.
  pose proof Hring as [Hn Hp Hg Hc].
  unfold uvm_channel_update_progress_all, channel_update_progress_all.
  destruct (update_progress_no_fault ch (num_gpfifo_entries ch)
              UVM_CHANNEL_UPDATE_MODE_COMPLETED Hwf) as [[[p ch'] evs] Hrun].
  destruct (update_progress_reclaims ch _ _ p ch' evs Hring Hrun)
    as (_ & Hsd & Hpend & Hpend' & Hevs & Hdrop & _ & Hdone & Hstop
        & HN & Hput & _ & _ & _ & Hring').
  specialize (Hdone eq_refl).
  assert (Hd : pending_count ch < num_gpfifo_entries ch)
    by (apply Z.mod_pos_bound; lia).
  specialize (Hstop ltac:(lia)).
  assert (Hhead : 0 < p ->
                  slot_is_pending ch (refreshed_completed_value ch) (gpu_get ch') = true /\
                  In (gpu_get ch') (pending_slots ch)).
  { intros Hpos. split.
    - destruct Hstop as [Hg' | (entry & He & _ & Hlt)].
      + exfalso. assert (pending_count ch' = 0); [| lia].
        unfold pending_count. rewrite Hg', Hput, Z.sub_diag. apply Z.mod_0_l. lia.
      + unfold slot_is_pending. rewrite He. apply Z.ltb_lt. exact Hlt.
    - assert (Hin : In (gpu_get ch') (pending_slots ch')).
      { unfold pending_slots. rewrite Hpend'.
        replace (Z.to_nat p) with (S (Z.to_nat (p - 1))) by lia.
        destruct Hring' as [Hn' _ Hg' _].
        rewrite ring_slots_S by lia. left. reflexivity. }
      rewrite Hdrop in Hin. apply list_elem_of_In in Hin.
      apply list_elem_of_In. exact (subseteq_drop _ _ _ Hin). }
  exists p, ch', evs. rewrite Hrun. split; [reflexivity |].
  split; [| split; [exact Hhead | exact Hdone]].
  split.
  - intros Hz. rewrite take_ge in Hdone; [exact Hdone |].
    unfold pending_slots. rewrite ring_slots_length. lia.
  - intros Hall. destruct (Z.eq_dec p 0) as [| Hne]; [assumption |].
    exfalso. destruct (Hhead ltac:(lia)) as [Ht Hin].
    rewrite List.Forall_forall in Hall. rewrite (Hall _ Hin) in Ht. discriminate.
Qed.

Lemma uvm_channel_update_progress_all_stops_at_pending_witness :
  channel_wf busy_channel /\
  exists pending ch' evs,
    uvm_channel_update_progress_all busy_channel = Some (pending, ch', evs) /\
    (0 < pending ->
     slot_is_pending busy_channel (refreshed_completed_value busy_channel)
       (gpu_get ch') = true).
Proof.
  split; [exact busy_channel_wf |].
  destruct (uvm_channel_update_progress_all_stops_at_pending busy_channel
              busy_channel_wf) as (p & ch' & evs & Hrun & _ & Hpos & _).
  exists p, ch', evs. split; [exact Hrun |]. intros H. apply (Hpos H).
Defined.

(** ** The push protocol: who holds the push infos *)

Lemma claimed_state_reachable :
  reachable default_params discrete_gpu all_ok_channel claimed_state.
Proof. apply rtc_once. apply step_claim. vm_compute. reflexivity. Qed.

Lemma begun_state_reachable :
  reachable default_params discrete_gpu all_ok_channel begun_state.
Proof.
  eapply rtc_r; [exact claimed_state_reachable |].
  unfold claimed_state, begun_state.
  apply step_begin with (push := begun_push); vm_compute; reflexivity.
Qed.

Lemma submitted_state_reachable :
  reachable default_params discrete_gpu all_ok_channel submitted_state.
Proof.
  eapply rtc_r; [exact begun_state_reachable |].
  unfold begun_state, submitted_state.
  destruct (uvm_channel_end_push reserved_channel_1024 begun_push)
    as [[[ch push'] evs] |] eqn:Hrun; [| vm_compute in Hrun; discriminate].
  replace submitted_channel_1024 with ch
    by (unfold submitted_channel_1024; rewrite Hrun; reflexivity).
  apply (step_end reserved_channel_1024 ch [] begun_push [] push' evs Hrun).
Qed.

Lemma push_inv_infos_valid st :
  push_inv st ->
  NoDup (map Some (available_push_infos (fst st) ++ begun_infos (snd st)) ++
         map (slot_info (fst st)) (pending_slots (fst st))) /\
  forall x,
    In x (map Some (available_push_infos (fst st) ++ begun_infos (snd st)) ++
          map (slot_info (fst st)) (pending_slots (fst st))) ->
    exists info, x = Some info /\ Z.of_nat info < num_gpfifo_entries (fst st).
Proof.
  intros [Hring _ _ _ Hperm]. destruct Hring as [Hn _ _ _].
  rewrite map_app, <- app_assoc. split.
  - rewrite Hperm. apply (NoDup_fmap_2 Some). apply NoDup_seq.
  - intros x Hin. eapply Permutation_in in Hin; [| exact Hperm].
    apply in_map_iff in Hin. destruct Hin as (info & <- & Hin).
    apply in_seq in Hin. exists info. split; [reflexivity | lia].
Qed.

(** X8.  In every state the clients of a channel can reach, each push
    info is held once: the free list and the pushes that have begun hold
    distinct push infos of the channel, every pending entry points to a
    push info of the channel that is neither on the free list nor held by
    a push that has begun, no two pending entries point to the same one,
    and free, begun and pending together are as many as the ring has
    entries. *)
Theorem push_infos_held_once
    (params : module_params) (gpu : conf_gpu_info) (out : channel_outcome)
    (st : client_state) :
  reachable params gpu out st ->
  NoDup (available_push_infos (fst st) ++ begun_infos (snd st)) /\
  NoDup (map (slot_info (fst st)) (pending_slots (fst st))) /\
  (forall info,
     In info (available_push_infos (fst st) ++ begun_infos (snd st)) ->
     Z.of_nat info < num_gpfifo_entries (fst st)) /\
  (forall index,
     In index (pending_slots (fst st)) ->
     exists info,
       slot_info (fst st) index = Some info /\
       Z.of_nat info < num_gpfifo_entries (fst st) /\
       ~ In info (available_push_infos (fst st) ++ begun_infos (snd st))) /\
  Z.of_nat (length (available_push_infos (fst st))) +
  Z.of_nat (length (snd st)) + pending_count (fst st) =
    num_gpfifo_entries (fst st).
Proof.
  intros Hreach. pose proof (reachable_inv _ _ _ _ Hreach) as Hinv.
  destruct (push_inv_infos_valid st Hinv) as [Hnodup Hvalid].
  apply NoDup_app in Hnodup. destruct Hnodup as (Hheld & Hdisj & Hpend).
  split; [| split; [exact Hpend | split; [| split]]].
  - eapply (NoDup_fmap_1 Some). exact Hheld.
  - intros info Hin.
    destruct (Hvalid (Some info)) as (info' & Heq & Hlt).
    { apply in_or_app. left. apply in_map. exact Hin. }
    inversion Heq; subst info'. exact Hlt.
  - intros index Hin.
    destruct (Hvalid (slot_info (fst st) index)) as (info & Heq & Hlt).
    { apply in_or_app. right. apply in_map. exact Hin. }
    exists info. split; [exact Heq |]. split; [exact Hlt |].
    intros Hheldin. apply (Hdisj (Some info)).
    + apply list_elem_of_In. apply in_map. exact Hheldin.
    + apply list_elem_of_In. rewrite <- Heq. apply in_map. exact Hin.
  - apply push_inv_free_list_length. exact Hinv.
Qed.

Lemma push_infos_held_once_witness :
  reachable default_params discrete_gpu all_ok_channel submitted_state /\
  NoDup (available_push_infos (fst submitted_state) ++
         begun_infos (snd submitted_state)) /\
  Z.of_nat (length (available_push_infos (fst submitted_state))) +
  Z.of_nat (length (snd submitted_state)) + pending_count (fst submitted_state) =
    num_gpfifo_entries (fst submitted_state).
Proof.
  split; [exact submitted_state_reachable |].
  destruct (push_infos_held_once default_params discrete_gpu all_ok_channel
              submitted_state submitted_state_reachable)
    as (Hnodup & _ & _ & _ & Hcount).
  split; [exact Hnodup | exact Hcount].
Defined.

(** X9.  The push info [uvm_channel_begin_push] hands out in a reachable
    state is held by nobody else: it is an index into the channel's push
    infos, no push that has begun holds it, no pending entry points to it,
    and it is gone from the free list. *)
Theorem begin_push_info_is_fresh
    (params : module_params) (gpu : conf_gpu_info) (out : channel_outcome)
    (st : client_state) (push push' : uvm_push_t) (ch' : uvm_channel_t) :
  reachable params gpu out st ->
  uvm_channel_begin_push NV_OK (fst st) push = Some (NV_OK, ch', push') ->
  0 <= push_info_index push' < num_gpfifo_entries (fst st) /\
  available_push_infos (fst st) =
    Z.to_nat (push_info_index push') :: available_push_infos ch' /\
  ~ In (Z.to_nat (push_info_index push')) (available_push_infos ch') /\
  ~ In (Z.to_nat (push_info_index push')) (begun_infos (snd st)) /\
  (forall index,
     In index (pending_slots ch') ->
     slot_info ch' index <> Some (Z.to_nat (push_info_index push'))) /\
  channel_tracking_value push' = 0.
Proof.
  intros Hreach Hrun. pose proof (reachable_inv _ _ _ _ Hreach) as Hinv.
  destruct (push_inv_infos_valid st Hinv) as [Hnodup Hvalid].
  unfold uvm_channel_begin_push, channel_get_available_push_info_index in Hrun.
  cbn [NV_STATUS_eqb negb] in Hrun.
  destruct (available_push_infos (fst st)) as [| info rest] eqn:Hav; [discriminate |].
  cbn in Hrun. inversion Hrun; subst ch' push'. clear Hrun.
  cbn [push_info_index channel_tracking_value available_push_infos
       set_available_push_infos].
  rewrite Nat2Z.id.
  change (pending_slots (set_available_push_infos rest (fst st)))
    with (pending_slots (fst st)).
  destruct (Hvalid (Some info)) as (info' & Heq & Hlt); [left; reflexivity |].
  inversion Heq; subst info'.
  cbn [map app] in Hnodup. apply NoDup_cons in Hnodup.
  destruct Hnodup as [Hnotin _].
  rewrite list_elem_of_In, in_app_iff, map_app, in_app_iff in Hnotin.
  repeat split; try lia.
  - intros Hin. apply Hnotin. left. left. apply in_map. exact Hin.
  - intros Hin. apply Hnotin. left. right. apply in_map. exact Hin.
  - intros index Hin Hinfo. apply Hnotin. right.
    change (slot_info (set_available_push_infos rest (fst st)) index)
      with (slot_info (fst st) index) in Hinfo.
    rewrite <- Hinfo. apply in_map. exact Hin.
Qed.

Lemma begin_push_info_is_fresh_witness :
  reachable default_params discrete_gpu all_ok_channel claimed_state /\
  uvm_channel_begin_push NV_OK (fst claimed_state) begun_push =
    Some (NV_OK, reserved_channel_1024, begun_push) /\
  ~ In (Z.to_nat (push_info_index begun_push))
       (available_push_infos reserved_channel_1024).
Proof.
  assert (Hrun : uvm_channel_begin_push NV_OK (fst claimed_state) begun_push =
                 Some (NV_OK, reserved_channel_1024, begun_push))
    by (vm_compute; reflexivity).
  split; [exact claimed_state_reachable |]. split; [exact Hrun |].
  destruct (begin_push_info_is_fresh default_params discrete_gpu all_ok_channel
              claimed_state begun_push begun_push reserved_channel_1024
              claimed_state_reachable Hrun) as (_ & _ & Hfresh & _).
  exact Hfresh.
Defined.

(** ** The push protocol: ending a push *)

Lemma end_push_run ch begun1 push begun2 :
  push_inv (ch, begun1 ++ push :: begun2) ->
  exists ch' push' evs,
    uvm_channel_end_push ch push = Some (ch', push', evs) /\
    0 < current_pushes_count ch /\
    current_pushes_count ch' = current_pushes_count ch - 1 /\
    pending_count ch' = pending_count ch + 1 /\
    pending_slots ch' = pending_slots ch ++ [cpu_put ch] /\
    ~ In (cpu_put ch) (pending_slots ch) /\
    gpfifo_entries ch' =
      <[Z.to_nat (cpu_put ch) :=
          {| tracking_semaphore_value := u64 (queued_value (tracking_sem ch) + 1);
             pushbuffer_offset := push_pushbuffer_offset push;
             pushbuffer_size := push_size push;
             push_info := Some (Z.to_nat (push_info_index push)) |}]>
        (gpfifo_entries ch) /\
    queued_value (tracking_sem ch') = u64 (queued_value (tracking_sem ch) + 1) /\
    num_gpfifo_entries ch' = num_gpfifo_entries ch /\
    gpu_get ch' = gpu_get ch /\
    available_push_infos ch' = available_push_infos ch /\
    cpu_put ch' <> gpu_get ch'.
Proof.
  intros [Hring Hlen Hcap Hbegun Hperm]. cbn [fst snd] in *.
  pose proof (ring_wf_bound ch Hring) as Hb. pose proof Hring as [Hn Hp Hg Hc].
  assert (Hpos : 0 <= pending_count ch) by (apply Z.mod_pos_bound; lia).
  rewrite length_app in Hbegun. cbn [length] in Hbegun.
  assert (Hd : pending_count ch + 1 < num_gpfifo_entries ch) by lia.
  destruct (uvm_channel_end_push ch push) as [[[ch' push'] evs] |] eqn:Hrun.
  2: { exfalso. unfold uvm_channel_end_push in Hrun. cbv zeta in Hrun.
       replace (negb (0 <=? cpu_put ch) ||
                negb (cpu_put ch <? Z.of_nat (length (gpfifo_entries ch))))
         with false in Hrun; [discriminate |].
       symmetry. apply orb_false_iff. split; apply negb_false_iff;
         [apply Z.leb_le | apply Z.ltb_lt]; lia. }
  exists ch', push', evs. split; [reflexivity |].
  unfold uvm_channel_end_push in Hrun. cbv zeta in Hrun.
  destruct (negb (0 <=? cpu_put ch) || _); [discriminate |].
  inversion Hrun; subst ch' push' evs. clear Hrun.
  rewrite (u32_small (current_pushes_count ch - 1)) by lia.
  set (entry := {| tracking_semaphore_value := _ |}).
  set (ch' := {| num_gpfifo_entries := _ |}).
  assert (Hpend : pending_count ch' = pending_count ch + 1).
  { unfold pending_count, ch'. cbn [cpu_put gpu_get num_gpfifo_entries].
    apply pending_count_after_end; assumption. }
  split; [lia |]. split; [reflexivity |]. split; [exact Hpend |].
  split.
  { unfold pending_slots. rewrite Hpend. unfold ch'.
    cbn [gpu_get num_gpfifo_entries].
    replace (Z.to_nat (pending_count ch + 1))
      with (Z.to_nat (pending_count ch) + 1)%nat by lia.
    rewrite ring_slots_app by lia. rewrite pending_slot_at_cpu_put by exact Hring.
    unfold ring_slots at 2. cbn [seq map].
    rewrite Z.add_0_r, Z.mod_small by lia. reflexivity. }
  split.
  { rewrite <- (pending_slot_at_cpu_put ch Hring) at 1.
    apply ring_slots_not_in; lia. }
  repeat (split; [reflexivity |]).
  intros Heq. unfold pending_count in Hpend at 1.
  rewrite Heq, Z.sub_diag, Z.mod_0_l in Hpend by (unfold ch'; cbn; lia). lia.
Qed.

Lemma pending_slots_range ch index :
  ring_wf ch -> In index (pending_slots ch) -> 0 <= index < num_gpfifo_entries ch.
Proof.
  intros [Hn _ _ _] Hin. unfold pending_slots, ring_slots in Hin.
  apply in_map_iff in Hin. destruct Hin as (i & <- & _).
  apply Z.mod_pos_bound. lia.
Qed.

(** X10.  A push that has begun in a reachable state can always end:
    [uvm_channel_end_push] finds [cpu_put] inside the entries array and
    the reservation count positive, so its assertion holds; the entry it
    writes is not a pending one, the pending entries are left as they
    were, the written entry becomes the last pending one and points to
    the push info of the push, and [cpu_put] does not catch up with
    [gpu_get], so a full ring is never taken for an empty one. *)
Theorem end_push_never_overruns
    (params : module_params) (gpu : conf_gpu_info) (out : channel_outcome)
    (ch : uvm_channel_t) (begun1 begun2 : list uvm_push_t) (push : uvm_push_t) :
  reachable params gpu out (ch, begun1 ++ push :: begun2) ->
  exists ch' push' evs,
    uvm_channel_end_push ch push = Some (ch', push', evs) /\
    0 < current_pushes_count ch /\
    ~ In (cpu_put ch) (pending_slots ch) /\
    pending_slots ch' = pending_slots ch ++ [cpu_put ch] /\
    (forall index,
       In index (pending_slots ch) ->
       gpfifo_entries ch' !! Z.to_nat index = gpfifo_entries ch !! Z.to_nat index) /\
    slot_info ch' (cpu_put ch) = Some (Z.to_nat (push_info_index push)) /\
    cpu_put ch' <> gpu_get ch' /\
    reachable params gpu out (ch', begun1 ++ begun2).
Proof.
  intros Hreach. pose proof (reachable_inv _ _ _ _ Hreach) as Hinv.
  destruct (end_push_run ch begun1 push begun2 Hinv)
    as (ch' & push' & evs & Hrun & Hcount & _ & _ & Hslots & Hnotin & Hentries
        & _ & _ & _ & _ & Hne).
  pose proof (inv_ring _ Hinv) as Hring. pose proof (inv_entries _ Hinv) as Hlen.
  cbn [fst] in Hring, Hlen. pose proof Hring as [Hn Hp Hg Hc].
  exists ch', push', evs.
  repeat (split; [assumption |]). split; [| split; [| split]].
  - intros index Hin. rewrite Hentries.
    apply list_lookup_insert_ne. intros Heq.
    pose proof (pending_slots_range ch index Hring Hin).
    assert (index = cpu_put ch) by lia. subst index. contradiction.
  - unfold slot_info. rewrite Hentries, list_lookup_insert_eq by lia. reflexivity.
  - exact Hne.
  - eapply rtc_r; [exact Hreach |]. eapply step_end. exact Hrun.
Qed.

Lemma end_push_never_overruns_witness :
  reachable default_params discrete_gpu all_ok_channel
    (reserved_channel_1024, [] ++ begun_push :: []) /\
  exists ch' push' evs,
    uvm_channel_end_push reserved_channel_1024 begun_push = Some (ch', push', evs) /\
    cpu_put ch' <> gpu_get ch'.
Proof.
  split; [exact begun_state_reachable |].
  destruct (end_push_never_overruns default_params discrete_gpu all_ok_channel
              reserved_channel_1024 [] [] begun_push begun_state_reachable)
    as (ch' & push' & evs & Hrun & _ & _ & _ & _ & _ & Hne & _).
  exists ch', push', evs. split; [exact Hrun | exact Hne].
Defined.

(** ** The push protocol: tracking values *)

Lemma u64_add_l a b : u64 (u64 a + b) = u64 (a + b).
Proof. unfold u64. apply Z.add_mod_idemp_l. discriminate. Qed.

Lemma consecutive_values_shift q d s :
  (s <= d)%nat ->
  drop s (map (fun i => Some (u64 (q - Z.of_nat d + 1 + Z.of_nat i))) (seq 0 d)) =
  map (fun i => Some (u64 (q - Z.of_nat (d - s) + 1 + Z.of_nat i))) (seq 0 (d - s)).
Proof.
  intros Hs. rewrite skipn_map.
  assert (Hseq : drop s (seq 0 d) = seq s (d - s)).
  { replace (seq 0 d) with (seq 0 (s + (d - s))) by (f_equal; lia).
    rewrite seq_app, drop_app_length' by (rewrite length_seq; reflexivity).
    reflexivity. }
  rewrite Hseq, (seq_offset s), map_map.
  apply map_ext. intros i. do 2 f_equal. lia.
Qed.

Lemma tracking_values_unchanged ch ch' :
  gpfifo_entries ch' = gpfifo_entries ch ->
  forall l, map (slot_tracking_value ch') l = map (slot_tracking_value ch) l.
Proof.
  intros He l. apply map_ext. intros index.
  unfold slot_tracking_value. rewrite He. reflexivity.
Qed.

Lemma tracking_inv_step st st' :
  push_step st st' -> push_inv st ->
  is_u64 (queued_value (tracking_sem (fst st))) /\
    tracking_values_consecutive (fst st) ->
  is_u64 (queued_value (tracking_sem (fst st'))) /\
    tracking_values_consecutive (fst st').
Proof.
  intros Hstep Hinv [Hq Hcons]. destruct Hstep; cbn [fst snd] in *.
  - unfold try_claim_channel in H. destruct (channel_is_available ch); [| discriminate].
    inversion H; subst ch'. split; [exact Hq | exact Hcons].
  - unfold uvm_channel_begin_push, channel_get_available_push_info_index in H0.
    cbn [NV_STATUS_eqb negb] in H0.
    destruct (available_push_infos ch); [discriminate |].
    cbn in H0. inversion H0; subst ch' push'. split; [exact Hq | exact Hcons].
  - unfold uvm_channel_begin_push in H1.
    destruct (NV_STATUS_eqb status NV_OK) eqn:E.
    + apply NV_STATUS_eqb_eq in E. contradiction.
    + cbn in H1. inversion H1; subst. split; [exact Hq | exact Hcons].
  - destruct (end_push_run ch begun1 push begun2 Hinv)
      as (ch2 & push2 & evs2 & Hrun & _ & _ & Hpend & Hslots & Hnotin & Hentries
          & Hqv & _ & _ & _ & _).
    rewrite H in Hrun. inversion Hrun; subst ch2 push2 evs2. clear Hrun.
    pose proof (inv_ring _ Hinv) as Hring. pose proof (inv_entries _ Hinv) as Hlen.
    cbn [fst] in Hring, Hlen. pose proof Hring as [Hn Hp Hg Hc].
    assert (Hpos : 0 <= pending_count ch) by (apply Z.mod_pos_bound; lia).
    split; [rewrite Hqv; apply u64_range |].
    unfold tracking_values_consecutive in *. rewrite Hslots, Hpend, Hqv.
    replace (Z.to_nat (pending_count ch + 1))
      with (Z.to_nat (pending_count ch) + 1)%nat by lia.
    rewrite map_app, seq_app, map_app. f_equal.
    + transitivity (map (slot_tracking_value ch) (pending_slots ch)).
      * apply map_ext_in. intros index Hin. unfold slot_tracking_value.
        rewrite Hentries, list_lookup_insert_ne; [reflexivity |].
        intros Heq. pose proof (pending_slots_range ch index Hring Hin).
        assert (index = cpu_put ch) by lia. subst index. contradiction.
      * rewrite Hcons. apply map_ext. intros i. f_equal.
        replace (u64 (queued_value (tracking_sem ch) + 1) - (pending_count ch + 1)
                 + 1 + Z.of_nat i)
          with (u64 (queued_value (tracking_sem ch) + 1)
                + (Z.of_nat i - pending_count ch)) by lia.
        rewrite u64_add_l. f_equal. lia.
    + cbn [seq map Nat.add]. unfold slot_tracking_value.
      rewrite Hentries, list_lookup_insert_eq by lia. cbn.
      do 2 f_equal. rewrite Z2Nat.id by lia.
      replace (u64 (queued_value (tracking_sem ch) + 1) - (pending_count ch + 1) + 1
               + pending_count ch)
        with (u64 (queued_value (tracking_sem ch) + 1) + 0) by lia.
      rewrite u64_add_l, Z.add_0_r. reflexivity.
  - pose proof (inv_ring _ Hinv) as Hring. cbn [fst] in Hring.
    destruct (update_progress_reclaims ch _ _ pending ch' evs Hring H)
      as (_ & Hsd & Hpend & Hpend' & _ & Hdrop & _ & _ & _ & _ & _ & _ & He & Hqv & _).
    split; [rewrite Hqv; exact Hq |].
    unfold tracking_values_consecutive in *.
    rewrite Hdrop, Hqv, Hpend', Hpend, (tracking_values_unchanged ch ch' He).
    rewrite <- skipn_map, Hcons.
    assert (Hpos : 0 <= pending_count ch)
      by (destruct Hring as [Hn _ _ _]; apply Z.mod_pos_bound; lia).
    pose proof (consecutive_values_shift (queued_value (tracking_sem ch))
                  (Z.to_nat (pending_count ch)) (length evs) ltac:(lia)) as Hshift.
    rewrite Z2Nat.id in Hshift by lia. rewrite Hshift.
    replace (Z.to_nat (pending_count ch - Z.of_nat (length evs)))
      with (Z.to_nat (pending_count ch) - length evs)%nat by lia.
    apply map_ext. intros i. do 2 f_equal. lia.
  - split; [exact Hq | exact Hcons].
Qed.

Lemma reachable_tracking_values params gpu out st :
  reachable params gpu out st ->
  is_u64 (queued_value (tracking_sem (fst st))) /\
  tracking_values_consecutive (fst st).
Proof.
  intros Hreach.
  assert (Hgoal : push_inv st /\ is_u64 (queued_value (tracking_sem (fst st))) /\
                  tracking_values_consecutive (fst st)); [| apply Hgoal].
  revert st Hreach. unfold reachable. apply rtc_ind_r.
  - pose proof (configured_ring_size params gpu) as Hn.
    split; [apply created_channel_inv; exact Hn |]. cbn [fst].
    generalize dependent (fst (init_channel_manager_conf params gpu)).
    intros conf Hn. split.
    + cbn. unfold is_u64, NvU64_modulus. lia.
    + unfold tracking_values_consecutive, pending_slots, pending_count.
      cbn [created_channel cpu_put gpu_get num_gpfifo_entries].
      rewrite Z.sub_diag, Z.mod_0_l by lia. reflexivity.
  - intros st st' _ Hstep (Hinv & Htrack). split.
    + eapply push_inv_step; eassumption.
    + eapply tracking_inv_step; eassumption.
Qed.

Lemma reachable_channel_wf params gpu out st :
  reachable params gpu out st -> channel_wf (fst st).
Proof.
  intros Hreach. pose proof (reachable_inv _ _ _ _ Hreach) as Hinv.
  destruct (reachable_tracking_values _ _ _ _ Hreach) as [Hq _].
  destruct (push_inv_infos_valid st Hinv) as [_ Hvalid].
  split.
  - apply (inv_ring _ Hinv).
  - apply (inv_entries _ Hinv).
  - exact Hq.
  - apply List.Forall_forall. intros index Hin.
    destruct (Hvalid (slot_info (fst st) index)) as (info & Heq & _).
    { apply in_or_app. right. apply in_map. exact Hin. }
    unfold slot_info in Heq. unfold slot_has_push_info.
    destruct (gpfifo_entries (fst st) !! Z.to_nat index) as [entry |];
      [| discriminate].
    exists entry, info. split; [reflexivity | exact Heq].
Qed.

Lemma reachable_tracking_value_at params gpu out st i :
  reachable params gpu out st ->
  0 <= i < pending_count (fst st) ->
  slot_tracking_value (fst st)
    ((gpu_get (fst st) + i) mod num_gpfifo_entries (fst st)) =
  Some (u64 (queued_value (tracking_sem (fst st))
             - (pending_count (fst st) - 1 - i))).
Proof.
  intros Hreach Hi.
  destruct (reachable_tracking_values _ _ _ _ Hreach) as [_ Hcons].
  unfold tracking_values_consecutive, pending_slots, ring_slots in Hcons.
  rewrite map_map in Hcons.
  pose proof (proj1 map_ext_in_iff Hcons (Z.to_nat i)) as Hat.
  cbv beta in Hat. rewrite Z2Nat.id in Hat by lia.
  rewrite Hat by (apply in_seq; lia). do 2 f_equal. lia.
Qed.

(** X11.  In every reachable state the channel is well formed, and the
    pending entries carry the last tracking values handed out, in ring
    order and without a gap: the entry [i] places after [gpu_get] carries
    the queued value minus the number of entries submitted after it
    (modulo 2^64). *)
Theorem pending_tracking_values_consecutive
    (params : module_params) (gpu : conf_gpu_info) (out : channel_outcome)
    (st : client_state) :
  reachable params gpu out st ->
  channel_wf (fst st) /\
  forall i, 0 <= i < pending_count (fst st) ->
    slot_tracking_value (fst st)
      ((gpu_get (fst st) + i) mod num_gpfifo_entries (fst st)) =
    Some (u64 (queued_value (tracking_sem (fst st))
               - (pending_count (fst st) - 1 - i))).
Proof.
  intros Hreach. split.
  - eapply reachable_channel_wf. exact Hreach.
  - intros i Hi. eapply reachable_tracking_value_at; eassumption.
Qed.

Lemma pending_tracking_values_consecutive_witness :
  reachable default_params discrete_gpu all_ok_channel submitted_state /\
  channel_wf (fst submitted_state) /\
  slot_tracking_value (fst submitted_state) 0 = Some 1.
Proof.
  split; [exact submitted_state_reachable |].
  destruct (pending_tracking_values_consecutive default_params discrete_gpu
              all_ok_channel submitted_state submitted_state_reachable)
    as [Hwf Hat].
  split; [exact Hwf |]. apply (Hat 0). vm_compute. split; [discriminate | reflexivity].
Defined.

Lemma slot_is_pending_value ch completed index v :
  slot_tracking_value ch index = Some v ->
  slot_is_pending ch completed index = (completed <? v).
Proof.
  unfold slot_tracking_value, slot_is_pending.
  destruct (gpfifo_entries ch !! Z.to_nat index) as [entry |]; [| discriminate].
  cbn. intros Hv. inversion Hv. reflexivity.
Qed.

(** X12.  While the tracking values have not wrapped around among the
    pending entries, an update of all entries in a reachable state
    reclaims every completed entry and leaves none behind: the number it
    returns is the smaller of the number of pending entries and of the
    queued value minus the completed value, and every entry still pending
    has a tracking value above the completed value. *)
Theorem update_progress_all_reclaims_every_completed
    (params : module_params) (gpu : conf_gpu_info) (out : channel_outcome)
    (st : client_state) :
  reachable params gpu out st ->
  pending_count (fst st) <= queued_value (tracking_sem (fst st)) ->
  exists pending ch' evs,
    uvm_channel_update_progress_all (fst st) = Some (pending, ch', evs) /\
    pending =
      Z.min (pending_count (fst st))
            (Z.max 0 (queued_value (tracking_sem (fst st))
                      - refreshed_completed_value (fst st))) /\
    Forall (fun index =>
              slot_is_pending (fst st) (refreshed_completed_value (fst st)) index
              = true)
           (pending_slots ch') /\
    reachable params gpu out (ch', snd st).
Proof.
  intros Hreach Hnowrap. destruct st as [ch begun]. cbn [fst snd] in *.
  pose proof (reachable_channel_wf _ _ _ _ Hreach) as Hwf. cbn [fst] in Hwf.
  pose proof (wf_ring ch Hwf) as Hring. pose proof (wf_queued_value ch Hwf) as Hq.
  pose proof (ring_wf_bound ch Hring) as Hb. pose proof Hring as [Hn Hp Hg Hc].
  assert (Hvalue : forall i, 0 <= i < pending_count ch ->
            slot_tracking_value ch ((gpu_get ch + i) mod num_gpfifo_entries ch) =
            Some (queued_value (tracking_sem ch) - pending_count ch + 1 + i)).
  { intros i Hi.
    pose proof (reachable_tracking_value_at _ _ _ (ch, begun) i Hreach Hi) as Hat.
    cbn [fst] in Hat. rewrite Hat. f_equal. unfold is_u64 in Hq. unfold u64.
    rewrite Z.mod_small by lia. lia. }
  unfold uvm_channel_update_progress_all, channel_update_progress_all.
  destruct (update_progress_no_fault ch (num_gpfifo_entries ch)
              UVM_CHANNEL_UPDATE_MODE_COMPLETED Hwf) as [[[p ch'] evs] Hrun].
  destruct (update_progress_reclaims ch _ _ p ch' evs Hring Hrun)
    as (_ & Hsd & Hpend & Hpend' & Hevs & Hdrop & _ & Hdone & Hstop
        & HN & Hput & _ & He & _ & Hring').
  specialize (Hdone eq_refl).
  assert (Hd : 0 <= pending_count ch < num_gpfifo_entries ch)
    by (apply Z.mod_pos_bound; lia).
  specialize (Hstop ltac:(lia)).
  set (c := refreshed_completed_value ch) in *.
  set (s := length evs) in *.
  set (d := pending_count ch) in *.
  set (q := queued_value (tracking_sem ch)) in *.
  assert (Hsplit : Z.to_nat d = (s + Z.to_nat (d - Z.of_nat s))%nat) by lia.
  assert (Hrest : pending_slots ch' =
                  ring_slots ((gpu_get ch + Z.of_nat s) mod num_gpfifo_entries ch)
                             (Z.to_nat (d - Z.of_nat s)) (num_gpfifo_entries ch)).
  { rewrite Hdrop. unfold pending_slots. fold d. rewrite Hsplit.
    rewrite ring_slots_app by lia.
    rewrite drop_app_length' by (symmetry; apply ring_slots_length). reflexivity. }
  assert (Hlow : 0 < Z.of_nat s -> q - d + Z.of_nat s <= c).
  { intros Hs.
    assert (Hin : In ((gpu_get ch + (Z.of_nat s - 1)) mod num_gpfifo_entries ch)
                     (take s (pending_slots ch))).
    { unfold pending_slots. fold d. rewrite Hsplit, ring_slots_take by lia.
      unfold ring_slots. apply in_map_iff. exists (s - 1)%nat.
      split; [f_equal; lia | apply in_seq; lia]. }
    rewrite List.Forall_forall in Hdone. specialize (Hdone _ Hin).
    rewrite (slot_is_pending_value ch c _ _
               (Hvalue (Z.of_nat s - 1) ltac:(lia))) in Hdone.
    apply Z.ltb_ge in Hdone. lia. }
  assert (Hhigh : Z.of_nat s < d -> c < q - d + 1 + Z.of_nat s).
  { intros Hs.
    assert (Hg' : gpu_get ch' = (gpu_get ch + Z.of_nat s) mod num_gpfifo_entries ch).
    { revert Hrest. unfold pending_slots. rewrite Hpend', Hpend, HN. fold d.
      replace (Z.to_nat (d - Z.of_nat s))
        with (S (Z.to_nat (d - Z.of_nat s - 1))) by lia.
      unfold ring_slots. cbn [seq map]. intros Heq. inversion Heq as [[Hhead Htail]].
      rewrite !Z.add_0_r in Hhead.
      destruct Hring' as [_ _ Hg' _]. rewrite HN in Hg'.
      rewrite Z.mod_small in Hhead by lia. rewrite Hhead.
      apply Z.mod_mod. lia. }
    destruct Hstop as [Hempty | (entry & Hentry & _ & Hlt)].
    - exfalso. assert (pending_count ch' = 0); [| lia].
      unfold pending_count. rewrite Hempty, Hput, Z.sub_diag. apply Z.mod_0_l. lia.
    - pose proof (Hvalue (Z.of_nat s) ltac:(lia)) as Hv.
      rewrite <- Hg' in Hv. unfold slot_tracking_value in Hv.
      rewrite Hentry in Hv. cbn in Hv. inversion Hv. lia. }
  exists p, ch', evs. rewrite Hrun. split; [reflexivity |].
  split; [| split].
  - destruct (Z.eq_dec (Z.of_nat s) 0); destruct (Z.eq_dec (Z.of_nat s) d); lia.
  - rewrite Hrest. apply List.Forall_forall. intros index Hin.
    unfold ring_slots in Hin. apply in_map_iff in Hin.
    destruct Hin as (j & <- & Hj). apply in_seq in Hj.
    rewrite Z.add_mod_idemp_l by lia.
    replace (gpu_get ch + Z.of_nat s + Z.of_nat j)
      with (gpu_get ch + (Z.of_nat s + Z.of_nat j)) by lia.
    rewrite (slot_is_pending_value ch c _ _
               (Hvalue (Z.of_nat s + Z.of_nat j) ltac:(lia))).
    apply Z.ltb_lt. specialize (Hhigh ltac:(lia)). lia.
  - eapply rtc_r; [exact Hreach |]. eapply step_progress. exact Hrun.
Qed.

Lemma update_progress_all_reclaims_every_completed_witness :
  reachable default_params discrete_gpu all_ok_channel submitted_state /\
  pending_count (fst submitted_state)
    <= queued_value (tracking_sem (fst submitted_state)) /\
  exists ch' evs,
    uvm_channel_update_progress_all (fst submitted_state) = Some (1, ch', evs).
Proof.
  assert (Hnowrap : pending_count (fst submitted_state)
                    <= queued_value (tracking_sem (fst submitted_state)))
    by (vm_compute; discriminate).
  split; [exact submitted_state_reachable |]. split; [exact Hnowrap |].
  destruct (update_progress_all_reclaims_every_completed default_params
              discrete_gpu all_ok_channel submitted_state
              submitted_state_reachable Hnowrap)
    as (p & ch' & evs & Hrun & Hp & _).
  exists ch', evs. rewrite Hrun, Hp. reflexivity.
Defined.

(** ** The order of the copy engines *)

Lemma to_int_small x : -2147483648 <= x < 2147483648 -> to_int x = x.
Proof.
  intros Hx. unfold to_int, u32, NvU32_modulus. cbv zeta.
  change (2 ^ 32) with 4294967296. change (2 ^ 31) with 2147483648.
  destruct (Z.le_gt_cases 0 x).
  - rewrite Z.mod_small by lia.
    destruct (Z.ltb_spec x 2147483648); lia.
  - replace (x mod 4294967296) with (x + 4294967296)
      by (apply Z.mod_unique with (q := -1); lia).
    destruct (Z.ltb_spec (x + 4294967296) 2147483648); lia.
Qed.

Lemma ce_usage_count_bound ce preferred_ce :
  0 <= ce_usage_count ce preferred_ce <= Z.of_nat (length preferred_ce).
Proof.
  induction preferred_ce as [| p rest IH]; cbn [ce_usage_count length]; [lia |].
  destruct (ce =? p); lia.
Qed.

Lemma lex_lt_irrefl a : ~ lex_lt a a.
Proof. induction a as [| x a IH]; cbn; [tauto | intros [H | [_ H]]; [lia | tauto]]. Qed.

Lemma lex_lt_trans a : forall b c, lex_lt a b -> lex_lt b c -> lex_lt a c.
Proof.
  induction a as [| x a IH]; intros [| y b] [| z c]; cbn; try tauto.
  intros [H1 | [H1 H1']] [H2 | [H2 H2']]; try (left; lia).
  right. split; [lia |]. eapply IH; eassumption.
Qed.

Lemma lex_lt_total a : forall b,
  length a = length b -> a <> b -> lex_lt a b \/ lex_lt b a.
Proof.
  induction a as [| x a IH]; intros [| y b] Hlen Hne; cbn in *; try discriminate.
  - contradiction.
  - destruct (Z.lt_trichotomy x y) as [H | [H | H]]; [left; left; lia | | right; left; lia].
    subst y. destruct (IH b ltac:(lia)) as [Hl | Hl].
    + intros ->. contradiction.
    + left. right. split; [reflexivity | exact Hl].
    + right. right. split; [reflexivity | exact Hl].
Qed.

Lemma ce_rank_length ce_caps type preferred_ce i j :
  length (ce_rank ce_caps type preferred_ce i) =
  length (ce_rank ce_caps type preferred_ce j).
Proof. destruct type; reflexivity. Qed.

Lemma ce_rank_inj ce_caps type preferred_ce i j :
  ce_rank ce_caps type preferred_ce i = ce_rank ce_caps type preferred_ce j -> i = j.
Proof.
  intros H. apply (f_equal (fun l => List.last l 0)) in H.
  destruct type; exact H.
Qed.

Ltac compare_cases :=
  repeat match goal with
         | |- context [negb (Bool.eqb ?a ?b)] => destruct a, b; cbn [Bool.eqb negb Z.b2z]
         | |- context [negb (?a =? ?b)] =>
             destruct (Z.eqb_spec a b); cbn [negb]
         end.

Lemma compare_ce_lex ce_caps type preferred_ce i j :
  0 <= i < 2147483648 -> 0 <= j < 2147483648 ->
  length preferred_ce = UVM_CHANNEL_TYPE_COUNT ->
  (compare_ce_for_channel_type ce_caps type i j preferred_ce < 0 <->
   lex_lt (ce_rank ce_caps type preferred_ce i) (ce_rank ce_caps type preferred_ce j)) /\
  (0 < compare_ce_for_channel_type ce_caps type i j preferred_ce <->
   lex_lt (ce_rank ce_caps type preferred_ce j) (ce_rank ce_caps type preferred_ce i)).
Proof.
  intros Hi Hj Hlen.
  pose proof (ce_usage_count_bound i preferred_ce) as Hui.
  pose proof (ce_usage_count_bound j preferred_ce) as Huj.
  rewrite Hlen in Hui, Huj. unfold UVM_CHANNEL_TYPE_COUNT in Hui, Huj.
  unfold compare_ce_for_channel_type, ce_rank. cbv zeta.
  rewrite (to_int_small (ce_usage_count i preferred_ce - ce_usage_count j preferred_ce))
    by lia.
  rewrite (to_int_small (i - j)) by lia.
  generalize (ce_usage_count i preferred_ce) (ce_usage_count j preferred_ce) Hui Huj.
  intros ui uj _ _.
  generalize (hweight32 (cePceMask (caps_at ce_caps i)))
             (hweight32 (cePceMask (caps_at ce_caps j))).
  intros hi hj.
  destruct (caps_at ce_caps i) as [? ? shi sri swi ? nvi ? ?].
  destruct (caps_at ce_caps j) as [? ? shj srj swj ? nvj ? ?].
  cbn [shared sysmemRead sysmemWrite nvlinkP2p].
  destruct type; cbn [lex_lt]; compare_cases; cbn [Z.b2z]; lia.
Qed.

Lemma compare_ce_trans ce_caps type preferred_ce i j k :
  0 <= i < 2147483648 -> 0 <= j < 2147483648 -> 0 <= k < 2147483648 ->
  length preferred_ce = UVM_CHANNEL_TYPE_COUNT ->
  compare_ce_for_channel_type ce_caps type i j preferred_ce < 0 ->
  compare_ce_for_channel_type ce_caps type j k preferred_ce < 0 ->
  compare_ce_for_channel_type ce_caps type i k preferred_ce < 0.
Proof.
  intros Hi Hj Hk Hlen Hij Hjk.
  apply (compare_ce_lex ce_caps type preferred_ce i j Hi Hj Hlen) in Hij.
  apply (compare_ce_lex ce_caps type preferred_ce j k Hj Hk Hlen) in Hjk.
  apply (compare_ce_lex ce_caps type preferred_ce i k Hi Hk Hlen).
  eapply lex_lt_trans; eassumption.
Qed.

Lemma compare_ce_total ce_caps type preferred_ce i j :
  0 <= i < 2147483648 -> 0 <= j < 2147483648 -> i <> j ->
  length preferred_ce = UVM_CHANNEL_TYPE_COUNT ->
  compare_ce_for_channel_type ce_caps type i j preferred_ce < 0 \/
  compare_ce_for_channel_type ce_caps type j i preferred_ce < 0.
Proof.
  intros Hi Hj Hne Hlen.
  destruct (lex_lt_total (ce_rank ce_caps type preferred_ce i)
                         (ce_rank ce_caps type preferred_ce j)) as [H | H].
  - apply ce_rank_length.
  - intros Heq. apply Hne. eapply ce_rank_inj. exact Heq.
  - left. apply (compare_ce_lex ce_caps type preferred_ce i j Hi Hj Hlen). exact H.
  - right. apply (compare_ce_lex ce_caps type preferred_ce j i Hj Hi Hlen). exact H.
Qed.

Lemma compare_ce_asym ce_caps type preferred_ce i j :
  0 <= i < 2147483648 -> 0 <= j < 2147483648 ->
  length preferred_ce = UVM_CHANNEL_TYPE_COUNT ->
  compare_ce_for_channel_type ce_caps type i j preferred_ce < 0 <->
  0 < compare_ce_for_channel_type ce_caps type j i preferred_ce.
Proof.
  intros Hi Hj Hlen.
  rewrite (proj1 (compare_ce_lex ce_caps type preferred_ce i j Hi Hj Hlen)).
  rewrite (proj2 (compare_ce_lex ce_caps type preferred_ce j i Hj Hi Hlen)).
  reflexivity.
Qed.

(** X13.  On copy engines with indices below 2^31 and a table of
    preferred CEs with one entry per channel type,
    [compare_ce_for_channel_type] is the lexicographic order on the keys
    of the channel type: it is negative exactly when the first CE comes
    before the second in that order and positive exactly when it comes
    after.  The conversions of the unsigned differences to [int] do not
    change a sign. *)
Theorem compare_ce_for_channel_type_is_lexicographic
    (ce_caps : list UvmGpuCopyEngineCaps) (type : uvm_channel_type_t)
    (preferred_ce : list Z) (i j : Z) :
  0 <= i < 2147483648 -> 0 <= j < 2147483648 ->
  length preferred_ce = UVM_CHANNEL_TYPE_COUNT ->
  (compare_ce_for_channel_type ce_caps type i j preferred_ce < 0 <->
   lex_lt (ce_rank ce_caps type preferred_ce i) (ce_rank ce_caps type preferred_ce j)) /\
  (0 < compare_ce_for_channel_type ce_caps type i j preferred_ce <->
   lex_lt (ce_rank ce_caps type preferred_ce j) (ce_rank ce_caps type preferred_ce i)).
Proof. apply compare_ce_lex. Qed.

Lemma compare_ce_for_channel_type_is_lexicographic_witness :
  0 <= 2 < 2147483648 /\ 0 <= 1 < 2147483648 /\
  (compare_ce_for_channel_type (scenario_ce_caps 64 255 65535)
     UVM_CHANNEL_TYPE_GPU_INTERNAL 2 1 [0; 0; 64; 64; 64] < 0 <->
   lex_lt (ce_rank (scenario_ce_caps 64 255 65535)
             UVM_CHANNEL_TYPE_GPU_INTERNAL [0; 0; 64; 64; 64] 2)
          (ce_rank (scenario_ce_caps 64 255 65535)
             UVM_CHANNEL_TYPE_GPU_INTERNAL [0; 0; 64; 64; 64] 1)).
Proof.
  split; [lia |]. split; [lia |].
  apply (compare_ce_for_channel_type_is_lexicographic
           (scenario_ce_caps 64 255 65535) UVM_CHANNEL_TYPE_GPU_INTERNAL
           [0; 0; 64; 64; 64] 2 1); [lia | lia | reflexivity].
Defined.

(** X14.  Under the same bounds the comparison is a strict total order
    of the copy engines: it is never 0 on two different CEs, exchanging
    the CEs exchanges the sign, and it is transitive.  The assertion
    that the indices differ is what keeps the last resort, the order by
    index, from returning 0. *)
Theorem compare_ce_for_channel_type_strict_order
    (ce_caps : list UvmGpuCopyEngineCaps) (type : uvm_channel_type_t)
    (preferred_ce : list Z) (i j k : Z) :
  0 <= i < 2147483648 -> 0 <= j < 2147483648 -> 0 <= k < 2147483648 ->
  length preferred_ce = UVM_CHANNEL_TYPE_COUNT ->
  (i <> j -> compare_ce_for_channel_type ce_caps type i j preferred_ce <> 0) /\
  compare_ce_for_channel_type ce_caps type i i preferred_ce = 0 /\
  (compare_ce_for_channel_type ce_caps type i j preferred_ce < 0 <->
   0 < compare_ce_for_channel_type ce_caps type j i preferred_ce) /\
  (compare_ce_for_channel_type ce_caps type i j preferred_ce < 0 ->
   compare_ce_for_channel_type ce_caps type j k preferred_ce < 0 ->
   compare_ce_for_channel_type ce_caps type i k preferred_ce < 0).
Proof.
  intros Hi Hj Hk Hlen. split; [| split; [| split]].
  - intros Hne Hz.
    destruct (compare_ce_total ce_caps type preferred_ce i j Hi Hj Hne Hlen) as [H | H].
    + lia.
    + apply (compare_ce_asym ce_caps type preferred_ce j i Hj Hi Hlen) in H. lia.
  - destruct (compare_ce_lex ce_caps type preferred_ce i i Hi Hi Hlen) as [H1 H2].
    pose proof (lex_lt_irrefl (ce_rank ce_caps type preferred_ce i)) as Hirr.
    destruct (Z.lt_trichotomy
                (compare_ce_for_channel_type ce_caps type i i preferred_ce) 0)
      as [H | [H | H]]; [| exact H |].
    + exfalso. apply Hirr, H1, H.
    + exfalso. apply Hirr, H2, H.
  - apply compare_ce_asym; assumption.
  - apply compare_ce_trans; assumption.
Qed.

Lemma compare_ce_for_channel_type_strict_order_witness :
  0 <= 0 < 2147483648 /\ 0 <= 1 < 2147483648 /\ 0 <= 2 < 2147483648 /\
  (compare_ce_for_channel_type (scenario_ce_caps 64 255 65535)
     UVM_CHANNEL_TYPE_MEMOPS 0 1 [0; 0; 2; 64; 2] < 0 <->
   0 < compare_ce_for_channel_type (scenario_ce_caps 64 255 65535)
         UVM_CHANNEL_TYPE_MEMOPS 1 0 [0; 0; 2; 64; 2]).
Proof.
  split; [lia |]. split; [lia |]. split; [lia |].
  destruct (compare_ce_for_channel_type_strict_order
              (scenario_ce_caps 64 255 65535) UVM_CHANNEL_TYPE_MEMOPS
              [0; 0; 2; 64; 2] 0 1 2) as (_ & _ & Hasym & _);
    [lia | lia | lia | reflexivity |].
  exact Hasym.
Defined.

(** ** Picking the copy engine of a channel type *)

Lemma indices_below_S m :
  indices_below (Z.of_nat (S m)) = indices_below (Z.of_nat m) ++ [Z.of_nat m].
Proof.
  unfold indices_below. rewrite !Nat2Z.id, seq_S, map_app. reflexivity.
Qed.

Lemma pick_ce_fold_spec n ce_caps type preferred_ce mask (m : nat) :
  Z.of_nat m <= n -> n <= 2147483648 ->
  length preferred_ce = UVM_CHANNEL_TYPE_COUNT ->
  exists mask' best,
    fold_left (pick_ce_step n ce_caps type preferred_ce)
              (indices_below (Z.of_nat m)) (mask, n) = (mask', best) /\
    (forall b, 0 <= b ->
       Z.testbit mask' b =
       Z.testbit mask b ||
       ((b <? Z.of_nat m) && ce_usable_for_channel_type type (caps_at ce_caps b))) /\
    ((best = n /\
      forall i, 0 <= i < Z.of_nat m ->
        ce_usable_for_channel_type type (caps_at ce_caps i) = false) \/
     (0 <= best < Z.of_nat m /\
      ce_usable_for_channel_type type (caps_at ce_caps best) = true /\
      forall i, 0 <= i < Z.of_nat m ->
        ce_usable_for_channel_type type (caps_at ce_caps i) = true ->
        i <> best ->
        compare_ce_for_channel_type ce_caps type best i preferred_ce < 0)).
Proof.
  intros Hm Hn Hlen. induction m as [| m IH].
  - exists mask, n. split; [reflexivity |]. split.
    + intros b Hb. destruct (Z.ltb_spec b (Z.of_nat 0)); [lia |].
      cbn [andb]. rewrite orb_false_r. reflexivity.
    + left. split; [reflexivity |]. intros i Hi. lia.
  - destruct (IH ltac:(lia)) as (mask1 & best1 & Hfold & Hmask & Hbest).
    rewrite indices_below_S, fold_left_app, Hfold. cbn [fold_left].
    unfold pick_ce_step.
    set (i := Z.of_nat m) in *.
    assert (Hi : 0 <= i < Z.of_nat (S m)) by lia.
    destruct (ce_usable_for_channel_type type (caps_at ce_caps i)) eqn:Hu;
      cbn [negb].
    + assert (Hbits : forall b, 0 <= b ->
                Z.testbit (Z.setbit mask1 i) b =
                Z.testbit mask b ||
                ((b <? Z.of_nat (S m)) &&
                 ce_usable_for_channel_type type (caps_at ce_caps b))).
      { intros b Hb. rewrite Z.setbit_eqb by lia. rewrite (Hmask b Hb).
        destruct (Z.eqb_spec i b) as [<- | Hne].
        - rewrite Hu. destruct (Z.ltb_spec i (Z.of_nat (S m))); [| lia].
          cbn. rewrite orb_true_r. reflexivity.
        - cbn [orb]. destruct (Z.ltb_spec b i), (Z.ltb_spec b (Z.of_nat (S m)));
            try lia; reflexivity. }
      destruct Hbest as [[-> Hnone] | (Hrange & Husable & Hwins)].
      * rewrite Z.eqb_refl. exists (Z.setbit mask1 i), i.
        split; [reflexivity |]. split; [exact Hbits |].
        right. split; [lia |]. split; [exact Hu |].
        intros k Hk Hku Hne. rewrite Hnone in Hku by lia. discriminate.
      * destruct (Z.eqb_spec best1 n) as [| _]; [lia |].
        destruct (Z.ltb_spec
                    (compare_ce_for_channel_type ce_caps type i best1 preferred_ce) 0)
          as [Hlt | Hge].
        -- exists (Z.setbit mask1 i), i.
           split; [reflexivity |]. split; [exact Hbits |].
           right. split; [lia |]. split; [exact Hu |].
           intros k Hk Hku Hne.
           destruct (Z.eq_dec k best1) as [-> | Hne']; [exact Hlt |].
           apply (compare_ce_trans ce_caps type preferred_ce i best1 k);
             try lia; try assumption.
           apply Hwins; (assumption || lia).
        -- exists (Z.setbit mask1 i), best1.
           split; [reflexivity |]. split; [exact Hbits |].
           right. split; [lia |]. split; [exact Husable |].
           intros k Hk Hku Hne.
           destruct (Z.eq_dec k i) as [-> | Hne'].
           ++ destruct (compare_ce_total ce_caps type preferred_ce best1 i)
                as [H | H]; try lia; assumption.
           ++ apply Hwins; (assumption || lia).
    + exists mask1, best1. split; [reflexivity |]. split.
      * intros b Hb. rewrite (Hmask b Hb).
        destruct (Z.eq_dec b i) as [-> | Hne].
        -- rewrite Hu. rewrite !andb_false_r. reflexivity.
        -- destruct (Z.ltb_spec b i), (Z.ltb_spec b (Z.of_nat (S m)));
             try lia; reflexivity.
      * destruct Hbest as [[-> Hnone] | (Hrange & Husable & Hwins)].
        -- left. split; [reflexivity |]. intros k Hk.
           destruct (Z.eq_dec k i) as [-> | Hne]; [exact Hu | apply Hnone; lia].
        -- right. split; [lia |]. split; [exact Husable |].
           intros k Hk Hku Hne.
           destruct (Z.eq_dec k i) as [-> | Hne'];
             [rewrite Hu in Hku; discriminate |].
           apply Hwins; (assumption || lia).
Qed.

Lemma pick_ce_for_channel_type_run n ce_caps type preferred_ce mask :
  0 <= n <= 2147483648 ->
  length preferred_ce = UVM_CHANNEL_TYPE_COUNT ->
  exists status mask' preferred_ce',
    pick_ce_for_channel_type n mask ce_caps type preferred_ce =
      (status, mask', preferred_ce') /\
    (forall b, 0 <= b ->
       Z.testbit mask' b =
       Z.testbit mask b ||
       ((b <? n) && ce_usable_for_channel_type type (caps_at ce_caps b))) /\
    ((status = NV_ERR_NOT_SUPPORTED /\ preferred_ce' = preferred_ce /\
      forall i, ~ usable_ce n ce_caps type i) \/
     (status = NV_OK /\
      exists best,
        preferred_ce' = <[channel_type_index type := best]> preferred_ce /\
        usable_ce n ce_caps type best /\
        forall i, usable_ce n ce_caps type i -> i <> best ->
          compare_ce_for_channel_type ce_caps type best i preferred_ce < 0)).
Proof.
  intros Hn Hlen.
  destruct (pick_ce_fold_spec n ce_caps type preferred_ce mask (Z.to_nat n))
    as (mask' & best & Hfold & Hmask & Hbest); try lia; try assumption.
  rewrite Z2Nat.id in * by lia.
  unfold pick_ce_for_channel_type. rewrite Hfold.
  destruct Hbest as [[-> Hnone] | (Hrange & Husable & Hwins)].
  - rewrite Z.eqb_refl. do 3 eexists. split; [reflexivity |].
    split; [exact Hmask |]. left. split; [reflexivity |]. split; [reflexivity |].
    intros i [Hi Hu]. rewrite Hnone in Hu by exact Hi. discriminate.
  - destruct (Z.eqb_spec best n); [lia |].
    do 3 eexists. split; [reflexivity |].
    split; [exact Hmask |]. right. split; [reflexivity |].
    exists best. split; [reflexivity |]. split; [split; assumption |].
    intros i [Hi Hu] Hne. apply Hwins; assumption.
Qed.

(** X15.  [pick_ce_for_channel_type] fails with NV_ERR_NOT_SUPPORTED
    exactly when no copy engine below UVM_COPY_ENGINE_COUNT_MAX is usable
    for the channel type, and then leaves the table of preferred CEs as
    it was; otherwise it returns NV_OK and stores a usable CE for the
    type.  Either way the bits it adds to the CE mask are those of the
    CEs usable for the type, and no bit is cleared. *)
Theorem pick_ce_for_channel_type_spec
    (n : Z) (ce_caps : list UvmGpuCopyEngineCaps) (type : uvm_channel_type_t)
    (preferred_ce : list Z) (mask : Z) :
  0 <= n <= 2147483648 ->
  length preferred_ce = UVM_CHANNEL_TYPE_COUNT ->
  exists status mask' preferred_ce',
    pick_ce_for_channel_type n mask ce_caps type preferred_ce =
      (status, mask', preferred_ce') /\
    (status = NV_OK \/ status = NV_ERR_NOT_SUPPORTED) /\
    (status = NV_ERR_NOT_SUPPORTED <-> forall i, ~ usable_ce n ce_caps type i) /\
    (status = NV_ERR_NOT_SUPPORTED -> preferred_ce' = preferred_ce) /\
    (status = NV_OK ->
     exists best,
       preferred_ce' !! channel_type_index type = Some best /\
       usable_ce n ce_caps type best /\
       (forall k, k <> channel_type_index type ->
          preferred_ce' !! k = preferred_ce !! k)) /\
    (forall b, 0 <= b ->
       Z.testbit mask' b =
       Z.testbit mask b ||
       ((b <? n) && ce_usable_for_channel_type type (caps_at ce_caps b))).
Proof.
  intros Hn Hlen.
  destruct (pick_ce_for_channel_type_run n ce_caps type preferred_ce mask Hn Hlen)
    as (status & mask' & pref' & Hrun & Hmask & Hres).
  exists status, mask', pref'. split; [exact Hrun |].
  destruct Hres as [(-> & -> & Hnone) | (-> & best & -> & Hbest & _)].
  - split; [right; reflexivity |]. split; [tauto |]. split; [reflexivity |].
    split; [discriminate | exact Hmask].
  - split; [left; reflexivity |]. split.
    + split; [discriminate |]. intros Hnone. exfalso. exact (Hnone best Hbest).
    + split; [discriminate |]. split; [| exact Hmask].
      intros _. exists best. split; [| split; [exact Hbest |]].
      * apply list_lookup_insert_eq. rewrite Hlen. unfold UVM_CHANNEL_TYPE_COUNT. destruct type; cbn; lia.
      * intros k Hk. apply list_lookup_insert_ne. congruence.
Qed.

Lemma pick_ce_for_channel_type_spec_witness :
  0 <= 64 <= 2147483648 /\
  exists status mask' preferred_ce',
    pick_ce_for_channel_type 64 0 (scenario_ce_caps 64 255 65535)
      UVM_CHANNEL_TYPE_GPU_TO_GPU [0; 0; 2; 64; 64] =
      (status, mask', preferred_ce') /\
    (status = NV_OK \/ status = NV_ERR_NOT_SUPPORTED).
Proof.
  split; [lia |].
  destruct (pick_ce_for_channel_type_spec 64 (scenario_ce_caps 64 255 65535)
              UVM_CHANNEL_TYPE_GPU_TO_GPU [0; 0; 2; 64; 64] 0)
    as (status & mask' & pref' & Hrun & Hst & _); [lia | reflexivity |].
  exists status, mask', pref'. split; [exact Hrun | exact Hst].
Defined.

(** X16.  The copy engine [pick_ce_for_channel_type] stores is the best
    one for the channel type: compared with any other usable CE below
    UVM_COPY_ENGINE_COUNT_MAX, [compare_ce_for_channel_type] is negative,
    with the preferred CEs as they were before the call. *)
Theorem pick_ce_for_channel_type_is_best
    (n : Z) (ce_caps : list UvmGpuCopyEngineCaps) (type : uvm_channel_type_t)
    (preferred_ce preferred_ce' : list Z) (mask mask' : Z) :
  0 <= n <= 2147483648 ->
  length preferred_ce = UVM_CHANNEL_TYPE_COUNT ->
  pick_ce_for_channel_type n mask ce_caps type preferred_ce =
    (NV_OK, mask', preferred_ce') ->
  exists best,
    preferred_ce' !! channel_type_index type = Some best /\
    usable_ce n ce_caps type best /\
    Z.testbit mask' best = true /\
    forall i, usable_ce n ce_caps type i -> i <> best ->
      compare_ce_for_channel_type ce_caps type best i preferred_ce < 0 /\
      0 < compare_ce_for_channel_type ce_caps type i best preferred_ce.
Proof.
  intros Hn Hlen Hrun.
  destruct (pick_ce_for_channel_type_run n ce_caps type preferred_ce mask Hn Hlen)
    as (status & mask2 & pref2 & Hrun2 & Hmask & Hres).
  rewrite Hrun in Hrun2. inversion Hrun2; subst status mask2 pref2. clear Hrun2.
  destruct Hres as [(Hst & _) | (_ & best & -> & Hbest & Hwins)]; [discriminate |].
  exists best. split; [| split; [exact Hbest | split]].
  - apply list_lookup_insert_eq. rewrite Hlen. unfold UVM_CHANNEL_TYPE_COUNT. destruct type; cbn; lia.
  - destruct Hbest as [Hr Hu]. rewrite Hmask by lia. rewrite Hu.
    destruct (Z.ltb_spec best n); [| lia]. apply orb_true_r.
  - intros i Hi Hne. pose proof (Hwins i Hi Hne) as Hlt. split; [exact Hlt |].
    destruct Hi as [Hi _]. destruct Hbest as [Hb _].
    apply (compare_ce_asym ce_caps type preferred_ce best i); (assumption || lia).
Qed.

Lemma pick_ce_for_channel_type_is_best_witness :
  0 <= 64 <= 2147483648 /\
  pick_ce_for_channel_type 64 0 (scenario_ce_caps 64 255 65535)
    UVM_CHANNEL_TYPE_GPU_TO_GPU [0; 0; 2; 64; 64] = (NV_OK, 6, [0; 0; 2; 64; 2]) /\
  exists best, [0; 0; 2; 64; 2] !! channel_type_index UVM_CHANNEL_TYPE_GPU_TO_GPU
               = Some best /\
               Z.testbit 6 best = true.
Proof.
  assert (Hrun : pick_ce_for_channel_type 64 0 (scenario_ce_caps 64 255 65535)
                   UVM_CHANNEL_TYPE_GPU_TO_GPU [0; 0; 2; 64; 64] =
                 (NV_OK, 6, [0; 0; 2; 64; 2])) by (vm_compute; reflexivity).
  split; [lia |]. split; [exact Hrun |].
  destruct (pick_ce_for_channel_type_is_best 64 (scenario_ce_caps 64 255 65535)
              UVM_CHANNEL_TYPE_GPU_TO_GPU [0; 0; 2; 64; 64] [0; 0; 2; 64; 2] 0 6)
    as (best & Hat & _ & Hbit & _); [lia | reflexivity | exact Hrun |].
  exists best. split; [exact Hat | exact Hbit].
Defined.

(** ** Picking the copy engines of all channel types *)

Lemma channel_type_index_inj t t' :
  channel_type_index t = channel_type_index t' -> t = t'.
Proof. destruct t, t'; cbn; intros H; (reflexivity || discriminate). Qed.

Lemma uvm_channel_type_eq_dec (t t' : uvm_channel_type_t) : {t = t'} + {t <> t'}.
Proof. decide equality. Qed.

Lemma pick_ce_for_channel_types_run n ce_caps types : forall mask preferred_ce,
  0 <= n <= 2147483648 ->
  length preferred_ce = UVM_CHANNEL_TYPE_COUNT ->
  exists status mask' preferred_ce',
    pick_ce_for_channel_types n types mask ce_caps preferred_ce =
      (status, mask', preferred_ce') /\
    (status = NV_OK \/ status = NV_ERR_NOT_SUPPORTED) /\
    (status = NV_OK <->
     forall t, In t types -> exists i, usable_ce n ce_caps t i) /\
    (status = NV_OK ->
     (forall b, 0 <= b ->
        Z.testbit mask' b =
        Z.testbit mask b ||
        ((b <? n) &&
         existsb (fun t => ce_usable_for_channel_type t (caps_at ce_caps b)) types)) /\
     (forall t, In t types ->
        exists ce, preferred_ce' !! channel_type_index t = Some ce /\
                   usable_ce n ce_caps t ce) /\
     (forall k, (forall t, In t types -> channel_type_index t <> k) ->
        preferred_ce' !! k = preferred_ce !! k)).
Proof.
  induction types as [| type rest IH]; intros mask preferred_ce Hn Hlen.
  - exists NV_OK, mask, preferred_ce. split; [reflexivity |].
    split; [left; reflexivity |]. split.
    + split; [intros _ t [] | reflexivity].
    + intros _. split; [| split].
      * intros b Hb. cbn [existsb]. rewrite andb_false_r, orb_false_r. reflexivity.
      * intros t [].
      * reflexivity.
  - cbn [pick_ce_for_channel_types].
    destruct (pick_ce_for_channel_type_run n ce_caps type preferred_ce mask Hn Hlen)
      as (status & mask1 & pref1 & Hrun & Hmask & Hres).
    rewrite Hrun.
    destruct Hres as [(-> & -> & Hnone) | (-> & best & -> & Hbest & _)];
      cbn [NV_STATUS_eqb].
    + exists NV_ERR_NOT_SUPPORTED, mask1, preferred_ce. split; [reflexivity |].
      split; [right; reflexivity |]. split; [| discriminate].
      split; [discriminate |]. intros Hall. exfalso.
      destruct (Hall type (or_introl eq_refl)) as [i Hi]. exact (Hnone i Hi).
    + assert (Hlen1 : length (<[channel_type_index type := best]> preferred_ce) =
                      UVM_CHANNEL_TYPE_COUNT) by (rewrite length_insert; exact Hlen).
      destruct (IH mask1 _ Hn Hlen1)
        as (status & mask' & pref' & Hrest & Hst & Hiff & Hok).
      exists status, mask', pref'. split; [exact Hrest |]. split; [exact Hst |].
      split.
      * rewrite Hiff. split.
        -- intros Hall t [<- | Hin]; [exists best; exact Hbest | apply Hall; exact Hin].
        -- intros Hall t Hin. apply Hall. right. exact Hin.
      * intros Hs. destruct (Hok Hs) as (Hbits & Hpref & Hkeep).
        split; [| split].
        -- intros b Hb. rewrite (Hbits b Hb), (Hmask b Hb). cbn [existsb].
           destruct (Z.testbit mask b), (b <? n),
             (ce_usable_for_channel_type type (caps_at ce_caps b)),
             (existsb _ rest); reflexivity.
        -- intros t [<- | Hin]; [| apply Hpref; exact Hin].
           destruct (in_dec uvm_channel_type_eq_dec type rest) as [Hin | Hnotin];
             [apply Hpref; exact Hin |].
           exists best. split; [| exact Hbest].
           rewrite Hkeep.
           ++ apply list_lookup_insert_eq. rewrite Hlen.
              unfold UVM_CHANNEL_TYPE_COUNT. destruct type; cbn; lia.
           ++ intros t Hin Heq. apply channel_type_index_inj in Heq.
              subst t. contradiction.
        -- intros k Hk. rewrite Hkeep.
           ++ apply list_lookup_insert_ne. apply Hk. left. reflexivity.
           ++ intros t Hin. apply Hk. right. exact Hin.
Qed.

Lemma usable_for_memops type cap :
  ce_usable_for_channel_type type cap = true ->
  ce_usable_for_channel_type UVM_CHANNEL_TYPE_MEMOPS cap = true.
Proof.
  unfold ce_usable_for_channel_type.
  destruct (negb (supported cap) || grce cap); [discriminate | reflexivity].
Qed.

Lemma pick_copy_engines_run n ce_caps mask preferred_ce :
  0 <= n <= 2147483648 ->
  length preferred_ce = UVM_CHANNEL_TYPE_COUNT ->
  exists status mask' preferred_ce',
    channel_manager_pick_copy_engines n (NV_OK, ce_caps) mask preferred_ce =
      (status, mask', preferred_ce') /\
    (status = NV_OK \/ status = NV_ERR_NOT_SUPPORTED) /\
    (status = NV_OK <-> forall type, exists i, usable_ce n ce_caps type i) /\
    (status = NV_OK ->
     (forall b, 0 <= b ->
        Z.testbit mask' b =
        Z.testbit mask b ||
        ((b <? n) &&
         ce_usable_for_channel_type UVM_CHANNEL_TYPE_MEMOPS (caps_at ce_caps b))) /\
     length preferred_ce' = UVM_CHANNEL_TYPE_COUNT /\
     (forall type,
        exists ce, preferred_ce' !! channel_type_index type = Some ce /\
                   usable_ce n ce_caps type ce /\ Z.testbit mask' ce = true)).
Proof.
  intros Hn Hlen. unfold channel_manager_pick_copy_engines. cbn [NV_STATUS_eqb negb].
  set (types := [UVM_CHANNEL_TYPE_CPU_TO_GPU; UVM_CHANNEL_TYPE_GPU_TO_CPU;
                 UVM_CHANNEL_TYPE_GPU_INTERNAL; UVM_CHANNEL_TYPE_GPU_TO_GPU;
                 UVM_CHANNEL_TYPE_MEMOPS]).
  assert (Hall : forall t, In t types) by (intros []; cbn; tauto).
  destruct (pick_ce_for_channel_types_run n ce_caps types mask preferred_ce Hn Hlen)
    as (status & mask' & pref' & Hrun & Hst & Hiff & Hok).
  exists status, mask', pref'. split; [exact Hrun |]. split; [exact Hst |].
  split.
  - rewrite Hiff. split; [intros H t; apply H, Hall | intros H t _; apply H].
  - intros Hs. destruct (Hok Hs) as (Hbits & Hpref & _).
    assert (Hmask : forall b, 0 <= b ->
              Z.testbit mask' b =
              Z.testbit mask b ||
              ((b <? n) &&
               ce_usable_for_channel_type UVM_CHANNEL_TYPE_MEMOPS (caps_at ce_caps b))).
    { intros b Hb. rewrite (Hbits b Hb). do 2 f_equal.
      unfold types. cbn [existsb]. rewrite orb_false_r.
      destruct (ce_usable_for_channel_type UVM_CHANNEL_TYPE_MEMOPS (caps_at ce_caps b))
        eqn:Hm; [rewrite !orb_true_r; reflexivity |].
      rewrite orb_false_r.
      repeat match goal with
             | |- context [ce_usable_for_channel_type ?t (caps_at ce_caps b)] =>
                 lazymatch t with
                 | UVM_CHANNEL_TYPE_MEMOPS => fail
                 | _ => destruct (ce_usable_for_channel_type t (caps_at ce_caps b)) eqn:?
                 end
             end;
        try reflexivity;
        match goal with
        | H : ce_usable_for_channel_type _ _ = true |- _ =>
            apply usable_for_memops in H; congruence
        end. }
    split; [exact Hmask |]. split.
    + clear -Hrun Hlen. revert Hrun. unfold types.
      cbn [pick_ce_for_channel_types]. unfold pick_ce_for_channel_type.
      repeat (destruct (fold_left _ _ _) as [? ?];
              destruct (_ =? n); cbn [NV_STATUS_eqb];
              [intros H; inversion H; subst; rewrite ?length_insert; assumption |]).
      intros H; inversion H; subst. rewrite ?length_insert. assumption.
    + intros type. destruct (Hpref type (Hall type)) as (ce & Hat & Hce).
      exists ce. split; [exact Hat |]. split; [exact Hce |].
      destruct Hce as [Hr Hu]. rewrite Hmask by lia.
      rewrite (usable_for_memops _ _ Hu).
      destruct (Z.ltb_spec ce n); [| lia]. apply orb_true_r.
Qed.

(** X17.  When RM answers the query, [channel_manager_pick_copy_engines]
    returns NV_OK exactly when every channel type has a usable copy
    engine below UVM_COPY_ENGINE_COUNT_MAX, and NV_ERR_NOT_SUPPORTED
    otherwise.  On success every channel type has got a CE that is usable
    for it and whose bit is set in the CE mask, and the bits added to the
    mask are exactly those of the CEs that are supported and are not
    GRCEs, whether a type prefers them or not.  When the query fails its
    status is returned and nothing is written. *)
Theorem channel_manager_pick_copy_engines_spec
    (n : Z) (query_status : NV_STATUS) (ce_caps : list UvmGpuCopyEngineCaps)
    (mask : Z) (preferred_ce : list Z) :
  0 <= n <= 2147483648 ->
  length preferred_ce = UVM_CHANNEL_TYPE_COUNT ->
  exists status mask' preferred_ce',
    channel_manager_pick_copy_engines n (query_status, ce_caps) mask preferred_ce =
      (status, mask', preferred_ce') /\
    (query_status <> NV_OK ->
     status = query_status /\ mask' = mask /\ preferred_ce' = preferred_ce) /\
    (query_status = NV_OK ->
     (status = NV_OK \/ status = NV_ERR_NOT_SUPPORTED) /\
     (status = NV_OK <-> forall type, exists i, usable_ce n ce_caps type i) /\
     (status = NV_OK ->
      (forall b, 0 <= b ->
         Z.testbit mask' b =
         Z.testbit mask b ||
         ((b <? n) && supported (caps_at ce_caps b) && negb (grce (caps_at ce_caps b)))) /\
      (forall type,
         exists ce, preferred_ce' !! channel_type_index type = Some ce /\
                    usable_ce n ce_caps type ce /\ Z.testbit mask' ce = true))).
Proof.
  intros Hn Hlen. destruct (NV_STATUS_eqb query_status NV_OK) eqn:E.
  - apply NV_STATUS_eqb_eq in E. subst query_status.
    destruct (pick_copy_engines_run n ce_caps mask preferred_ce Hn Hlen)
      as (status & mask' & pref' & Hrun & Hst & Hiff & Hok).
    exists status, mask', pref'. split; [exact Hrun |].
    split; [intros H; contradiction |]. intros _.
    split; [exact Hst |]. split; [exact Hiff |].
    intros Hs. destruct (Hok Hs) as (Hbits & _ & Hpref).
    split; [| exact Hpref].
    intros b Hb. rewrite (Hbits b Hb). f_equal.
    unfold ce_usable_for_channel_type.
    destruct (b <? n), (supported (caps_at ce_caps b)), (grce (caps_at ce_caps b));
      reflexivity.
  - exists query_status, mask, preferred_ce.
    unfold channel_manager_pick_copy_engines. rewrite E. cbn [negb].
    split; [reflexivity |]. split; [intros _; repeat split |].
    intros ->. discriminate.
Qed.

Lemma channel_manager_pick_copy_engines_spec_witness :
  0 <= 64 <= 2147483648 /\
  exists status mask' preferred_ce',
    channel_manager_pick_copy_engines 64 (NV_OK, scenario_ce_caps 64 255 65535) 0
      (repeat 64 UVM_CHANNEL_TYPE_COUNT) = (status, mask', preferred_ce') /\
    (status = NV_OK <->
     forall type, exists i, usable_ce 64 (scenario_ce_caps 64 255 65535) type i).
Proof.
  split; [lia |].
  destruct (channel_manager_pick_copy_engines_spec 64 NV_OK
              (scenario_ce_caps 64 255 65535) 0 (repeat 64 UVM_CHANNEL_TYPE_COUNT))
    as (status & mask' & pref' & Hrun & _ & Hok); [lia | reflexivity |].
  exists status, mask', pref'. split; [exact Hrun |].
  destruct (Hok eq_refl) as (_ & Hiff & _). exact Hiff.
Defined.

(** ** Pool creation: failures *)

Lemma channel_pool_destroy_loop_empties fuel : forall pool,
  Z.of_nat (length (channels pool)) = num_channels pool ->
  num_channels pool = Z.of_nat fuel ->
  num_channels pool < NvU32_modulus ->
  channel_pool_destroy_loop fuel pool =
  {| ce_index := ce_index pool; is_proxy := is_proxy pool;
     num_channels := 0; channels := [] |}.
Proof.
  induction fuel as [| fuel IH]; intros pool Hlen Hn Hb.
  - cbn [channel_pool_destroy_loop]. destruct pool as [ce px k cs].
    cbn [num_channels channels ce_index is_proxy] in *.
    rewrite Hn in Hlen. rewrite Hn.
    destruct cs; [reflexivity | cbn in Hlen; lia].
  - cbn [channel_pool_destroy_loop].
    destruct (Z.ltb_spec 0 (num_channels pool)); [| lia].
    assert (Hu : u32 (num_channels pool - 1) = Z.of_nat fuel).
    { rewrite u32_id; [lia |]. unfold is_u32. lia. }
    rewrite IH; unfold channel_destroy; cbn [ce_index is_proxy num_channels channels].
    + reflexivity.
    + rewrite Hu. destruct (channels pool) as [| c cs] eqn:Hcs using rev_ind.
      * cbn in Hlen. lia.
      * rewrite removelast_last. rewrite length_app in Hlen. cbn in Hlen. lia.
    + exact Hu.
    + rewrite Hu. lia.
Qed.

Lemma channel_pool_create_loop_status conf out todo : forall i pool status pool',
  Z.of_nat (length (channels pool)) = num_channels pool ->
  num_channels pool + Z.of_nat todo < NvU32_modulus ->
  channel_pool_create_loop conf out i todo pool = (status, pool') ->
  (status = NV_OK ->
   forall j, (i <= j < i + todo)%nat ->
     create_status (out j) = NV_OK /\ init_status (out j) = NV_OK) /\
  (status <> NV_OK ->
   num_channels pool' <= num_channels pool + Z.of_nat todo /\
   exists k, (i <= k < i + todo)%nat /\
     (forall j, (i <= j < k)%nat ->
        create_status (out j) = NV_OK /\ init_status (out j) = NV_OK) /\
     ((create_status (out k) <> NV_OK /\ status = create_status (out k)) \/
      (create_status (out k) = NV_OK /\ init_status (out k) <> NV_OK /\
       status = init_status (out k)))).
Proof.
  induction todo as [| todo IH]; intros i pool status pool' Hlen Hb Hrun.
  - cbn in Hrun. inversion Hrun; subst. split; [intros _ j Hj; lia | intros H; contradiction].
  - cbn [channel_pool_create_loop] in Hrun.
    assert (Hu : is_u32 (num_channels pool))
      by (unfold is_u32; split; [rewrite <- Hlen |]; lia).
    destruct (NV_STATUS_eqb (create_status (out i)) NV_OK) eqn:E.
    + apply NV_STATUS_eqb_eq in E. rewrite channel_create_ok in Hrun by exact E.
      cbn [NV_STATUS_eqb negb] in Hrun.
      assert (Hn1 : u32 (num_channels pool + 1) = num_channels pool + 1)
        by (apply u32_id; unfold is_u32 in *; lia).
      destruct (NV_STATUS_eqb (init_status (out i)) NV_OK) eqn:E'; cbn [negb] in Hrun.
      * apply NV_STATUS_eqb_eq in E'.
        apply IH in Hrun; cbn [num_channels channels] in *.
        -- destruct Hrun as [Hok Hfail]. split.
           ++ intros Hs j Hj. destruct (Nat.eq_dec j i) as [-> | Hne];
                [split; assumption | apply (Hok Hs); lia].
           ++ intros Hs. destruct (Hfail Hs) as (Hnum & k & Hk & Hbefore & Hat).
              split; [rewrite Hn1 in Hnum; lia |].
              exists k. split; [lia |]. split; [| exact Hat].
              intros j Hj. destruct (Nat.eq_dec j i) as [-> | Hne];
                [split; assumption | apply Hbefore; lia].
        -- rewrite Hn1, length_app. cbn. lia.
        -- rewrite Hn1. lia.
      * inversion Hrun; subst. cbn [num_channels].
        assert (Hne : init_status (out i) <> NV_OK)
          by (intros Hs; rewrite Hs in E'; discriminate).
        split; [intros Hs; contradiction |]. intros _.
        split; [rewrite Hn1; lia |].
        exists i. split; [lia |]. split; [intros j Hj; lia |].
        right. repeat split; assumption.
    + assert (Hne : create_status (out i) <> NV_OK)
        by (intros Hs; rewrite Hs in E; discriminate).
      rewrite channel_create_error in Hrun by assumption.
      rewrite E in Hrun. cbn [negb] in Hrun. inversion Hrun; subst.
      split; [intros Hs; contradiction |]. intros _.
      split; [lia |].
      exists i. split; [lia |]. split; [intros j Hj; lia |].
      left. split; [assumption | reflexivity].
Qed.

(** X18.  [channel_pool_create] returns NV_OK exactly when the channel
    array is allocated and every channel of the pool is created and
    initialised without error.  Otherwise it returns NV_ERR_NO_MEMORY for
    the array, or the status of the first channel step that failed, and
    it leaves nothing behind: the channels created so far are destroyed,
    the pool ends with no channel and the manager's pool count is what it
    was before the call. *)
Theorem channel_pool_create_failure_unwinds
    (conf : channel_manager_conf) (out : pool_outcome)
    (num_pools ce : Z) (proxy : bool) :
  is_u32 num_pools ->
  exists status pool num_pools',
    channel_pool_create conf out num_pools ce proxy = (status, pool, num_pools') /\
    (status = NV_OK <-> pool_outcome_ok proxy out) /\
    (status <> NV_OK ->
     num_channels pool = 0 /\ channels pool = [] /\ num_pools' = num_pools /\
     ce_index pool = ce /\ is_proxy pool = proxy /\
     (channels_allocated out = false -> status = NV_ERR_NO_MEMORY) /\
     (channels_allocated out = true ->
      exists k, Z.of_nat k < channel_pool_num_channels proxy /\
        (forall j, (j < k)%nat ->
           create_status (channel_outcomes out j) = NV_OK /\
           init_status (channel_outcomes out j) = NV_OK) /\
        ((create_status (channel_outcomes out k) <> NV_OK /\
          status = create_status (channel_outcomes out k)) \/
         (create_status (channel_outcomes out k) = NV_OK /\
          init_status (channel_outcomes out k) <> NV_OK /\
          status = init_status (channel_outcomes out k))))).
Proof.
  intros Hu. unfold channel_pool_create.
  destruct (channels_allocated out) eqn:Ha; cbn [negb].
  2: { do 3 eexists. split; [reflexivity |]. split.
       - split; [discriminate |]. intros [Hal _]. rewrite Ha in Hal. discriminate.
       - intros _. cbn. repeat split; try discriminate. }
  set (pool0 := {| ce_index := ce; is_proxy := proxy; num_channels := 0; channels := [] |}).
  destruct (channel_pool_create_loop conf (channel_outcomes out) 0
              (Z.to_nat (channel_pool_num_channels proxy)) pool0)
    as [status pool] eqn:Hloop.
  assert (Hnum : 0 <= channel_pool_num_channels proxy <= 2)
    by (destruct proxy; cbn; lia).
  assert (Hb : num_channels pool0 +
               Z.of_nat (Z.to_nat (channel_pool_num_channels proxy)) < NvU32_modulus)
    by (unfold NvU32_modulus; cbn [num_channels pool0]; change (2 ^ 32) with 4294967296; lia).
  assert (Hlen0 : Z.of_nat (length (channels pool0)) = num_channels pool0)
    by reflexivity.
  destruct (channel_pool_create_loop_channels _ _ _ _ _ _ _ Hlen0 Hb Hloop)
    as (Hlen & Hpx & Hce & _).
  destruct (channel_pool_create_loop_status _ _ _ _ _ _ _ Hlen0 Hb Hloop)
    as [Hok Hfail].
  destruct (NV_STATUS_eqb status NV_OK) eqn:E.
  - apply NV_STATUS_eqb_eq in E. subst status.
    do 3 eexists. split; [reflexivity |]. split; [| intros H; contradiction].
    split; [| reflexivity]. intros _. split; [exact Ha |].
    intros i Hi. apply (Hok eq_refl). lia.
  - assert (Hne : status <> NV_OK) by (intros ->; discriminate).
    destruct (Hfail Hne) as (Hle & k & Hk & Hbefore & Hat).
    cbn [num_channels pool0] in Hle.
    unfold channel_pool_destroy.
    rewrite channel_pool_destroy_loop_empties;
      [| exact Hlen | lia | unfold NvU32_modulus; change (2 ^ 32) with 4294967296; lia].
    do 3 eexists. split; [reflexivity |]. split.
    + split; [intros H; contradiction |]. intros [_ Hall]. exfalso.
      destruct (Hall k ltac:(lia)) as [Hc Hi].
      destruct Hat as [[Hc' _] | (_ & Hi' & _)]; contradiction.
    + intros _. cbn [num_channels channels ce_index is_proxy].
      split; [reflexivity |]. split; [reflexivity |]. split.
      { unfold is_u32, NvU32_modulus in Hu. unfold u32, NvU32_modulus.
        change (2 ^ 32) with 4294967296 in *.
        destruct (Z.eq_dec num_pools 4294967295) as [-> | Hmax]; [reflexivity |].
        rewrite (Z.mod_small (num_pools + 1)) by lia.
        replace (num_pools + 1 - 1) with num_pools by lia.
        apply Z.mod_small. lia. }
      split; [exact Hce |]. split; [exact Hpx |].
      split; [discriminate |]. intros _.
      exists k. split; [lia |]. split; [| exact Hat].
      intros j Hj. apply Hbefore. lia.
Qed.

Lemma channel_pool_create_failure_unwinds_witness :
  is_u32 3 /\
  exists status pool num_pools',
    channel_pool_create default_conf
      {| channels_allocated := true;
         channel_outcomes := fun i =>
           {| create_status := NV_OK; rm_tracking_sem_gpu_va := 4096;
              rm_errorNotifier_status := 0;
              init_status := match i with O => NV_OK | _ => NV_ERR_NO_MEMORY end |} |}
      3 1 false = (status, pool, num_pools') /\
    (status <> NV_OK -> num_channels pool = 0 /\ num_pools' = 3).
Proof.
  assert (Hu : is_u32 3) by (unfold is_u32, NvU32_modulus; cbn; lia).
  split; [exact Hu |].
  destruct (channel_pool_create_failure_unwinds default_conf
              {| channels_allocated := true;
                 channel_outcomes := fun i =>
                   {| create_status := NV_OK; rm_tracking_sem_gpu_va := 4096;
                      rm_errorNotifier_status := 0;
                      init_status :=
                        match i with O => NV_OK | _ => NV_ERR_NO_MEMORY end |} |}
              3 1 false Hu)
    as (status & pool & n' & Hrun & _ & Hfail).
  exists status, pool, n'. split; [exact Hrun |].
  intros Hne. destruct (Hfail Hne) as (H0 & _ & Hn & _). split; assumption.
Defined.

(** ** Pool creation: one pool per usable copy engine *)

Lemma create_ce_pools_ok conf out ces : forall num_pools pools,
  (forall ce, pool_outcome_ok false (out ce false)) ->
  0 <= num_pools -> num_pools + Z.of_nat (length ces) < NvU32_modulus ->
  create_ce_pools conf out ces num_pools pools =
  (NV_OK, num_pools + Z.of_nat (length ces),
   pools ++ map (fun ce =>
                   {| ce_index := ce; is_proxy := false;
                      num_channels := channel_pool_num_channels false;
                      channels :=
                        map (fun i => created_channel conf
                                        (channel_outcomes (out ce false) i))
                            (seq 0 (Z.to_nat (channel_pool_num_channels false))) |})
                ces).
Proof.
  induction ces as [| ce rest IH]; intros num_pools pools Hok Hn Hb.
  - cbn. rewrite Z.add_0_r, app_nil_r. reflexivity.
  - cbn [create_ce_pools length map] in *.
    rewrite (channel_pool_create_ok conf (out ce false) num_pools ce false (Hok ce)).
    cbn [NV_STATUS_eqb negb].
    rewrite (u32_id (num_pools + 1)) by (unfold is_u32; lia).
    rewrite IH by (assumption || lia).
    rewrite <- app_assoc. cbn [app]. do 2 f_equal. lia.
Qed.

Lemma usable_ces_as_map mask n :
  List.filter (fun ce => Z.testbit mask ce) (indices_below n) =
  map Z.of_nat (List.filter (fun i => Z.testbit mask (Z.of_nat i))
                            (seq 0 (Z.to_nat n))).
Proof.
  unfold indices_below. induction (seq 0 (Z.to_nat n)) as [| i l IH]; [reflexivity |].
  cbn [map List.filter]. destruct (Z.testbit mask (Z.of_nat i)); cbn [map];
    rewrite IH; reflexivity.
Qed.

Lemma usable_ces_length mask n :
  Z.of_nat (length (List.filter (fun ce => Z.testbit mask ce) (indices_below n))) =
  bitmap_weight mask n.
Proof. rewrite usable_ces_as_map, length_map. reflexivity. Qed.

Lemma usable_ces_lookup mask n ce :
  0 <= ce < n -> Z.testbit mask ce = true ->
  List.filter (fun ce => Z.testbit mask ce) (indices_below n)
    !! channel_manager_ce_pool mask ce = Some ce.
Proof.
  intros Hce Hbit. rewrite usable_ces_as_map.
  unfold channel_manager_ce_pool, bitmap_weight. rewrite Nat2Z.id.
  replace (Z.to_nat n)
    with (Z.to_nat ce + S (Z.to_nat n - Z.to_nat ce - 1))%nat by lia.
  rewrite seq_app, List.filter_app, map_app. cbn [seq List.filter Nat.add].
  rewrite Z2Nat.id by lia. rewrite Hbit. cbn [map].
  rewrite lookup_app_r by (rewrite length_map; lia).
  rewrite length_map, Nat.sub_diag. cbn. rewrite Z2Nat.id by lia. reflexivity.
Qed.

Lemma bitmap_weight_bound mask n : 0 <= bitmap_weight mask n <= Z.max 0 n.
Proof.
  unfold bitmap_weight.
  pose proof (List.filter_length_le (fun i => Z.testbit mask (Z.of_nat i))
                (seq 0 (Z.to_nat n))) as Hle.
  rewrite length_seq in Hle. lia.
Qed.

Lemma channel_manager_create_pools_run
    (n : Z) (conf : channel_manager_conf) (ce_caps : list UvmGpuCopyEngineCaps)
    (uses_proxy : bool) (out : Z -> bool -> pool_outcome) :
  0 <= n <= 2147483648 ->
  (forall type, exists i, usable_ce n ce_caps type i) ->
  (forall ce proxy, pool_outcome_ok proxy (out ce proxy)) ->
  exists manager,
    channel_manager_create_pools n conf (NV_OK, ce_caps) uses_proxy true out =
      (NV_OK, manager) /\
    (forall b, 0 <= b ->
       Z.testbit (ce_mask manager) b =
       (b <? n) && supported (caps_at ce_caps b) && negb (grce (caps_at ce_caps b))) /\
    num_channel_pools manager =
      bitmap_weight (ce_mask manager) n + (if uses_proxy then 1 else 0) /\
    Z.of_nat (length (channel_pools manager)) = num_channel_pools manager /\
    (forall ce, 0 <= ce < n -> Z.testbit (ce_mask manager) ce = true ->
       exists pool,
         channel_pools manager !! channel_manager_ce_pool (ce_mask manager) ce
           = Some pool /\
         ce_index pool = ce /\ is_proxy pool = false /\ num_channels pool = 2) /\
    (forall type, uses_proxy = false \/ type <> UVM_CHANNEL_TYPE_MEMOPS ->
       exists index pool,
         default_for_type manager !! channel_type_index type = Some index /\
         channel_pools manager !! index = Some pool /\
         is_proxy pool = false /\ usable_ce n ce_caps type (ce_index pool)) /\
    (uses_proxy = true ->
       exists pool,
         default_for_type manager !! channel_type_index UVM_CHANNEL_TYPE_MEMOPS
           = Some (Z.to_nat (bitmap_weight (ce_mask manager) n)) /\
         channel_pools manager !! Z.to_nat (bitmap_weight (ce_mask manager) n)
           = Some pool /\
         is_proxy pool = true /\ num_channels pool = 1 /\
         usable_ce n ce_caps UVM_CHANNEL_TYPE_MEMOPS (ce_index pool)) /\
    Forall (fun pool =>
              exists channel_out rest,
                channels pool = created_channel conf channel_out :: rest)
           (channel_pools manager).
Proof.
  intros Hn Husable Hout. unfold channel_manager_create_pools.
  destruct (pick_copy_engines_run n ce_caps 0 (repeat n UVM_CHANNEL_TYPE_COUNT) Hn
              (repeat_length _ _))
    as (status & mask & pref & Hpick & _ & Hiff & Hok).
  rewrite Hpick. assert (Hs : status = NV_OK) by (apply Hiff; exact Husable).
  subst status. destruct (Hok eq_refl) as (Hbits & Hlen & Hpref). clear Hok Hiff.
  cbn [NV_STATUS_eqb negb].
  assert (Hmask : forall b, 0 <= b ->
            Z.testbit mask b =
            (b <? n) && supported (caps_at ce_caps b) && negb (grce (caps_at ce_caps b))).
  { intros b Hb. rewrite (Hbits b Hb), Z.testbit_0_l. cbn [orb].
    unfold ce_usable_for_channel_type.
    destruct (b <? n), (supported (caps_at ce_caps b)), (grce (caps_at ce_caps b));
      reflexivity. }
  set (ces := List.filter (fun ce => Z.testbit mask ce) (indices_below n)).
  pose proof (usable_ces_length mask n) as Hces. fold ces in Hces.
  pose proof (bitmap_weight_bound mask n) as Hw.
  rewrite create_ce_pools_ok;
    [| intros ce; apply Hout | lia
     | rewrite Hces; unfold NvU32_modulus; change (2 ^ 32) with 4294967296; lia].
  cbn [NV_STATUS_eqb negb app]. rewrite Z.add_0_l, Hces.
  set (mkpool := fun ce : Z => {| ce_index := ce |}).
  assert (Hpool : forall ce, 0 <= ce < n -> Z.testbit mask ce = true ->
            map mkpool ces !! channel_manager_ce_pool mask ce = Some (mkpool ce)).
  { intros ce Hce Hbit. rewrite list_lookup_fmap.
    unfold ces. rewrite (usable_ces_lookup mask n ce Hce Hbit). reflexivity. }
  assert (Htypes : forall type,
            exists ce, map (channel_manager_ce_pool mask) pref
                         !! channel_type_index type
                       = Some (channel_manager_ce_pool mask ce) /\
                       usable_ce n ce_caps type ce /\ Z.testbit mask ce = true).
  { intros type. destruct (Hpref type) as (ce & Hat & Hu & Hbit).
    exists ce. split; [| split; assumption].
    rewrite list_lookup_fmap, Hat. reflexivity. }
  assert (Hlenpools : length (map mkpool ces) = Z.to_nat (bitmap_weight mask n))
    by (rewrite length_map; lia).
  assert (Hchannels : Forall (fun pool =>
                                exists channel_out rest,
                                  channels pool = created_channel conf channel_out :: rest)
                             (map mkpool ces)).
  { apply List.Forall_forall. intros pool Hin. apply in_map_iff in Hin.
    destruct Hin as (ce & <- & _). do 2 eexists. reflexivity. }
  destruct uses_proxy.
  - set (ce_memops := nth (channel_type_index UVM_CHANNEL_TYPE_MEMOPS) pref 0).
    rewrite (channel_pool_create_ok conf (out ce_memops true) _ ce_memops true
               (Hout ce_memops true)).
    cbn [NV_STATUS_eqb negb].
    rewrite (u32_id (bitmap_weight mask n + 1))
      by (unfold is_u32, NvU32_modulus; change (2 ^ 32) with 4294967296; lia).
    eexists. split; [reflexivity |].
    cbn [ce_mask num_channel_pools channel_pools default_for_type].
    split; [exact Hmask |]. split; [reflexivity |]. split.
    { rewrite length_app, Hlenpools. cbn [length]. lia. }
    split.
    { intros ce Hce Hbit. exists (mkpool ce).
      rewrite lookup_app_l.
      - split; [apply Hpool; assumption |]. repeat split.
      - apply lookup_lt_Some with (x := mkpool ce). apply Hpool; assumption. }
    split.
    { intros type [Hf | Hne]; [discriminate |].
      destruct (Htypes type) as (ce & Hat & Hu & Hbit).
      exists (channel_manager_ce_pool mask ce), (mkpool ce).
      split.
      - rewrite list_lookup_insert_ne; [exact Hat |].
        intros Heq. apply Hne. symmetry. apply channel_type_index_inj. exact Heq.
      - destruct Hu as [Hr Hu]. rewrite lookup_app_l.
        + split; [apply Hpool; assumption |].
          split; [reflexivity | split; [exact Hr | exact Hu]].
        + apply lookup_lt_Some with (x := mkpool ce). apply Hpool; assumption. }
    split.
    { intros _. eexists. split.
      { apply list_lookup_insert_eq. rewrite length_map, Hlen.
        unfold UVM_CHANNEL_TYPE_COUNT. cbn. lia. }
      split.
      { rewrite lookup_app_r by (rewrite Hlenpools; lia).
        rewrite Hlenpools, Nat.sub_diag. reflexivity. }
      cbn [is_proxy num_channels ce_index channel_pool_num_channels].
      split; [reflexivity |]. split; [reflexivity |].
      destruct (Hpref UVM_CHANNEL_TYPE_MEMOPS) as (ce & Hat & Hu & _).
      unfold ce_memops. rewrite (nth_lookup_Some _ _ _ _ Hat). exact Hu. }
    apply Forall_app. split; [exact Hchannels |].
    apply Forall_cons. split; [| apply Forall_nil; exact I].
    do 2 eexists. reflexivity.
  - eexists. split; [reflexivity |].
    cbn [ce_mask num_channel_pools channel_pools default_for_type].
    split; [exact Hmask |]. split; [lia |]. split.
    { rewrite Hlenpools. lia. }
    split.
    { intros ce Hce Hbit. exists (mkpool ce).
      split; [apply Hpool; assumption |]. repeat split. }
    split; [| split; [discriminate | exact Hchannels]].
    intros type _. destruct (Htypes type) as (ce & Hat & Hu & Hbit).
    exists (channel_manager_ce_pool mask ce), (mkpool ce).
    split; [exact Hat |]. destruct Hu as [Hr Hu].
    split; [apply Hpool; assumption |].
    split; [reflexivity | split; [exact Hr | exact Hu]].
Qed.




(** ** Reserving a slot on a channel *)

Lemma reachable_gpu_write params gpu out ch begun w :
  reachable params gpu out (ch, begun) ->
  reachable params gpu out (gpu_write w ch, begun).
Proof. intros H. eapply rtc_r; [exact H |]. apply step_gpu. Qed.

Lemma reachable_progress params gpu out ch begun k mode pending ch' evs :
  reachable params gpu out (ch, begun) ->
  uvm_channel_update_progress_with_max ch k mode = Some (pending, ch', evs) ->
  reachable params gpu out (ch', begun).
Proof. intros H Hrun. eapply rtc_r; [exact H |]. eapply step_progress. exact Hrun. Qed.

Lemma try_claim_channel_run params gpu out ch begun :
  reachable params gpu out (ch, begun) ->
  exists claimed ch',
    try_claim_channel ch = (claimed, ch') /\
    claimed = channel_is_available ch /\
    reachable params gpu out (ch', begun) /\
    cpu_put ch' = cpu_put ch /\
    current_pushes_count ch' =
      current_pushes_count ch + (if claimed then 1 else 0).
Proof.
  intros Hreach. pose proof (reachable_inv _ _ _ _ Hreach) as Hinv.
  pose proof (inv_ring _ Hinv) as Hring. cbn [fst] in Hring.
  destruct (channel_is_available ch) eqn:Ha.
  - exists true, (set_current_pushes_count (current_pushes_count ch + 1) ch).
    pose proof (try_claim_channel_granted ch Hring Ha) as Hclaim.
    split; [exact Hclaim |]. split; [reflexivity |]. split; [| split; reflexivity].
    eapply rtc_r; [exact Hreach |]. apply step_claim. exact Hclaim.
  - exists false, ch. unfold try_claim_channel. rewrite Ha.
    split; [reflexivity |]. split; [reflexivity |]. split; [exact Hreach |].
    split; [reflexivity | lia].
Qed.

Lemma update_progress_step params gpu out ch begun k mode :
  reachable params gpu out (ch, begun) ->
  exists pending ch' evs,
    uvm_channel_update_progress_with_max ch k mode = Some (pending, ch', evs) /\
    reachable params gpu out (ch', begun) /\
    cpu_put ch' = cpu_put ch /\
    current_pushes_count ch' = current_pushes_count ch.
Proof.
  intros Hreach. pose proof (reachable_channel_wf _ _ _ _ Hreach) as Hwf.
  cbn [fst] in Hwf.
  destruct (update_progress_no_fault ch k mode Hwf) as [[[p ch'] evs] Hrun].
  destruct (update_progress_reclaims ch k mode p ch' evs (wf_ring ch Hwf) Hrun)
    as (_ & _ & _ & _ & _ & _ & _ & _ & _ & _ & Hput & Hcount & _).
  exists p, ch', evs. split; [exact Hrun |].
  split; [eapply reachable_progress; eassumption |]. split; assumption.
Qed.

Lemma check_errors_step params gpu_info out ch begun gpu fatal_error :
  reachable params gpu_info out (ch, begun) ->
  exists status ch' fatal_error' evs,
    uvm_channel_check_errors ch gpu fatal_error =
      Some (status, ch', fatal_error', evs) /\
    status = uvm_channel_get_status ch gpu /\
    reachable params gpu_info out (ch', begun) /\
    cpu_put ch' = cpu_put ch /\
    current_pushes_count ch' = current_pushes_count ch /\
    errorNotifier_status ch' = errorNotifier_status ch /\
    (status = NV_OK -> ch' = ch /\ fatal_error' = fatal_error /\ evs = []) /\
    (status <> NV_OK ->
     fatal_error' = uvm_global_set_fatal_error status fatal_error /\
     fatal_error' <> NV_OK /\
     exists pending progress_evs,
       uvm_channel_update_progress_with_max ch (num_gpfifo_entries ch)
         UVM_CHANNEL_UPDATE_MODE_COMPLETED = Some (pending, ch', progress_evs)).
Proof.
  intros Hreach. pose proof (reachable_channel_wf _ _ _ _ Hreach) as Hwf.
  cbn [fst] in Hwf.
  unfold uvm_channel_check_errors.
  destruct (NV_STATUS_eqb (uvm_channel_get_status ch gpu) NV_OK) eqn:E.
  - apply NV_STATUS_eqb_eq in E. do 4 eexists. split; [reflexivity |].
    split; [symmetry; exact E |]. split; [exact Hreach |].
    repeat (split; [reflexivity |]). split; [intros _; repeat split |].
    intros H. contradiction.
  - assert (Hne : uvm_channel_get_status ch gpu <> NV_OK)
      by (intros H; rewrite H in E; discriminate).
    destruct (first_pending_entry_spec ch Hwf) as (ch' & evs & Hrun & Hentries & Hput & Hslot).
    unfold uvm_channel_get_fatal_entry. rewrite Hrun. cbn [mbind option_bind].
    assert (Hstep : exists p e, uvm_channel_update_progress_with_max ch
                       (num_gpfifo_entries ch) UVM_CHANNEL_UPDATE_MODE_COMPLETED =
                     Some (p, ch', e)).
    { revert Hrun. unfold uvm_channel_get_first_pending_entry,
        channel_update_progress_all.
      destruct (uvm_channel_update_progress_with_max ch _ _) as [[[p c] e] |];
        [| discriminate].
      cbn [mbind option_bind]. destruct (p =? 0); intros H; inversion H; subst;
        do 2 eexists; reflexivity. }
    destruct Hstep as (p & e & Hstep).
    destruct (update_progress_reclaims ch _ _ p ch' e (wf_ring ch Hwf) Hstep)
      as (_ & _ & _ & _ & _ & _ & _ & _ & _ & _ & _ & Hcount & _).
    assert (Hnotifier : errorNotifier_status ch' = errorNotifier_status ch).
    { revert Hstep. rewrite update_progress_unfold. cbv zeta.
      destruct (progress_loop _ _ _ _ _ _) as [[[g a] es] |]; [| discriminate].
      cbn. intros H. inversion H. reflexivity. }
    assert (Hflag : uvm_global_set_fatal_error (uvm_channel_get_status ch gpu)
                      fatal_error <> NV_OK).
    { unfold uvm_global_set_fatal_error.
      destruct (NV_STATUS_eqb fatal_error NV_OK) eqn:E'; [exact Hne |].
      intros H. rewrite H in E'. discriminate. }
    assert (Hreport : exists report,
              match first_pending_slot ch
                      (snd (uvm_gpu_tracking_semaphore_update_completed_value
                              (tracking_sem ch))) with
              | Some index =>
                  entry ← gpfifo_entries ch' !! Z.to_nat index;
                  info ← push_info entry;
                  Some [ev_err_caused_by_push info]
              | None => Some []
              end = Some report).
    { destruct (first_pending_slot ch _) as [index |] eqn:Hfirst;
        [| eexists; reflexivity].
      assert (Hin : In index (pending_slots ch)).
      { unfold first_pending_slot in Hfirst. apply find_some in Hfirst. tauto. }
      pose proof (wf_pending_slots ch Hwf) as Hall.
      rewrite List.Forall_forall in Hall.
      destruct (Hall index Hin) as (entry & info & He & Hi).
      rewrite Hentries, He. cbn. rewrite Hi. cbn. eexists. reflexivity. }
    destruct Hreport as (report & Hreport). rewrite Hreport. cbn [mbind option_bind].
    do 4 eexists. split; [reflexivity |]. split; [reflexivity |].
    split; [eapply reachable_progress; eassumption |].
    split; [exact Hput |]. split; [exact Hcount |]. split; [exact Hnotifier |].
    split; [intros H; contradiction |]. intros _. split; [reflexivity |].
    split; [exact Hflag |]. exists p, e. exact Hstep.
Qed.

Lemma pairs_ind (A : Type) (P : list A -> Prop) :
  P [] -> (forall a, P [a]) -> (forall a b l, P l -> P (a :: b :: l)) ->
  forall l, P l.
Proof.
  intros H0 H1 H2.
  assert (Hboth : forall l, P l /\ forall a, P (a :: l)).
  { induction l as [| b l [IH1 IH2]]; [split; [exact H0 | exact H1] |].
    split; [apply IH2 |]. intros a. apply H2. exact IH1. }
  intros l. apply Hboth.
Qed.

Lemma uvm_channel_reserve_loop_run params gpu_info out begun gpu schedule :
  forall ch status fatal_error,
  reachable params gpu_info out (ch, begun) ->
  uvm_channel_reserve_loop schedule gpu ch status fatal_error <> Faulted /\
  forall status' ch' fatal_error' evs,
    uvm_channel_reserve_loop schedule gpu ch status fatal_error =
      Finished (status', ch', fatal_error', evs) ->
    reachable params gpu_info out (ch', begun) /\
    cpu_put ch' = cpu_put ch /\
    (current_pushes_count ch' = current_pushes_count ch \/
     current_pushes_count ch' = current_pushes_count ch + 1) /\
    (status' = NV_OK ->
     status = NV_OK /\ fatal_error' = fatal_error /\
     current_pushes_count ch' = current_pushes_count ch + 1) /\
    (status' <> NV_OK ->
     (status <> NV_OK -> status' = status /\ fatal_error' = fatal_error) /\
     (status = NV_OK -> fatal_error' <> NV_OK)).
Proof.
  assert (Hexit : forall (ch : uvm_channel_t) (status fatal_error : NV_STATUS)
                          (ch1 : uvm_channel_t) (claimed : bool),
            reachable params gpu_info out (ch1, begun) ->
            cpu_put ch1 = cpu_put ch ->
            current_pushes_count ch1 =
              current_pushes_count ch + (if claimed then 1 else 0) ->
            negb (negb claimed && NV_STATUS_eqb status NV_OK) = true ->
            reachable params gpu_info out (ch1, begun) /\
            cpu_put ch1 = cpu_put ch /\
            (current_pushes_count ch1 = current_pushes_count ch \/
             current_pushes_count ch1 = current_pushes_count ch + 1) /\
            (status = NV_OK ->
             status = NV_OK /\ fatal_error = fatal_error /\
             current_pushes_count ch1 = current_pushes_count ch + 1) /\
            (status <> NV_OK ->
             (status <> NV_OK -> status = status /\ fatal_error = fatal_error) /\
             (status = NV_OK -> fatal_error <> NV_OK))).
  { intros ch status fatal_error ch1 claimed Hreach1 Hput1 Hcount1 Hcond.
    split; [exact Hreach1 |]. split; [exact Hput1 |].
    split; [destruct claimed; lia |]. split.
    - intros Hs. split; [exact Hs |]. split; [reflexivity |].
      destruct claimed; [lia |]. rewrite Hs in Hcond. discriminate.
    - intros Hne. split; [intros _; split; reflexivity | intros H; contradiction]. }
  induction schedule as [| w | w1 w2 schedule IH] using pairs_ind;
    intros ch status fatal_error Hreach;
    cbn [uvm_channel_reserve_loop];
    destruct (try_claim_channel_run _ _ _ ch begun Hreach)
      as (claimed & ch1 & Hclaim & Hav & Hreach1 & Hput1 & Hcount1);
    rewrite Hclaim;
    destruct (negb (negb claimed && NV_STATUS_eqb status NV_OK)) eqn:Hcond.
  1, 3, 5: split; [discriminate |]; intros status' ch' fatal' evs Hrun;
    inversion Hrun; subst status' ch' fatal' evs;
    eapply Hexit; eassumption.
  1, 2: split; [discriminate |]; intros status' ch' fatal' evs Hrun; discriminate.
  assert (Hnot : claimed = false /\ status = NV_OK).
  { destruct claimed; [discriminate |]. split; [reflexivity |].
    apply NV_STATUS_eqb_eq. destruct (NV_STATUS_eqb status NV_OK);
      [reflexivity | discriminate]. }
  destruct Hnot as [-> ->]. rewrite Z.add_0_r in Hcount1.
  destruct (check_errors_step _ _ _ _ _ gpu fatal_error
              (reachable_gpu_write _ _ _ _ _ w1 Hreach1))
    as (st2 & ch2 & fatal2 & evs1 & Hcheck & _ & Hreach2 & Hput2 & Hcount2 & _
        & Hok2 & Hbad2).
  rewrite Hcheck.
  destruct (update_progress_step _ _ _ _ _ 8 UVM_CHANNEL_UPDATE_MODE_COMPLETED
              (reachable_gpu_write _ _ _ _ _ w2 Hreach2))
    as (p3 & ch3 & evs2 & Hupd & Hreach3 & Hput3 & Hcount3).
  unfold uvm_channel_update_progress. rewrite Hupd.
  destruct (IH ch3 st2 fatal2 Hreach3) as [Hnofault Hfin].
  destruct (uvm_channel_reserve_loop schedule gpu ch3 st2 fatal2)
    as [[[[st4 ch4] fatal4] evs3] | |] eqn:Hloop.
  - split; [discriminate |]. intros status' ch' fatal' evs Hrun.
    inversion Hrun; subst status' ch' fatal' evs. clear Hrun.
    destruct (Hfin _ _ _ _ eq_refl) as (Hreach4 & Hput4 & Hcount4 & Hok4 & Hbad4).
    cbn [gpu_write gpu_writes cpu_put current_pushes_count] in *.
    split; [exact Hreach4 |]. split; [congruence |].
    split; [destruct Hcount4; [left | right]; lia |]. split.
    + intros Hs. destruct (Hok4 Hs) as (Hs2 & Hf & Hc).
      destruct (Hok2 Hs2) as (_ & Hf2 & _).
      split; [reflexivity |]. split; [congruence | lia].
    + intros Hne. split; [intros H; contradiction |]. intros _.
      destruct (Hbad4 Hne) as [Hkeep Hraise].
      destruct (NV_STATUS_eqb st2 NV_OK) eqn:E.
      * apply NV_STATUS_eqb_eq in E. apply Hraise. exact E.
      * assert (Hne2 : st2 <> NV_OK) by (intros H; rewrite H in E; discriminate).
        destruct (Hkeep Hne2) as [_ ->]. apply (Hbad2 Hne2).
  - exfalso. apply Hnofault. reflexivity.
  - split; [discriminate |]. intros status' ch' fatal' evs Hrun. discriminate.
Qed.

(** X20.  [uvm_channel_reserve] on a channel in a reachable state, with
    whatever the GPU writes in between: it never faults; when the channel
    is available it claims the slot at once, without an update of
    progress and without reading an error; and every run that returns is
    a sequence of steps of the push protocol that leaves [cpu_put] alone.
    NV_OK comes with exactly one more reservation and the fatal flag as it
    was; an error comes with the fatal flag raised, and the loop, which
    tries the claim before it looks at the status, may then have taken
    one reservation or none. *)
Theorem uvm_channel_reserve_spec
    (params : module_params) (gpu_info : conf_gpu_info) (out : channel_outcome)
    (st : client_state) (schedule : gpu_schedule) (gpu : uvm_gpu_ecc)
    (fatal_error : NV_STATUS) :
  reachable params gpu_info out st ->
  uvm_channel_reserve schedule gpu (fst st) fatal_error <> Faulted /\
  (channel_is_available (fst st) = true ->
   uvm_channel_reserve schedule gpu (fst st) fatal_error =
     Finished (NV_OK,
               set_current_pushes_count (current_pushes_count (fst st) + 1) (fst st),
               fatal_error, [])) /\
  forall status ch' fatal_error' evs,
    uvm_channel_reserve schedule gpu (fst st) fatal_error =
      Finished (status, ch', fatal_error', evs) ->
    reachable params gpu_info out (ch', snd st) /\
    cpu_put ch' = cpu_put (fst st) /\
    (status = NV_OK ->
     current_pushes_count ch' = current_pushes_count (fst st) + 1 /\
     fatal_error' = fatal_error) /\
    (status <> NV_OK ->
     fatal_error' <> NV_OK /\
     (current_pushes_count ch' = current_pushes_count (fst st) \/
      current_pushes_count ch' = current_pushes_count (fst st) + 1)).
Proof.
  intros Hreach. destruct st as [ch begun]. cbn [fst snd] in *.
  unfold uvm_channel_reserve.
  destruct (try_claim_channel_run _ _ _ ch begun Hreach)
    as (claimed & ch1 & Hclaim & Hav & Hreach1 & Hput1 & Hcount1).
  pose proof (inv_ring _ (reachable_inv _ _ _ _ Hreach)) as Hring. cbn [fst] in Hring.
  rewrite Hclaim. destruct claimed.
  - split; [discriminate |]. split.
    + intros Ha. rewrite (try_claim_channel_granted ch Hring Ha) in Hclaim.
      inversion Hclaim. reflexivity.
    + intros status ch' fatal' evs Hrun. inversion Hrun; subst status ch' fatal' evs.
      split; [exact Hreach1 |]. split; [exact Hput1 |].
      split; [intros _; split; [exact Hcount1 | reflexivity] |].
      intros H. contradiction.
  - rewrite Z.add_0_r in Hcount1.
    assert (Hfast : channel_is_available ch = true ->
              forall r : run_result (NV_STATUS * uvm_channel_t * NV_STATUS * list event),
                r = Finished (NV_OK,
                      set_current_pushes_count (current_pushes_count ch + 1) ch,
                      fatal_error, []))
      by (intros Ha; rewrite Ha in Hav; discriminate).
    destruct schedule as [| w schedule].
    { split; [discriminate |]. split; [intros Ha; apply Hfast, Ha |].
      intros status ch' fatal' evs Hrun. discriminate. }
    destruct (update_progress_step _ _ _ _ _ 8 UVM_CHANNEL_UPDATE_MODE_COMPLETED
                (reachable_gpu_write _ _ _ _ _ w Hreach1))
      as (p2 & ch2 & evs1 & Hupd & Hreach2 & Hput2 & Hcount2).
    unfold uvm_channel_update_progress. rewrite Hupd.
    destruct (uvm_channel_reserve_loop_run _ _ _ begun gpu schedule ch2 NV_OK
                fatal_error Hreach2) as [Hnofault Hfin].
    destruct (uvm_channel_reserve_loop schedule gpu ch2 NV_OK fatal_error)
      as [[[[st3 ch3] fatal3] evs2] | |] eqn:Hloop.
    + split; [discriminate |]. split; [intros Ha; apply Hfast, Ha |].
      intros status ch' fatal' evs Hrun. inversion Hrun; subst status ch' fatal' evs.
      destruct (Hfin _ _ _ _ eq_refl) as (Hreach3 & Hput3 & Hcount3 & Hok3 & Hbad3).
      cbn [gpu_write gpu_writes cpu_put current_pushes_count] in *.
      split; [exact Hreach3 |]. split; [congruence |]. split.
      * intros Hs. destruct (Hok3 Hs) as (_ & Hf & Hc). split; [lia | exact Hf].
      * intros Hne. destruct (Hbad3 Hne) as [_ Hraise].
        split; [apply Hraise; reflexivity |]. destruct Hcount3; [left | right]; lia.
    + exfalso. apply Hnofault. reflexivity.
    + split; [discriminate |]. split; [intros Ha; apply Hfast, Ha |].
      intros status ch' fatal' evs Hrun. discriminate.
Qed.

Lemma uvm_channel_reserve_spec_witness :
  reachable default_params discrete_gpu all_ok_channel submitted_state /\
  uvm_channel_reserve [] ecc_gpu (fst submitted_state) NV_OK <> Faulted /\
  exists ch',
    uvm_channel_reserve [] ecc_gpu (fst submitted_state) NV_OK =
      Finished (NV_OK, ch', NV_OK, []) /\
    current_pushes_count ch' = 1.
Proof.
  split; [exact submitted_state_reachable |].
  destruct (uvm_channel_reserve_spec default_params discrete_gpu all_ok_channel
              submitted_state [] ecc_gpu NV_OK submitted_state_reachable)
    as (Hnofault & Hfast & _).
  split; [exact Hnofault |].
  eexists. split; [apply Hfast; vm_compute; reflexivity |]. vm_compute. reflexivity.
Defined.

(** ** Reserving a slot in a pool *)

Lemma channel_advances_refl ch : channel_advances 0 ch ch.
Proof. split; [reflexivity |]. split; [lia |]. intros begun. apply rtc_refl. Qed.

Lemma channel_advances_trans a b ch ch1 ch2 :
  channel_advances a ch ch1 -> channel_advances b ch1 ch2 ->
  channel_advances (a + b) ch ch2.
Proof.
  intros (Hp1 & Hc1 & Hs1) (Hp2 & Hc2 & Hs2).
  split; [congruence |]. split; [lia |].
  intros begun. etransitivity; [apply Hs1 | apply Hs2].
Qed.

Lemma channel_advances_reachable params gpu_info claims ch ch' :
  channel_reachable params gpu_info ch -> channel_advances claims ch ch' ->
  channel_reachable params gpu_info ch'.
Proof.
  intros (out & begun & Hreach) (_ & _ & Hsteps). exists out, begun.
  unfold reachable in *. etransitivity; [exact Hreach | apply Hsteps].
Qed.

Lemma gpu_write_advances w ch : channel_advances 0 ch (gpu_write w ch).
Proof.
  split; [reflexivity |]. split; [cbn; lia |].
  intros begun. apply rtc_once. apply step_gpu.
Qed.

Lemma try_claim_advances params gpu_info ch :
  channel_reachable params gpu_info ch ->
  exists claimed ch',
    try_claim_channel ch = (claimed, ch') /\
    claimed = channel_is_available ch /\
    channel_advances (if claimed then 1 else 0) ch ch'.
Proof.
  intros (out & begun & Hreach).
  pose proof (inv_ring _ (reachable_inv _ _ _ _ Hreach)) as Hring.
  cbn [fst] in Hring.
  destruct (channel_is_available ch) eqn:Ha.
  - pose proof (try_claim_channel_granted ch Hring Ha) as Hclaim.
    do 2 eexists. split; [exact Hclaim |]. split; [reflexivity |].
    split; [reflexivity |]. split; [reflexivity |].
    intros b. apply rtc_once. apply step_claim. exact Hclaim.
  - exists false, ch. unfold try_claim_channel. rewrite Ha.
    split; [reflexivity |]. split; [reflexivity |]. apply channel_advances_refl.
Qed.

Lemma update_progress_advances params gpu_info ch k mode :
  channel_reachable params gpu_info ch ->
  exists pending ch' evs,
    uvm_channel_update_progress_with_max ch k mode = Some (pending, ch', evs) /\
    pending = pending_count ch' /\
    channel_advances 0 ch ch'.
Proof.
  intros (out & begun & Hreach).
  pose proof (reachable_channel_wf _ _ _ _ Hreach) as Hwf. cbn [fst] in Hwf.
  destruct (update_progress_no_fault ch k mode Hwf) as [[[p ch'] evs] Hrun].
  destruct (update_progress_reclaims ch k mode p ch' evs (wf_ring ch Hwf) Hrun)
    as (_ & _ & _ & Hpend & _ & _ & _ & _ & _ & _ & Hput & Hcount & _).
  exists p, ch', evs. split; [exact Hrun |]. split; [symmetry; exact Hpend |].
  split; [exact Hput |]. split; [lia |].
  intros b. apply rtc_once. eapply step_progress. exact Hrun.
Qed.

Lemma check_errors_advances params gpu_info ch gpu fatal_error :
  channel_reachable params gpu_info ch ->
  exists status ch' fatal_error' evs,
    uvm_channel_check_errors ch gpu fatal_error =
      Some (status, ch', fatal_error', evs) /\
    status = uvm_channel_get_status ch gpu /\
    channel_advances 0 ch ch' /\
    (status = NV_OK -> ch' = ch /\ fatal_error' = fatal_error /\ evs = []) /\
    (status <> NV_OK ->
     fatal_error' = uvm_global_set_fatal_error status fatal_error /\
     fatal_error' <> NV_OK).
Proof.
  intros (out & begun & Hreach).
  destruct (check_errors_step _ _ _ _ _ gpu fatal_error Hreach)
    as (status & ch' & fatal' & evs & Hrun & Hst & _ & Hput & Hcount & _ & Hok & Hbad).
  exists status, ch', fatal', evs. split; [exact Hrun |]. split; [exact Hst |].
  split; [| split; [exact Hok |]].
  - split; [exact Hput |]. split; [lia |]. intros b.
    destruct (NV_STATUS_eqb status NV_OK) eqn:E.
    + apply NV_STATUS_eqb_eq in E. destruct (Hok E) as (-> & _). apply rtc_refl.
    + assert (Hne : status <> NV_OK) by (intros H; rewrite H in E; discriminate).
      destruct (Hbad Hne) as (_ & _ & p & e & Hstep).
      apply rtc_once. eapply step_progress. exact Hstep.
  - intros Hne. destruct (Hbad Hne) as (Hf & Hf' & _). split; assumption.
Qed.

Lemma pool_try_claim_spec channels :
  match pool_try_claim channels with
  | (Some index, channels') =>
      exists ch,
        channels !! index = Some ch /\ channel_is_available ch = true /\
        (forall j ch_j, (j < index)%nat -> channels !! j = Some ch_j ->
           channel_is_available ch_j = false) /\
        channels' =
          <[index := set_current_pushes_count (u32 (current_pushes_count ch + 1)) ch]>
            channels
  | (None, channels') =>
      channels' = channels /\
      forall j ch_j, channels !! j = Some ch_j -> channel_is_available ch_j = false
  end.
Proof.
  induction channels as [| ch rest IH]; cbn [pool_try_claim].
  - split; [reflexivity |]. intros j ch_j H. discriminate.
  - unfold try_claim_channel. destruct (channel_is_available ch) eqn:Ha.
    + exists ch. split; [reflexivity |]. split; [exact Ha |].
      split; [intros j ch_j Hj; lia | reflexivity].
    + destruct (pool_try_claim rest) as [[index |] rest'].
      * destruct IH as (ch' & Hat & Ha' & Hbefore & ->). cbn [option_map].
        exists ch'. split; [exact Hat |]. split; [exact Ha' |].
        split; [| reflexivity].
        intros [| j] ch_j Hj Hlook; cbn in Hlook.
        -- inversion Hlook; subst. exact Ha.
        -- apply (Hbefore j ch_j); [lia | exact Hlook].
      * destruct IH as (-> & Hnone). cbn [option_map].
        split; [reflexivity |].
        intros [| j] ch_j Hlook; cbn in Hlook.
        -- inversion Hlook; subst. exact Ha.
        -- apply (Hnone j ch_j Hlook).
Qed.



Lemma insert_channel_advances claims (channels : list uvm_channel_t) (i : nat)
    ch ch_new :
  channels !! i = Some ch -> channel_advances claims ch ch_new ->
  forall j ch0, channels !! j = Some ch0 ->
    exists ch1, <[i := ch_new]> channels !! j = Some ch1 /\
                channel_advances (if Nat.eqb i j then claims else 0) ch0 ch1.
Proof.
  intros Hat Hadv j ch0 Hj. destruct (Nat.eqb_spec i j) as [<- | Hne].
  - rewrite Hat in Hj. inversion Hj; subst ch0. exists ch_new.
    split; [| exact Hadv]. apply list_lookup_insert_eq.
    apply lookup_lt_Some with (x := ch). exact Hat.
  - exists ch0. rewrite list_lookup_insert_ne by exact Hne.
    split; [exact Hj | apply channel_advances_refl].
Qed.

Lemma channel_reserve_in_pool_loop_run params gpu_info gpu schedule :
  forall channels index fatal_error,
  Forall (channel_reachable params gpu_info) channels ->
  channel_reserve_in_pool_loop schedule gpu channels index fatal_error <> Faulted /\
  forall status found channels' fatal_error' evs,
    channel_reserve_in_pool_loop schedule gpu channels index fatal_error =
      Finished (status, found, channels', fatal_error', evs) ->
    length channels' = length channels /\
    Forall (channel_reachable params gpu_info) channels' /\
    (forall j ch, channels !! j = Some ch ->
       exists ch', channels' !! j = Some ch' /\
                   channel_advances (claims_of found j) ch ch') /\
    (status = NV_OK ->
     (exists i, found = Some i /\ (i < length channels)%nat) /\
     fatal_error' = fatal_error) /\
    (status <> NV_OK -> found = None /\ fatal_error' <> NV_OK).
Proof.
  induction schedule as [| w | w1 w2 schedule IH] using pairs_ind;
    intros channels index fatal_error Hall.
  1, 2: cbn [channel_reserve_in_pool_loop]; split; [discriminate |];
    intros status found channels' fatal' evs Hrun; discriminate.
  cbn [channel_reserve_in_pool_loop].
  set (i := if (index <? length channels)%nat then index else 0%nat).
  destruct (channels !! i) as [ch |] eqn:Hat.
  2: { split; [discriminate |]. intros status found channels' fatal' evs Hrun.
       discriminate. }
  assert (Hi : (i < length channels)%nat)
    by (apply lookup_lt_Some with (x := ch); exact Hat).
  assert (Hch : channel_reachable params gpu_info ch).
  { rewrite List.Forall_forall in Hall. apply Hall.
    apply list_elem_of_In. eapply list_elem_of_lookup_2. exact Hat. }
  pose proof (gpu_write_advances w1 ch) as Hadv1.
  destruct (update_progress_advances params gpu_info (gpu_write w1 ch) 8
              UVM_CHANNEL_UPDATE_MODE_COMPLETED
              (channel_advances_reachable _ _ _ _ _ Hch Hadv1))
    as (p & ch2 & evs1 & Hupd & _ & Hadv2).
  unfold uvm_channel_update_progress. rewrite Hupd.
  pose proof (channel_advances_trans _ _ _ _ _ Hadv1 Hadv2) as Hadv12.
  destruct (try_claim_advances params gpu_info ch2
              (channel_advances_reachable _ _ _ _ _ Hch Hadv12))
    as (claimed & ch3 & Hclaim & _ & Hadv3).
  rewrite Hclaim.
  pose proof (channel_advances_trans _ _ _ _ _ Hadv12 Hadv3) as Hadv123.
  cbn [Z.add] in Hadv123.
  assert (Hkeep : forall claims ch_new,
            channel_advances claims ch ch_new ->
            Forall (channel_reachable params gpu_info) (<[i := ch_new]> channels)).
  { intros claims ch_new Hadv. apply Forall_insert; [exact Hall |].
    eapply channel_advances_reachable; eassumption. }
  destruct claimed.
  - split; [discriminate |]. intros status found channels' fatal' evs Hrun.
    inversion Hrun; subst status found channels' fatal' evs. clear Hrun.
    split; [apply length_insert |]. split; [eapply Hkeep; exact Hadv123 |].
    split; [| split].
    + intros j ch0 Hj. cbn [claims_of].
      apply (insert_channel_advances 1 channels i ch ch3 Hat Hadv123 j ch0 Hj).
    + intros _. split; [exists i; split; [reflexivity | exact Hi] | reflexivity].
    + intros H. contradiction.
  - pose proof (gpu_write_advances w2 ch3) as Hadv4.
    pose proof (channel_advances_trans _ _ _ _ _ Hadv123 Hadv4) as Hadv1234.
    cbn [Z.add] in Hadv1234.
    destruct (check_errors_advances params gpu_info (gpu_write w2 ch3) gpu fatal_error
                (channel_advances_reachable _ _ _ _ _ Hch Hadv1234))
      as (st & ch5 & fatal5 & evs2 & Hcheck & _ & Hadv5 & Hok5 & Hbad5).
    rewrite Hcheck.
    pose proof (channel_advances_trans _ _ _ _ _ Hadv1234 Hadv5) as Hadv.
    cbn [Z.add] in Hadv.
    destruct (NV_STATUS_eqb st NV_OK) eqn:E; cbn [negb].
    + apply NV_STATUS_eqb_eq in E. subst st.
      destruct (Hok5 eq_refl) as (_ & -> & _).
      destruct (IH (<[i := ch5]> channels) (S i) fatal_error (Hkeep 0 ch5 Hadv))
        as [Hnofault Hfin].
      destruct (channel_reserve_in_pool_loop schedule gpu _ _ _)
        as [[[[[st6 found6] channels6] fatal6] evs3] | |] eqn:Hloop.
      * split; [discriminate |]. intros status found channels' fatal' evs Hrun.
        inversion Hrun; subst status found channels' fatal' evs. clear Hrun.
        destruct (Hfin _ _ _ _ _ eq_refl) as (Hlen & Hall6 & Hpoint & Hok6 & Hbad6).
        rewrite length_insert in Hlen, Hok6.
        split; [exact Hlen |]. split; [exact Hall6 |]. split; [| split].
        -- intros j ch0 Hj.
           destruct (insert_channel_advances 0 channels i ch ch5 Hat Hadv j ch0 Hj)
             as (ch1 & Hj1 & Hadv01).
           destruct (Hpoint j ch1 Hj1) as (ch' & Hj' & Hadv1').
           exists ch'. split; [exact Hj' |].
           replace (claims_of found6 j)
             with ((if Nat.eqb i j then 0 else 0) + claims_of found6 j)
             by (destruct (Nat.eqb i j); lia).
           eapply channel_advances_trans; eassumption.
        -- exact Hok6.
        -- exact Hbad6.
      * exfalso. apply Hnofault. reflexivity.
      * split; [discriminate |]. intros status found channels' fatal' evs Hrun.
        discriminate.
    + assert (Hne : st <> NV_OK) by (intros H; rewrite H in E; discriminate).
      split; [discriminate |]. intros status found channels' fatal' evs Hrun.
      inversion Hrun; subst status found channels' fatal' evs. clear Hrun.
      split; [apply length_insert |]. split; [eapply Hkeep; exact Hadv |].
      split; [| split].
      * intros j ch0 Hj. cbn [claims_of].
        destruct (insert_channel_advances 0 channels i ch ch5 Hat Hadv j ch0 Hj)
          as (ch1 & Hj1 & Hadv01).
        exists ch1. split; [exact Hj1 |]. destruct (Nat.eqb i j); exact Hadv01.
      * intros H. contradiction.
      * intros _. split; [reflexivity | apply (Hbad5 Hne)].
Qed.

(** X22.  [channel_reserve_in_pool] on a pool whose channels are in
    reachable states, with whatever the GPU writes in between: it never
    faults, and every run that returns has moved each channel of the pool
    by steps of the push protocol only.  NV_OK comes with a channel of
    the pool that has exactly one more reservation, every other channel
    keeping its count, and with the fatal flag as it was.  An error comes
    with no channel, no reservation taken on any channel, and the fatal
    flag raised: unlike [uvm_channel_reserve], this loop looks for errors
    only after a claim has failed. *)
Theorem channel_reserve_in_pool_spec
    (params : module_params) (gpu_info : conf_gpu_info)
    (schedule : gpu_schedule) (gpu : uvm_gpu_ecc)
    (channels : list uvm_channel_t) (fatal_error : NV_STATUS) :
  Forall (channel_reachable params gpu_info) channels ->
  channel_reserve_in_pool schedule gpu channels fatal_error <> Faulted /\
  forall status found channels' fatal_error' evs,
    channel_reserve_in_pool schedule gpu channels fatal_error =
      Finished (status, found, channels', fatal_error', evs) ->
    length channels' = length channels /\
    Forall (channel_reachable params gpu_info) channels' /\
    (forall j ch, channels !! j = Some ch ->
       exists ch', channels' !! j = Some ch' /\
                   channel_advances (claims_of found j) ch ch') /\
    (status = NV_OK ->
     (exists i, found = Some i /\ (i < length channels)%nat) /\
     fatal_error' = fatal_error) /\
    (status <> NV_OK -> found = None /\ fatal_error' <> NV_OK).
Proof.
  intros Hall. unfold channel_reserve_in_pool.
  pose proof (pool_try_claim_spec channels) as Hspec.
  destruct (pool_try_claim channels) as [[index |] channels1].
  - destruct Hspec as (ch & Hat & Ha & _ & ->).
    assert (Hch : channel_reachable params gpu_info ch).
    { rewrite List.Forall_forall in Hall. apply Hall.
      apply list_elem_of_In. eapply list_elem_of_lookup_2. exact Hat. }
    destruct (try_claim_advances params gpu_info ch Hch)
      as (claimed & ch' & Hclaim & Hav & Hadv).
    rewrite Ha in Hav. subst claimed.
    assert (Hch' : ch' = set_current_pushes_count (u32 (current_pushes_count ch + 1)) ch).
    { unfold try_claim_channel in Hclaim. rewrite Ha in Hclaim.
      inversion Hclaim. reflexivity. }
    rewrite <- Hch'.
    split; [discriminate |]. intros status found channels' fatal' evs Hrun.
    inversion Hrun; subst status found channels' fatal' evs. clear Hrun.
    split; [apply length_insert |]. split.
    { apply Forall_insert; [exact Hall |].
      eapply channel_advances_reachable; eassumption. }
    split; [| split].
    + intros j ch0 Hj. cbn [claims_of].
      apply (insert_channel_advances 1 channels index ch ch' Hat Hadv j ch0 Hj).
    + intros _. split; [| reflexivity]. exists index. split; [reflexivity |].
      apply lookup_lt_Some with (x := ch). exact Hat.
    + intros H. contradiction.
  - destruct Hspec as (-> & _).
    apply (channel_reserve_in_pool_loop_run params gpu_info gpu schedule channels 0
             fatal_error Hall).
Qed.

Lemma channel_reserve_in_pool_spec_witness :
  Forall (channel_reachable default_params discrete_gpu)
         [fst submitted_state; fst claimed_state] /\
  channel_reserve_in_pool [] ecc_gpu [fst submitted_state; fst claimed_state] NV_OK
    <> Faulted.
Proof.
  assert (Hall : Forall (channel_reachable default_params discrete_gpu)
                        [fst submitted_state; fst claimed_state]).
  { repeat constructor.
    - exists all_ok_channel, (snd submitted_state). exact submitted_state_reachable.
    - exists all_ok_channel, (snd claimed_state). exact claimed_state_reachable. }
  split; [exact Hall |].
  apply (channel_reserve_in_pool_spec default_params discrete_gpu [] ecc_gpu
           [fst submitted_state; fst claimed_state] NV_OK Hall).
Defined.

(** ** The channels of a manager *)

Lemma u32_add_l a b : u32 (u32 a + b) = u32 (a + b).
Proof. unfold u32. apply Z.add_mod_idemp_l. discriminate. Qed.

Lemma set_channels_same pool : set_channels (channels pool) pool = pool.
Proof. destruct pool. reflexivity. Qed.

Lemma set_channel_pools_same manager :
  set_channel_pools (channel_pools manager) manager = manager.
Proof. destruct manager. reflexivity. Qed.

Lemma pending_count_zero ch :
  ring_wf ch -> pending_count ch = 0 <-> gpu_get ch = cpu_put ch.
Proof.
  intros [Hn Hp Hg Hc]. unfold pending_count. split.
  - intros Hz. destruct (Z.le_gt_cases (gpu_get ch) (cpu_put ch)).
    + rewrite Z.mod_small in Hz by lia. lia.
    + replace ((cpu_put ch - gpu_get ch) mod num_gpfifo_entries ch)
        with (cpu_put ch - gpu_get ch + num_gpfifo_entries ch) in Hz
        by (apply Z.mod_unique with (q := -1); lia).
      lia.
  - intros ->. rewrite Z.sub_diag. apply Z.mod_0_l. lia.
Qed.

Lemma channels_update_progress_run l : forall acc,
  is_u32 acc -> Forall channel_wf l ->
  exists total l' evs,
    channels_update_progress l acc = Some (total, l', evs) /\
    total = u32 (acc + total_pending l') /\
    Forall2 progress_updated l l' /\
    Forall channel_wf l'.
Proof.
  induction l as [| ch rest IH]; intros acc Hacc Hall.
  - exists acc, [], []. cbn. rewrite Z.add_0_r, u32_id by exact Hacc.
    repeat split; constructor.
  - apply Forall_cons in Hall. destruct Hall as [Hwf Hrest].
    cbn [channels_update_progress]. unfold uvm_channel_update_progress at 1.
    destruct (update_progress_no_fault ch 8 UVM_CHANNEL_UPDATE_MODE_COMPLETED Hwf)
      as [[[p ch'] evs1] Hrun].
    rewrite Hrun. cbn [mbind option_bind].
    destruct (update_progress_reclaims ch _ _ p ch' evs1 (wf_ring ch Hwf) Hrun)
      as (_ & _ & _ & Hpend & _).
    pose proof (update_progress_keeps_wf ch _ _ p ch' evs1 Hwf Hrun) as Hwf'.
    destruct (IH (u32 (acc + p)) (u32_range _) Hrest)
      as (total & rest' & evs2 & Hrest_run & Htotal & Hupd & Hwfs).
    rewrite Hrest_run. cbn [mbind option_bind].
    exists total, (ch' :: rest'), (evs1 ++ evs2). split; [reflexivity |].
    split; [| split].
    + rewrite Htotal, u32_add_l. unfold total_pending. cbn [map fold_right].
      rewrite Hpend. f_equal. lia.
    + constructor; [| exact Hupd]. exists p, evs1.
      split; [exact Hrun | symmetry; exact Hpend].
    + constructor; assumption.
Qed.

Lemma total_pending_app l1 l2 :
  total_pending (l1 ++ l2) = total_pending l1 + total_pending l2.
Proof.
  unfold total_pending. induction l1 as [| ch l1 IH]; cbn [app map fold_right]; lia.
Qed.

Lemma pools_update_progress_run l : forall acc,
  is_u32 acc -> Forall channel_wf (concat (map channels l)) ->
  exists total l' evs,
    pools_update_progress l acc = Some (total, l', evs) /\
    total = u32 (acc + total_pending (concat (map channels l'))) /\
    Forall2 progress_updated (concat (map channels l)) (concat (map channels l')) /\
    Forall2 (fun pool pool' => pool' = set_channels (channels pool') pool) l l' /\
    Forall channel_wf (concat (map channels l')).
Proof.
  induction l as [| pool rest IH]; intros acc Hacc Hall.
  - exists acc, [], []. cbn. rewrite Z.add_0_r, u32_id by exact Hacc.
    repeat split; constructor.
  - cbn [map concat] in Hall. apply Forall_app in Hall. destruct Hall as [Hpool Hrest].
    cbn [pools_update_progress].
    destruct (channels_update_progress_run (channels pool) acc Hacc Hpool)
      as (total1 & chs & evs1 & Hrun1 & Htotal1 & Hupd1 & Hwf1).
    rewrite Hrun1. cbn [mbind option_bind].
    destruct (IH total1 ltac:(rewrite Htotal1; apply u32_range) Hrest)
      as (total & rest' & evs2 & Hrun2 & Htotal & Hupd2 & Hshape & Hwf2).
    rewrite Hrun2. cbn [mbind option_bind].
    exists total, (set_channels chs pool :: rest'), (evs1 ++ evs2).
    split; [reflexivity |]. cbn [map concat channels set_channels].
    split; [| split; [| split]].
    + rewrite Htotal, Htotal1, u32_add_l, total_pending_app. f_equal. lia.
    + apply Forall2_app; assumption.
    + constructor; [reflexivity | exact Hshape].
    + apply Forall_app. split; assumption.
Qed.

Lemma total_pending_bound l :
  Forall channel_wf l ->
  0 <= total_pending l <= 1048576 * Z.of_nat (length l) /\
  (total_pending l = 0 <-> Forall (fun ch => gpu_get ch = cpu_put ch) l).
Proof.
  induction l as [| ch rest IH]; intros Hall.
  - cbn. split; [lia |]. split; [constructor | reflexivity].
  - apply Forall_cons in Hall. destruct Hall as [Hwf Hrest].
    destruct (IH Hrest) as [Hb Hz].
    pose proof (wf_ring ch Hwf) as Hring.
    pose proof (ring_wf_bound ch Hring) as HN. pose proof Hring as [Hn _ _ _].
    assert (Hd : 0 <= pending_count ch < num_gpfifo_entries ch)
      by (apply Z.mod_pos_bound; lia).
    unfold total_pending in *. cbn [map fold_right length].
    split; [lia |]. split.
    + intros Hsum. constructor.
      * apply (pending_count_zero ch Hring). lia.
      * apply Hz. lia.
    + intros Hall. apply Forall_cons in Hall. destruct Hall as [Hch Hall].
      apply (pending_count_zero ch Hring) in Hch. apply Hz in Hall. lia.
Qed.

(** X23.  [uvm_channel_manager_update_progress] on a manager whose
    channels are well formed does not fault.  It updates the progress of
    every channel once, pool after pool, and changes nothing else of the
    pools; the number it returns is the sum of the entries still pending
    on all the channels, modulo 2^32.  With fewer than 4096 channels the
    sum does not wrap, so that 0 is returned exactly when every ring of
    the manager is empty afterwards. *)
Theorem uvm_channel_manager_update_progress_spec (manager : uvm_channel_manager_t) :
  Forall channel_wf (manager_channels manager) ->
  exists pending_gpfifos manager' evs,
    uvm_channel_manager_update_progress manager =
      Some (pending_gpfifos, manager', evs) /\
    pending_gpfifos = u32 (total_pending (manager_channels manager')) /\
    Forall2 progress_updated (manager_channels manager) (manager_channels manager') /\
    Forall2 (fun pool pool' => pool' = set_channels (channels pool') pool)
            (channel_pools manager) (channel_pools manager') /\
    manager' = set_channel_pools (channel_pools manager') manager /\
    Forall channel_wf (manager_channels manager') /\
    ((length (manager_channels manager) < 4096)%nat ->
     (pending_gpfifos = 0 <->
      Forall (fun ch => gpu_get ch = cpu_put ch) (manager_channels manager'))).
Proof.
  intros Hall. unfold uvm_channel_manager_update_progress.
  assert (H0 : is_u32 0) by (unfold is_u32, NvU32_modulus; cbn; lia).
  destruct (pools_update_progress_run (channel_pools manager) 0 H0 Hall)
    as (total & pools & evs & Hrun & Htotal & Hupd & Hshape & Hwf).
  rewrite Hrun. cbn [mbind option_bind].
  exists total, (set_channel_pools pools manager), evs.
  split; [reflexivity |].
  unfold manager_channels. cbn [channel_pools set_channel_pools].
  split; [rewrite Htotal; f_equal |]. split; [exact Hupd |].
  split; [exact Hshape |]. split; [reflexivity |]. split; [exact Hwf |].
  intros Hfew. destruct (total_pending_bound _ Hwf) as [Hb Hz].
  assert (Hlen : length (concat (map channels pools)) =
                 length (concat (map channels (channel_pools manager))))
    by (symmetry; eapply Forall2_length; exact Hupd).
  unfold manager_channels in Hfew. rewrite Htotal, Z.add_0_l, <- Hz.
  rewrite u32_id; [reflexivity |]. unfold is_u32, NvU32_modulus.
  change (2 ^ 32) with 4294967296. lia.
Qed.

Lemma uvm_channel_manager_update_progress_spec_witness :
  Forall channel_wf (manager_channels small_manager) /\
  exists manager' evs,
    uvm_channel_manager_update_progress small_manager = Some (1, manager', evs).
Proof.
  assert (Hall : Forall channel_wf (manager_channels small_manager)).
  { unfold manager_channels, small_manager.
    cbn [channel_pools map concat channels app].
    apply Forall_cons. split; [| apply Forall_cons; split; [| apply Forall_nil]].
    - apply (reachable_channel_wf _ _ _ _ submitted_state_reachable).
    - apply (reachable_channel_wf _ _ _ _ claimed_state_reachable).
    - exact I. }
  split; [exact Hall |].
  destruct (uvm_channel_manager_update_progress_spec small_manager Hall)
    as (p & manager' & evs & Hrun & _).
  exists manager', evs. rewrite Hrun.
  assert (Hp : exists m e, uvm_channel_manager_update_progress small_manager =
                           Some (1, m, e)) by (vm_compute; eauto).
  destruct Hp as (m & e & Hp). rewrite Hp in Hrun. inversion Hrun. reflexivity.
Defined.

Lemma check_errors_wf ch gpu fatal_error :
  channel_wf ch ->
  exists status ch' fatal_error' evs,
    uvm_channel_check_errors ch gpu fatal_error =
      Some (status, ch', fatal_error', evs) /\
    status = uvm_channel_get_status ch gpu /\
    (status = NV_OK <-> errorNotifier_status ch = 0) /\
    (status = NV_OK -> ch' = ch /\ fatal_error' = fatal_error /\ evs = []) /\
    (status <> NV_OK ->
     fatal_error' = uvm_global_set_fatal_error status fatal_error).
Proof.
  intros Hwf. pose proof (uvm_channel_get_status_ok ch gpu) as Hok.
  unfold uvm_channel_check_errors.
  destruct (NV_STATUS_eqb (uvm_channel_get_status ch gpu) NV_OK) eqn:E.
  - apply NV_STATUS_eqb_eq in E. do 4 eexists. split; [reflexivity |].
    split; [symmetry; exact E |]. split; [rewrite <- E at 1; exact Hok |].
    split; [intros _; repeat split | intros H; contradiction].
  - assert (Hne : uvm_channel_get_status ch gpu <> NV_OK)
      by (intros H; rewrite H in E; discriminate).
    destruct (first_pending_entry_spec ch Hwf)
      as (ch' & evs & Hrun & Hentries & _ & _).
    unfold uvm_channel_get_fatal_entry. rewrite Hrun. cbn [mbind option_bind].
    assert (Hreport : exists report,
              match first_pending_slot ch
                      (snd (uvm_gpu_tracking_semaphore_update_completed_value
                              (tracking_sem ch))) with
              | Some index =>
                  entry ← gpfifo_entries ch' !! Z.to_nat index;
                  info ← push_info entry;
                  Some [ev_err_caused_by_push info]
              | None => Some []
              end = Some report).
    { destruct (first_pending_slot ch _) as [index |] eqn:Hfirst;
        [| eexists; reflexivity].
      assert (Hin : In index (pending_slots ch)).
      { unfold first_pending_slot in Hfirst. apply find_some in Hfirst. tauto. }
      pose proof (wf_pending_slots ch Hwf) as Hall.
      rewrite List.Forall_forall in Hall.
      destruct (Hall index Hin) as (entry & info & He & Hi).
      rewrite Hentries, He. cbn. rewrite Hi. cbn. eexists. reflexivity. }
    destruct Hreport as (report & Hreport). rewrite Hreport. cbn [mbind option_bind].
    do 4 eexists. split; [reflexivity |]. split; [reflexivity |].
    split; [exact Hok |]. split; [intros H; contradiction |]. intros _. reflexivity.
Qed.

Lemma channels_check_errors_run l gpu fatal_error :
  Forall channel_wf l ->
  exists status l' fatal_error' evs,
    channels_check_errors l gpu fatal_error = Some (status, l', fatal_error', evs) /\
    ((status = NV_OK /\ l' = l /\ fatal_error' = fatal_error /\ evs = [] /\
      Forall (fun ch => errorNotifier_status ch = 0) l) \/
     (status <> NV_OK /\
      exists (k : nat) ch ch',
        l !! k = Some ch /\
        errorNotifier_status ch <> 0 /\
        (forall (j : nat) ch_j, (j < k)%nat -> l !! j = Some ch_j ->
           errorNotifier_status ch_j = 0) /\
        uvm_channel_check_errors ch gpu fatal_error =
          Some (status, ch', fatal_error', evs) /\
        l' = <[k := ch']> l)).
Proof.
  induction l as [| ch rest IH]; intros Hall.
  - do 4 eexists. split; [reflexivity |]. left. repeat split. constructor.
  - apply Forall_cons in Hall. destruct Hall as [Hwf Hrest].
    cbn [channels_check_errors].
    destruct (check_errors_wf ch gpu fatal_error Hwf)
      as (st & ch' & fatal1 & evs1 & Hrun & _ & Hzero & Hok & Hbad).
    rewrite Hrun. cbn [mbind option_bind].
    destruct (NV_STATUS_eqb st NV_OK) eqn:E; cbn [negb].
    + apply NV_STATUS_eqb_eq in E. subst st.
      destruct (Hok eq_refl) as (-> & -> & ->).
      destruct (IH Hrest) as (status & rest' & fatal' & evs2 & Hrun2 & Hres).
      rewrite Hrun2. cbn [mbind option_bind].
      do 4 eexists. split; [reflexivity |].
      destruct Hres as [(-> & -> & -> & -> & Hnone)
                       | (Hne & k & chk & chk' & Hat & Hnz & Hbefore & Hcheck & ->)].
      * left. repeat split. constructor; [apply Hzero; reflexivity | exact Hnone].
      * right. split; [exact Hne |]. exists (S k), chk, chk'.
        split; [exact Hat |]. split; [exact Hnz |]. split; [| split].
        -- intros [| j] ch_j Hj Hlook; cbn in Hlook.
           ++ inversion Hlook; subst. apply Hzero. reflexivity.
           ++ apply (Hbefore j ch_j); [lia | exact Hlook].
        -- exact Hcheck.
        -- reflexivity.
    + assert (Hne : st <> NV_OK) by (intros H; rewrite H in E; discriminate).
      do 4 eexists. split; [reflexivity |]. right. split; [exact Hne |].
      exists 0%nat, ch, ch'. split; [reflexivity |].
      split; [intros Hz; apply Hne, Hzero, Hz |].
      split; [intros j ch_j Hj; lia |]. split; [exact Hrun | reflexivity].
Qed.

Lemma pools_check_errors_run l gpu fatal_error :
  Forall channel_wf (concat (map channels l)) ->
  exists status l' fatal_error' evs,
    pools_check_errors l gpu fatal_error = Some (status, l', fatal_error', evs) /\
    ((status = NV_OK /\ l' = l /\ fatal_error' = fatal_error /\ evs = [] /\
      Forall (fun ch => errorNotifier_status ch = 0) (concat (map channels l))) \/
     (status <> NV_OK /\
      exists (k : nat) ch ch',
        concat (map channels l) !! k = Some ch /\
        errorNotifier_status ch <> 0 /\
        (forall (j : nat) ch_j, (j < k)%nat ->
           concat (map channels l) !! j = Some ch_j ->
           errorNotifier_status ch_j = 0) /\
        uvm_channel_check_errors ch gpu fatal_error =
          Some (status, ch', fatal_error', evs) /\
        concat (map channels l') = <[k := ch']> (concat (map channels l)))).
Proof.
  induction l as [| pool rest IH]; intros Hall.
  - do 4 eexists. split; [reflexivity |]. left. repeat split. constructor.
  - cbn [map concat] in Hall. apply Forall_app in Hall. destruct Hall as [Hpool Hrest].
    cbn [pools_check_errors].
    destruct (channels_check_errors_run (channels pool) gpu fatal_error Hpool)
      as (st & chs & fatal1 & evs1 & Hrun & Hres).
    rewrite Hrun. cbn [mbind option_bind].
    destruct Hres as [(-> & -> & -> & -> & Hnone)
                     | (Hne & k & chk & chk' & Hat & Hnz & Hbefore & Hcheck & ->)].
    + cbn [NV_STATUS_eqb negb].
      destruct (IH Hrest) as (status & rest' & fatal' & evs2 & Hrun2 & Hres).
      rewrite Hrun2. cbn [mbind option_bind]. rewrite set_channels_same.
      do 4 eexists. split; [reflexivity |].
      destruct Hres as [(-> & -> & -> & -> & Hnone')
                       | (Hne & k & chk & chk' & Hat & Hnz & Hbefore & Hcheck & Hins)].
      * left. repeat split. cbn [map concat]. apply Forall_app. split; assumption.
      * right. split; [exact Hne |].
        exists (length (channels pool) + k)%nat, chk, chk'. cbn [map concat].
        split; [rewrite lookup_app_r by lia;
                replace (length (channels pool) + k - length (channels pool))%nat
                  with k by lia; exact Hat |].
        split; [exact Hnz |]. split; [| split].
        -- intros j ch_j Hj Hlook.
           destruct (Nat.lt_ge_cases j (length (channels pool))) as [Hlt | Hge].
           ++ rewrite lookup_app_l in Hlook by exact Hlt.
              rewrite List.Forall_forall in Hnone. apply Hnone.
              apply list_elem_of_In. eapply list_elem_of_lookup_2. exact Hlook.
           ++ rewrite lookup_app_r in Hlook by exact Hge.
              apply (Hbefore (j - length (channels pool))%nat ch_j); [lia | exact Hlook].
        -- exact Hcheck.
        -- rewrite Hins. symmetry. apply insert_app_r.
    + assert (E : NV_STATUS_eqb st NV_OK = false).
      { destruct (NV_STATUS_eqb st NV_OK) eqn:E; [| reflexivity].
        apply NV_STATUS_eqb_eq in E. contradiction. }
      rewrite E. cbn [negb].
      do 4 eexists. split; [reflexivity |]. right. split; [exact Hne |].
      assert (Hk : (k < length (channels pool))%nat)
        by (apply lookup_lt_Some with (x := chk); exact Hat).
      exists k, chk, chk'. cbn [map concat channels set_channels].
      split; [rewrite lookup_app_l by exact Hk; exact Hat |].
      split; [exact Hnz |]. split; [| split].
      * intros j ch_j Hj Hlook. rewrite lookup_app_l in Hlook by lia.
        apply (Hbefore j ch_j Hj Hlook).
      * exact Hcheck.
      * symmetry. apply insert_app_l. exact Hk.
Qed.

(** X24.  [uvm_channel_manager_check_errors] looks at the global fatal
    flag first: when it is raised, its status is returned and no channel
    is touched.  Otherwise, on a manager whose channels are well formed,
    the call returns NV_OK exactly when no channel has its error notifier
    set, and then changes nothing; if some have, it stops at the first of
    them in pool and channel order, returns what
    [uvm_channel_check_errors] returns for that channel, raises the fatal
    flag to that status and leaves every other channel as it was. *)
Theorem uvm_channel_manager_check_errors_spec
    (manager : uvm_channel_manager_t) (gpu : uvm_gpu_ecc) (fatal_error : NV_STATUS) :
  Forall channel_wf (manager_channels manager) ->
  exists status manager' fatal_error' evs,
    uvm_channel_manager_check_errors manager gpu fatal_error =
      Some (status, manager', fatal_error', evs) /\
    (fatal_error <> NV_OK ->
     status = fatal_error /\ manager' = manager /\ fatal_error' = fatal_error /\
     evs = []) /\
    (fatal_error = NV_OK ->
     (status = NV_OK <->
      Forall (fun ch => errorNotifier_status ch = 0) (manager_channels manager)) /\
     (status = NV_OK -> manager' = manager /\ fatal_error' = NV_OK /\ evs = []) /\
     (status <> NV_OK ->
      fatal_error' = status /\
      exists (k : nat) ch ch',
        manager_channels manager !! k = Some ch /\
        errorNotifier_status ch <> 0 /\
        (forall (j : nat) ch_j, (j < k)%nat ->
           manager_channels manager !! j = Some ch_j ->
           errorNotifier_status ch_j = 0) /\
        status = uvm_channel_get_status ch gpu /\
        uvm_channel_check_errors ch gpu NV_OK = Some (status, ch', status, evs) /\
        manager_channels manager' = <[k := ch']> (manager_channels manager))).
Proof.
  intros Hall. unfold uvm_channel_manager_check_errors, uvm_global_get_status.
  destruct (NV_STATUS_eqb fatal_error NV_OK) eqn:E; cbn [negb].
  - apply NV_STATUS_eqb_eq in E. subst fatal_error.
    destruct (pools_check_errors_run (channel_pools manager) gpu NV_OK Hall)
      as (status & pools & fatal' & evs & Hrun & Hres).
    rewrite Hrun. cbn [mbind option_bind].
    do 4 eexists. split; [reflexivity |]. split; [intros H; contradiction |].
    intros _.
    destruct Hres as [(-> & -> & -> & -> & Hnone)
                     | (Hne & k & ch & ch' & Hat & Hnz & Hbefore & Hcheck & Hins)].
    + rewrite set_channel_pools_same. split; [tauto |].
      split; [intros _; repeat split | intros H; contradiction].
    + fold (manager_channels manager) in Hat, Hbefore, Hins.
      destruct (check_errors_wf ch gpu NV_OK)
        as (st & ch2 & f2 & e2 & Hrun2 & Hst & _ & _ & Hbad).
      { rewrite List.Forall_forall in Hall. apply Hall.
        apply list_elem_of_In. eapply list_elem_of_lookup_2. exact Hat. }
      rewrite Hcheck in Hrun2. injection Hrun2 as E1 E2 E3 E4.
      subst st ch2 f2 e2.
      assert (Hf : fatal' = status).
      { rewrite (Hbad Hne). reflexivity. }
      split; [| split; [intros H; contradiction |]].
      * split; [intros H; contradiction |]. intros Hzero. exfalso. apply Hnz.
        rewrite List.Forall_forall in Hzero. apply Hzero.
        apply list_elem_of_In. eapply list_elem_of_lookup_2. exact Hat.
      * intros _. split; [exact Hf |]. exists k, ch, ch'.
        split; [exact Hat |]. split; [exact Hnz |]. split; [exact Hbefore |].
        split; [exact Hst |]. split; [rewrite Hf in Hcheck; exact Hcheck |].
        exact Hins.
  - assert (Hne : fatal_error <> NV_OK) by (intros H; rewrite H in E; discriminate).
    do 4 eexists. split; [reflexivity |].
    split; [intros _; repeat split | intros H; contradiction].
Qed.

Lemma uvm_channel_manager_check_errors_spec_witness :
  Forall channel_wf (manager_channels small_manager) /\
  uvm_channel_manager_check_errors small_manager ecc_gpu NV_OK =
    Some (NV_OK, small_manager, NV_OK, []).
Proof.
  assert (Hall : Forall channel_wf (manager_channels small_manager)).
  { unfold manager_channels, small_manager.
    cbn [channel_pools map concat channels app].
    apply Forall_cons. split; [| apply Forall_cons; split; [| apply Forall_nil]].
    - apply (reachable_channel_wf _ _ _ _ submitted_state_reachable).
    - apply (reachable_channel_wf _ _ _ _ claimed_state_reachable).
    - exact I. }
  split; [exact Hall |].
  destruct (uvm_channel_manager_check_errors_spec small_manager ecc_gpu NV_OK Hall)
    as (status & manager' & fatal' & evs & Hrun & _ & Hok).
  destruct (Hok eq_refl) as (Hiff & Hsame & _).
  assert (Hs : status = NV_OK).
  { apply Hiff. unfold manager_channels, small_manager.
    cbn [channel_pools map concat channels app].
    repeat constructor. }
  destruct (Hsame Hs) as (-> & -> & ->). rewrite Hrun, Hs. reflexivity.
Defined.

(** ** Waiting for the channels of a manager *)

Lemma gpu_write_wf w ch : channel_wf ch -> channel_wf (gpu_write w ch).
Proof.
  intros [[Hn Hp Hg Hc] Hlen Hq Hslots]. split.
  - split; cbn; assumption.
  - exact Hlen.
  - exact Hq.
  - exact Hslots.
Qed.

Lemma gpu_wrote_channels manager manager' :
  gpu_wrote manager manager' ->
  Forall2 (fun ch ch' => exists w, ch' = gpu_write w ch)
          (manager_channels manager) (manager_channels manager').
Proof.
  intros [_ Hpools]. unfold manager_channels.
  induction Hpools as [| pool pool' pools pools' [_ Hchs] _ IH]; cbn [map concat].
  - constructor.
  - apply Forall2_app; assumption.
Qed.

Lemma gpu_wrote_wf manager manager' :
  gpu_wrote manager manager' -> manager_wf manager -> manager_wf manager'.
Proof.
  intros Hwrote [Hall Hfew]. pose proof (gpu_wrote_channels _ _ Hwrote) as Hchs.
  split.
  - clear Hfew. revert Hall.
    induction Hchs as [| ch ch' l l' [w ->] _ IH]; intros Hall; [constructor |].
    apply Forall_cons in Hall. destruct Hall as [Hwf Hall].
    constructor; [apply gpu_write_wf; exact Hwf | apply IH; exact Hall].
  - rewrite <- (Forall2_length _ _ _ Hchs). exact Hfew.
Qed.

Lemma gpu_wrote_rings manager manager' :
  gpu_wrote manager manager' ->
  Forall (fun ch => gpu_get ch = cpu_put ch) (manager_channels manager) ->
  Forall (fun ch => gpu_get ch = cpu_put ch) (manager_channels manager').
Proof.
  intros Hwrote. pose proof (gpu_wrote_channels _ _ Hwrote) as Hchs.
  induction Hchs as [| ch ch' l l' [w ->] _ IH]; intros Hall; [constructor |].
  apply Forall_cons in Hall. destruct Hall as [Hring Hall].
  constructor; [exact Hring | apply IH; exact Hall].
Qed.

Lemma check_errors_keeps_wf ch gpu fatal_error status ch' fatal_error' evs :
  channel_wf ch ->
  uvm_channel_check_errors ch gpu fatal_error =
    Some (status, ch', fatal_error', evs) ->
  channel_wf ch'.
Proof.
  intros Hwf Hrun. unfold uvm_channel_check_errors in Hrun.
  destruct (NV_STATUS_eqb (uvm_channel_get_status ch gpu) NV_OK).
  - inversion Hrun; subst. exact Hwf.
  - unfold uvm_channel_get_fatal_entry, uvm_channel_get_first_pending_entry,
      channel_update_progress_all in Hrun.
    destruct (uvm_channel_update_progress_with_max ch _ _) as [[[p c] e] |] eqn:Hupd;
      [| discriminate].
    pose proof (update_progress_keeps_wf ch _ _ p c e Hwf Hupd) as Hwf'.
    cbn [mbind option_bind] in Hrun.
    destruct (p =? 0); cbn [mbind option_bind] in Hrun.
    + inversion Hrun; subst. exact Hwf'.
    + destruct (negb (gpu_get c =? cpu_put c)).
      * destruct (gpfifo_entries c !! Z.to_nat (gpu_get c)) as [entry |];
          [| discriminate].
        cbn [mbind option_bind] in Hrun.
        destruct (push_info entry); [| discriminate].
        inversion Hrun; subst. exact Hwf'.
      * inversion Hrun; subst. exact Hwf'.
Qed.

Lemma manager_update_progress_run manager :
  manager_wf manager ->
  exists pending_gpfifos manager' evs,
    uvm_channel_manager_update_progress manager =
      Some (pending_gpfifos, manager', evs) /\
    manager_wf manager' /\
    0 <= pending_gpfifos /\
    (pending_gpfifos = 0 <->
     Forall (fun ch => gpu_get ch = cpu_put ch) (manager_channels manager')).
Proof.
  intros [Hall Hfew]. unfold uvm_channel_manager_update_progress.
  assert (H0 : is_u32 0) by (unfold is_u32, NvU32_modulus; cbn; lia).
  destruct (pools_update_progress_run (channel_pools manager) 0 H0 Hall)
    as (total & pools & evs & Hrun & Htotal & Hupd & _ & Hwf).
  rewrite Hrun. cbn [mbind option_bind].
  exists total, (set_channel_pools pools manager), evs.
  split; [reflexivity |].
  assert (Hlen : length (concat (map channels pools)) =
                 length (manager_channels manager))
    by (symmetry; eapply Forall2_length; exact Hupd).
  unfold manager_wf, manager_channels. cbn [channel_pools set_channel_pools].
  split; [split; [exact Hwf | rewrite Hlen; exact Hfew] |].
  destruct (total_pending_bound _ Hwf) as [Hb Hz].
  rewrite Htotal, Z.add_0_l, <- Hz.
  rewrite u32_id; [split; [lia | reflexivity] |].
  unfold is_u32, NvU32_modulus. change (2 ^ 32) with 4294967296. lia.
Qed.

Lemma manager_check_errors_run manager gpu fatal_error :
  manager_wf manager ->
  exists status manager' fatal_error' evs,
    uvm_channel_manager_check_errors manager gpu fatal_error =
      Some (status, manager', fatal_error', evs) /\
    manager_wf manager' /\
    (status = NV_OK -> manager' = manager /\ fatal_error' = fatal_error) /\
    (status <> NV_OK -> fatal_error' <> NV_OK).
Proof.
  intros [Hall Hfew]. unfold uvm_channel_manager_check_errors, uvm_global_get_status.
  destruct (NV_STATUS_eqb fatal_error NV_OK) eqn:E; cbn [negb].
  - apply NV_STATUS_eqb_eq in E. subst fatal_error.
    destruct (pools_check_errors_run (channel_pools manager) gpu NV_OK Hall)
      as (status & pools & fatal' & evs & Hrun & Hres).
    rewrite Hrun. cbn [mbind option_bind].
    do 4 eexists. split; [reflexivity |].
    destruct Hres as [(-> & -> & -> & -> & Hnone)
                     | (Hne & k & ch & ch' & Hat & Hnz & Hbefore & Hcheck & Hins)].
    + rewrite set_channel_pools_same. split; [split; assumption |].
      split; [intros _; split; reflexivity | intros H; contradiction].
    + assert (Hwf : channel_wf ch).
      { rewrite List.Forall_forall in Hall. apply Hall.
        apply list_elem_of_In. eapply list_elem_of_lookup_2. exact Hat. }
      pose proof (check_errors_keeps_wf _ _ _ _ _ _ _ Hwf Hcheck) as Hwf'.
      destruct (check_errors_wf ch gpu NV_OK Hwf)
        as (st & ch2 & f2 & e2 & Hrun2 & _ & _ & _ & Hbad).
      rewrite Hcheck in Hrun2. injection Hrun2 as E1 E2 E3 E4. subst st ch2 f2 e2.
      unfold manager_wf, manager_channels. cbn [channel_pools set_channel_pools].
      rewrite Hins, length_insert.
      split; [split; [apply Forall_insert; assumption | exact Hfew] |].
      split; [intros H; contradiction |]. intros _. rewrite (Hbad Hne). exact Hne.
  - assert (Hne : fatal_error <> NV_OK) by (intros H; rewrite H in E; discriminate).
    do 4 eexists. split; [reflexivity |]. split; [split; assumption |].
    split; [intros H; contradiction | intros _; exact Hne].
Qed.

Lemma uvm_channel_manager_wait_loop_run gpu schedule :
  forall manager status fatal_error,
  Forall (fun turn => forall m, gpu_wrote m (turn m)) schedule ->
  manager_wf manager ->
  (status <> NV_OK -> fatal_error <> NV_OK) ->
  uvm_channel_manager_wait_loop schedule gpu manager status fatal_error <> Faulted /\
  forall status' manager' fatal_error' evs,
    uvm_channel_manager_wait_loop schedule gpu manager status fatal_error =
      Finished (status', manager', fatal_error', evs) ->
    manager_wf manager' /\
    (status' = NV_OK ->
     Forall (fun ch => gpu_get ch = cpu_put ch) (manager_channels manager')) /\
    (status' <> NV_OK -> fatal_error' <> NV_OK).
Proof.
  induction schedule as [| turn | turn1 turn2 schedule IH] using pairs_ind;
    intros manager status fatal_error Hturns Hwf Hflag.
  1, 2: cbn [uvm_channel_manager_wait_loop]; split; [discriminate |];
    intros status' manager' fatal' evs Hrun; discriminate.
  apply Forall_cons in Hturns. destruct Hturns as [Hturn1 Hturns].
  apply Forall_cons in Hturns. destruct Hturns as [Hturn2 Hturns].
  cbn [uvm_channel_manager_wait_loop].
  destruct (manager_update_progress_run (turn1 manager)
              (gpu_wrote_wf _ _ (Hturn1 manager) Hwf))
    as (pending & m1 & evs1 & Hupd & Hwf1 & Hpos & Hzero).
  rewrite Hupd.
  destruct (negb ((0 <? pending) && NV_STATUS_eqb status NV_OK)) eqn:Hcond.
  - split; [discriminate |]. intros status' manager' fatal' evs Hrun.
    inversion Hrun; subst status' manager' fatal' evs. clear Hrun.
    split; [exact Hwf1 |]. split; [| exact Hflag].
    intros ->. cbn [NV_STATUS_eqb] in Hcond. rewrite andb_true_r in Hcond.
    apply negb_true_iff, Z.ltb_ge in Hcond. apply Hzero. lia.
  - destruct (manager_check_errors_run (turn2 m1) gpu fatal_error
                (gpu_wrote_wf _ _ (Hturn2 m1) Hwf1))
      as (st2 & m2 & fatal2 & evs2 & Hcheck & Hwf2 & _ & Hbad2).
    rewrite Hcheck.
    destruct (IH m2 st2 fatal2 Hturns Hwf2 Hbad2) as [Hnofault Hfin].
    destruct (uvm_channel_manager_wait_loop schedule gpu m2 st2 fatal2)
      as [[[[st3 m3] fatal3] evs3] | |] eqn:Hloop.
    + split; [discriminate |]. intros status' manager' fatal' evs Hrun.
      inversion Hrun; subst status' manager' fatal' evs. clear Hrun.
      apply (Hfin _ _ _ _ eq_refl).
    + exfalso. apply Hnofault. reflexivity.
    + split; [discriminate |]. intros status' manager' fatal' evs Hrun. discriminate.
Qed.

(** X25.  [uvm_channel_manager_wait] on a manager with well-formed
    channels, fewer than 4096 of them, with whatever the GPU writes in
    between: it never faults, and when it returns NV_OK every ring of
    the manager is empty, no entry is pending on any channel.  When it
    returns an error the fatal flag is raised. *)
Theorem uvm_channel_manager_wait_spec
    (schedule : list (uvm_channel_manager_t -> uvm_channel_manager_t))
    (gpu : uvm_gpu_ecc) (manager : uvm_channel_manager_t) (fatal_error : NV_STATUS) :
  Forall (fun turn => forall m, gpu_wrote m (turn m)) schedule ->
  manager_wf manager ->
  uvm_channel_manager_wait schedule gpu manager fatal_error <> Faulted /\
  forall status manager' fatal_error' evs,
    uvm_channel_manager_wait schedule gpu manager fatal_error =
      Finished (status, manager', fatal_error', evs) ->
    manager_wf manager' /\
    (status = NV_OK ->
     Forall (fun ch => gpu_get ch = cpu_put ch) (manager_channels manager')) /\
    (status <> NV_OK -> fatal_error' <> NV_OK).
Proof.
  intros Hturns Hwf. unfold uvm_channel_manager_wait.
  destruct schedule as [| turn1 [| turn2 schedule]].
  1, 2: split; [discriminate |]; intros status manager' fatal' evs Hrun; discriminate.
  pose proof Hturns as Hturns0.
  apply Forall_cons in Hturns. destruct Hturns as [Hturn1 Hturns].
  pose proof Hturns as Hrest.
  apply Forall_cons in Hturns. destruct Hturns as [Hturn2 Hturns].
  destruct (manager_update_progress_run (turn1 manager)
              (gpu_wrote_wf _ _ (Hturn1 manager) Hwf))
    as (pending & m1 & evs1 & Hupd & Hwf1 & Hpos & Hzero).
  rewrite Hupd. destruct (Z.eqb_spec pending 0) as [Hz | Hnz].
  - destruct (manager_check_errors_run (turn2 m1) gpu fatal_error
                (gpu_wrote_wf _ _ (Hturn2 m1) Hwf1))
      as (st2 & m2 & fatal2 & evs2 & Hcheck & Hwf2 & Hok2 & Hbad2).
    rewrite Hcheck. split; [discriminate |].
    intros status manager' fatal' evs Hrun.
    inversion Hrun; subst status manager' fatal' evs. clear Hrun.
    split; [exact Hwf2 |]. split; [| exact Hbad2].
    intros Hs. destruct (Hok2 Hs) as [-> _].
    apply (gpu_wrote_rings _ _ (Hturn2 m1)). apply Hzero. exact Hz.
  - destruct (uvm_channel_manager_wait_loop_run gpu (turn2 :: schedule) m1 NV_OK
                fatal_error Hrest Hwf1 ltac:(intros H; contradiction))
      as [Hnofault Hfin].
    destruct (uvm_channel_manager_wait_loop (turn2 :: schedule) gpu m1 NV_OK fatal_error)
      as [[[[st3 m3] fatal3] evs3] | |] eqn:Hloop.
    + split; [discriminate |]. intros status manager' fatal' evs Hrun.
      inversion Hrun; subst status manager' fatal' evs. clear Hrun.
      apply (Hfin _ _ _ _ eq_refl).
    + exfalso. apply Hnofault. reflexivity.
    + split; [discriminate |]. intros status manager' fatal' evs Hrun. discriminate.
Qed.

Lemma gpu_completes_push_wrote manager :
  gpu_wrote manager (gpu_completes_push manager).
Proof.
  unfold gpu_wrote, gpu_completes_push. cbn [channel_pools set_channel_pools].
  split; [reflexivity |].
  induction (channel_pools manager) as [| pool pools IH]; cbn [map]; constructor;
    [| exact IH].
  split; [reflexivity |]. cbn [channels set_channels].
  induction (channels pool) as [| ch chs IHc]; cbn [map]; constructor;
    [| exact IHc].
  exists (1, 0). reflexivity.
Qed.

Lemma small_manager_wf : manager_wf small_manager.
Proof.
  split.
  - unfold manager_channels, small_manager.
    cbn [channel_pools map concat channels app].
    apply Forall_cons. split; [| apply Forall_cons; split; [| apply Forall_nil]].
    + apply (reachable_channel_wf _ _ _ _ submitted_state_reachable).
    + apply (reachable_channel_wf _ _ _ _ claimed_state_reachable).
    + exact I.
  - cbn. lia.
Qed.

Lemma uvm_channel_manager_wait_spec_witness :
  Forall (fun turn => forall m, gpu_wrote m (turn m))
         [gpu_completes_push; gpu_completes_push] /\
  manager_wf small_manager /\
  exists manager' evs,
    uvm_channel_manager_wait [gpu_completes_push; gpu_completes_push] ecc_gpu
      small_manager NV_OK = Finished (NV_OK, manager', NV_OK, evs) /\
    Forall (fun ch => gpu_get ch = cpu_put ch) (manager_channels manager').
Proof.
  assert (Hturns : Forall (fun turn => forall m, gpu_wrote m (turn m))
                          [gpu_completes_push; gpu_completes_push]).
  { apply Forall_cons. split; [exact gpu_completes_push_wrote |].
    apply Forall_cons. split; [exact gpu_completes_push_wrote | apply Forall_nil; exact I]. }
  split; [exact Hturns |]. split; [exact small_manager_wf |].
  destruct (uvm_channel_manager_wait_spec [gpu_completes_push; gpu_completes_push]
              ecc_gpu small_manager NV_OK Hturns small_manager_wf) as [_ Hfin].
  assert (Hrun : exists manager' evs,
            uvm_channel_manager_wait [gpu_completes_push; gpu_completes_push] ecc_gpu
              small_manager NV_OK = Finished (NV_OK, manager', NV_OK, evs))
    by (vm_compute; eauto).
  destruct Hrun as (manager' & evs & Hrun).
  exists manager', evs. split; [exact Hrun |].
  destruct (Hfin _ _ _ _ Hrun) as (_ & Hempty & _). apply Hempty. reflexivity.
Defined.

(** ** Reserving by channel type and by peer *)





(** X27.  [uvm_channel_manager_set_p2p_ce] and
    [uvm_channel_reserve_gpu_to_gpu] on a manager that
    [channel_manager_create_pools] has made: once a copy engine of the
    mask is recommended for a peer, a reservation for that peer goes to
    the pool of that copy engine, which is not the proxy pool; the
    reservations for the other peers go where they went before; and a
    peer with no recommendation gets what [uvm_channel_reserve_type]
    gives for GPU_TO_GPU. *)
Theorem uvm_channel_reserve_gpu_to_gpu_after_set_p2p_ce
    (n : Z) (conf : channel_manager_conf) (ce_caps : list UvmGpuCopyEngineCaps)
    (uses_proxy : bool) (out : Z -> bool -> pool_outcome)
    (schedule : gpu_schedule) (gpu : uvm_gpu_ecc) (fatal_error : NV_STATUS)
    (gpu_to_gpu : list (option nat)) (peer : nat) (optimal_ce : Z) :
  0 <= n <= 2147483648 ->
  (forall type, exists i, usable_ce n ce_caps type i) ->
  (forall ce proxy, pool_outcome_ok proxy (out ce proxy)) ->
  (peer < length gpu_to_gpu)%nat ->
  0 <= optimal_ce < n ->
  supported (caps_at ce_caps optimal_ce) = true ->
  grce (caps_at ce_caps optimal_ce) = false ->
  exists manager pool_index pool,
    channel_manager_create_pools n conf (NV_OK, ce_caps) uses_proxy true out =
      (NV_OK, manager) /\
    uvm_channel_manager_set_p2p_ce manager gpu_to_gpu peer optimal_ce !! peer =
      Some (Some pool_index) /\
    channel_pools manager !! pool_index = Some pool /\
    ce_index pool = optimal_ce /\ is_proxy pool = false /\
    uvm_channel_reserve_gpu_to_gpu schedule gpu manager
      (uvm_channel_manager_set_p2p_ce manager gpu_to_gpu peer optimal_ce) peer
      fatal_error =
      reserve_in_pool_at schedule gpu manager pool_index fatal_error /\
    (forall other, other <> peer ->
       uvm_channel_reserve_gpu_to_gpu schedule gpu manager
         (uvm_channel_manager_set_p2p_ce manager gpu_to_gpu peer optimal_ce) other
         fatal_error =
       uvm_channel_reserve_gpu_to_gpu schedule gpu manager gpu_to_gpu other
         fatal_error) /\
    (forall other, gpu_to_gpu !! other = Some None ->
       uvm_channel_reserve_gpu_to_gpu schedule gpu manager gpu_to_gpu other
         fatal_error =
       uvm_channel_reserve_type schedule gpu manager UVM_CHANNEL_TYPE_GPU_TO_GPU
         fatal_error).
Proof.
  intros Hn Husable Hout Hpeer Hce Hsup Hgrce.
  destruct (channel_manager_create_pools_run n conf ce_caps uses_proxy out
              Hn Husable Hout)
    as (manager & Hrun & Hmask & _ & _ & Hpool & _).
  assert (Hbit : Z.testbit (ce_mask manager) optimal_ce = true).
  { rewrite Hmask by lia. rewrite Hsup, Hgrce.
    destruct (Z.ltb_spec optimal_ce n); [reflexivity | lia]. }
  destruct (Hpool optimal_ce Hce Hbit) as (pool & Hat & Hidx & Hpx & _).
  exists manager, (channel_manager_ce_pool (ce_mask manager) optimal_ce), pool.
  split; [exact Hrun |].
  assert (Hset : uvm_channel_manager_set_p2p_ce manager gpu_to_gpu peer optimal_ce
                   !! peer =
                 Some (Some (channel_manager_ce_pool (ce_mask manager) optimal_ce))).
  { unfold uvm_channel_manager_set_p2p_ce. apply list_lookup_insert_eq. exact Hpeer. }
  split; [exact Hset |]. split; [exact Hat |]. split; [exact Hidx |].
  split; [exact Hpx |]. split; [| split].
  - unfold uvm_channel_reserve_gpu_to_gpu. rewrite Hset. reflexivity.
  - intros other Hne. unfold uvm_channel_reserve_gpu_to_gpu,
      uvm_channel_manager_set_p2p_ce.
    rewrite list_lookup_insert_ne by congruence. reflexivity.
  - intros other Hnone. unfold uvm_channel_reserve_gpu_to_gpu. rewrite Hnone.
    reflexivity.
Qed.

Lemma uvm_channel_reserve_gpu_to_gpu_after_set_p2p_ce_witness :
  0 <= 64 <= 2147483648 /\ (1 < length [@None nat; None; None])%nat /\
  0 <= 2 < 64 /\
  exists manager pool_index pool,
    channel_manager_create_pools 64 default_conf
      (NV_OK, scenario_ce_caps 64 255 65535) false true (fun _ _ => all_ok_pool) =
      (NV_OK, manager) /\
    uvm_channel_manager_set_p2p_ce manager [None; None; None] 1 2 !! 1%nat =
      Some (Some pool_index) /\
    channel_pools manager !! pool_index = Some pool /\
    ce_index pool = 2.
Proof.
  assert (Hu : forall type,
            exists i, usable_ce 64 (scenario_ce_caps 64 255 65535) type i).
  { intros type. exists 1. split; [lia |]. destruct type; reflexivity. }
  assert (Hout : forall (ce : Z) (proxy : bool),
            pool_outcome_ok proxy ((fun _ _ => all_ok_pool) ce proxy)).
  { intros ce proxy. split; [reflexivity |]. intros i _. split; reflexivity. }
  split; [lia |]. split; [cbn; lia |]. split; [lia |].
  destruct (uvm_channel_reserve_gpu_to_gpu_after_set_p2p_ce 64 default_conf
              (scenario_ce_caps 64 255 65535) false (fun _ _ => all_ok_pool)
              [] ecc_gpu NV_OK [None; None; None] 1 2
              ltac:(lia) Hu Hout ltac:(cbn; lia) ltac:(lia) eq_refl eq_refl)
    as (manager & pool_index & pool & Hrun & Hset & Hat & Hidx & _).
  exists manager, pool_index, pool.
  split; [exact Hrun |]. split; [exact Hset |]. split; [exact Hat | exact Hidx].
Defined.
